(** * TaxiAI dispatcher: a shallow embedding of [dispatcher.py]

    The development follows the source file top to bottom: the [FareEntry]
    data container, the [Dispatcher] knowledge base, the runtime methods
    ([newFare], [cancelFare], [fareBid], [recvPayment], [handover]), the
    per-tick driver [clockTick] and its helpers [_costFare],
    [_allocateFare] and [displayRevenues].  The service map ([addMapNode],
    [importMap]) has a section of its own after the events.

    Modelling conventions.
    - Python dictionaries keep insertion order and several methods depend on
      it, so a dictionary is an association list: assignment to a present key
      updates it in place, assignment to a new key appends it.
    - Python numbers are exact rationals ([Q]); list indices and the
      [-1] "no taxi" sentinel are integers ([Z]).
    - The world (the dispatcher's [_parent]) owns the nodes, the travel-time
      estimator and the taxi objects.  The dispatcher only holds references
      to taxis, so a taxi is an object identity and its attributes
      ([currentLocation], [_path], [_revenue]) are read through the world.
      The dispatcher hands the answers of [getNode] to [travelTime] without
      looking at them, [None] included, and prices a non-positive estimate
      at a flat rate; [travelTime] is therefore taken to answer with a
      number on every pair of arguments.
    - Calls the dispatcher makes on its world ([broadcastFare],
      [allocateFare], [cancelFare]) and its [print]s are recorded, in order,
      in a list of [Call]s.  The world methods are taken to return without
      re-entering the dispatcher.
    - A Python exception ends the method; the fields mutated before the raise
      keep their new values, so a method that can raise returns the state it
      reached together with the exception. *)

From Stdlib Require Import ZArith QArith Qround List Bool Lia Lqa.
Import ListNotations.

Set Implicit Arguments.
Local Open Scope Z_scope.

(** ** Equality tests on dictionary keys

    [eqb] is Python's [==] on the values used as keys and list elements:
    integers, object identities and coordinate tuples. *)

Class EqDec (K : Type) := { eqb : K -> K -> bool }.

#[export] Instance EqDec_Z : EqDec Z := {| eqb := Z.eqb |}.
#[export] Instance EqDec_nat : EqDec nat := {| eqb := Nat.eqb |}.

Definition pair_eqb {A B} `{EqDec A} `{EqDec B} (p q : A * B) : bool :=
  eqb (fst p) (fst q) && eqb (snd p) (snd q).

#[export] Instance EqDec_pair {A B} `{EqDec A} `{EqDec B} : EqDec (A * B) :=
  {| eqb := pair_eqb |}.

(** The test decides equality. *)
Class EqDecLaws (K : Type) `{EqDec K} := {
  eqb_eq : forall x y : K, eqb x y = true <-> x = y
}.
Arguments EqDecLaws K {_}.

(** ** Python dictionaries as insertion-ordered association lists *)

Module Dict.
Section Defs.
Context {K V : Type} `{EqDec K}.

Definition t := list (K * V).

(** [m.get(k)], [k in m], [m[k]] *)
Fixpoint get (k : K) (m : t) : option V :=
  match m with
  | [] => None
  | (k', v) :: m' => if eqb k k' then Some v else get k m'
  end.

Definition mem (k : K) (m : t) : bool :=
  match get k m with Some _ => true | None => false end.

(** [m[k] = v]: a present key keeps its position, a new key goes last. *)
Fixpoint set (k : K) (v : V) (m : t) : t :=
  match m with
  | [] => [(k, v)]
  | (k', v') :: m' => if eqb k k' then (k, v) :: m' else (k', v') :: set k v m'
  end.

(** [del m[k]] *)
Definition del (k : K) (m : t) : t :=
  filter (fun kv => negb (eqb k (fst kv))) m.

(** [m.keys()] and [m.values()], in insertion order *)
Definition keys (m : t) : list K := map fst m.
Definition values (m : t) : list V := map snd m.

End Defs.
Arguments t : clear implicits.
End Dict.

(** ** Python exceptions and list primitives *)

Inductive exn := IndexError | TypeError | ValueError | KeyError.

Inductive result (A : Type) :=
| Ok (a : A)
| Raise (e : exn).
Arguments Ok {A} a.
Arguments Raise {A} e.

Definition bind {A B} (c : result A) (k : A -> result B) : result B :=
  match c with
  | Ok a => k a
  | Raise e => Raise e
  end.

Notation "x <- c ;; k" := (bind c (fun x => k))
  (at level 61, c at next level, right associativity).

(** [l[i]] for a Python list: a negative index counts from the end. *)
Definition getitem {A} (l : list A) (i : Z) : result A :=
  let n := Z.of_nat (length l) in
  let j := if i <? 0 then i + n else i in
  if (0 <=? j) && (j <? n) then
    match nth_error l (Z.to_nat j) with
    | Some a => Ok a
    | None => Raise IndexError
    end
  else Raise IndexError.

(** [x in l] *)
Definition contains {A} `{EqDec A} (x : A) (l : list A) : bool :=
  existsb (eqb x) l.

(** [l.index(x)]: position of the first occurrence, [ValueError] if none. *)
Fixpoint index_from {A} `{EqDec A} (x : A) (l : list A) (i : Z) : result Z :=
  match l with
  | [] => Raise ValueError
  | y :: l' => if eqb x y then Ok i else index_from x l' (i + 1)
  end.

Definition index {A} `{EqDec A} (x : A) (l : list A) : result Z :=
  index_from x l 0.

(** [sorted(l)] on integers *)
Fixpoint insert_sorted (x : Z) (l : list Z) : list Z :=
  match l with
  | [] => [x]
  | y :: l' => if x <=? y then x :: l else y :: insert_sorted x l'
  end.

Definition sorted (l : list Z) : list Z := fold_right insert_sorted [] l.

(** [range(n)] *)
Definition range (n : nat) : list Z := map Z.of_nat (seq 0 n).

(** [a < b] on numbers *)
Definition Qlt_bool (a b : Q) : bool := negb (Qle_bool b a).

(** [min(m, key=m.get)]: the first key, in insertion order, whose value is
    minimal; Python's [min] replaces its candidate only on a strict [<].
    [ValueError] on an empty dictionary. *)
Fixpoint argmin_from {K} (best : K) (bv : Q) (m : list (K * Q)) : K :=
  match m with
  | [] => best
  | (k, v) :: m' =>
      if Qlt_bool v bv then argmin_from k v m' else argmin_from best bv m'
  end.

Definition min_by_value {K} (m : list (K * Q)) : result K :=
  match m with
  | [] => Raise ValueError
  | (k, v) :: m' => Ok (argmin_from k v m')
  end.

(** [min(l)] on integers *)
Definition min_Z (l : list Z) : result Z :=
  match l with
  | [] => Raise ValueError
  | x :: l' => Ok (fold_left Z.min l' x)
  end.

(** ** The world the dispatcher lives in

    [Coord] is an [(x, y)] tuple.  A [World] value is a snapshot of what the
    dispatcher can read from its bound world at the time of a call:
    [getNode] and [travelTime] are the world's methods ([getNode] answers
    [None] for a coordinate off the map, and [travelTime] is handed whatever
    [getNode] answered), the other fields are the attributes of the taxi
    objects the dispatcher holds references to. *)

Definition Coord : Type := (Z * Z)%type.
Definition Node : Type := nat.
Definition TaxiRef : Type := nat.
Definition WorldRef : Type := nat.

Record World := {
  getNode : Z -> Z -> option Node;
  travelTime : option Node -> option Node -> Q;
  currentLocation : TaxiRef -> Coord;
  _path : TaxiRef -> list Coord;
  number : TaxiRef -> Z;
  taxi_revenue : TaxiRef -> Q
}.

Inductive Message :=
| FareCancelledMsg (x y : Z)
| DispatcherRevenueMsg (r : Q)
| TaxiRevenueMsg (n : Z) (r : Q)
| TotalRevenueMsg (r : Q).

(** What the dispatcher does to the outside: method calls on [self._parent]
    and lines written by [print]. *)
Module Parent.
Inductive Call :=
| broadcastFare (o d : Coord) (p : Q)
| allocateFare (o : Coord) (tx : TaxiRef)
| cancelFare (o : Coord) (tx : TaxiRef)
| printed (m : Message).
End Parent.

(** ** [class FareEntry] *)

Record FareEntry := mkFareEntry {
  origin : Coord;
  destination : Coord;
  calltime : Z;
  price : Q;
  taxi : Z;            (* -1 if none has been allocated *)
  bidders : list Z     (* indices of the taxis that have bid *)
}.

(** [FareEntry(origin, dest, time)] with the defaults [price=0],
    [taxiIndex=-1]. *)
Definition FareEntry_init (o d : Coord) (t : Z) : FareEntry :=
  mkFareEntry o d t 0 (-1) [].

Definition set_price (p : Q) (f : FareEntry) : FareEntry :=
  mkFareEntry (origin f) (destination f) (calltime f) p (taxi f) (bidders f).

Definition set_taxi (i : Z) (f : FareEntry) : FareEntry :=
  mkFareEntry (origin f) (destination f) (calltime f) (price f) i (bidders f).

Definition append_bidder (i : Z) (f : FareEntry) : FareEntry :=
  mkFareEntry (origin f) (destination f) (calltime f) (price f) (taxi f)
    (bidders f ++ [i]).

(** ** [class Dispatcher]

    [_fareBoard] is the nested dictionary indexed by origin, then
    destination, then call time.  [_map] is only touched by [addMapNode] and
    [importMap]; it is kept apart, in the section on the service map. *)

Abbreviation TimeBucket := (Dict.t Z FareEntry).
Abbreviation DestBucket := (Dict.t Coord (Dict.t Z FareEntry)).
Abbreviation FareBoard := (Dict.t Coord (Dict.t Coord (Dict.t Z FareEntry))).

Record Dispatcher := mkDispatcher {
  _parent : WorldRef;
  _revenue : Q;
  _taxis : list TaxiRef;
  _fareBoard : FareBoard;
  fareAmountConstraint : Dict.t Z Z
}.

(** [Dispatcher(parent, taxis)] *)
Definition Dispatcher_init (parent : WorldRef) (taxis : list TaxiRef) : Dispatcher :=
  mkDispatcher parent 0 taxis [] [].

Definition with_revenue (r : Q) (s : Dispatcher) : Dispatcher :=
  mkDispatcher (_parent s) r (_taxis s) (_fareBoard s) (fareAmountConstraint s).

Definition with_taxis (l : list TaxiRef) (s : Dispatcher) : Dispatcher :=
  mkDispatcher (_parent s) (_revenue s) l (_fareBoard s) (fareAmountConstraint s).

Definition with_fareBoard (b : FareBoard) (s : Dispatcher) : Dispatcher :=
  mkDispatcher (_parent s) (_revenue s) (_taxis s) b (fareAmountConstraint s).

Definition with_fareAmountConstraint (c : Dict.t Z Z) (s : Dispatcher) : Dispatcher :=
  mkDispatcher (_parent s) (_revenue s) (_taxis s) (_fareBoard s) c.

(** [self._fareBoard[origin][destination][time]] *)
Definition fare_at (b : FareBoard) (o d : Coord) (t : Z) : option FareEntry :=
  match Dict.get o b with
  | None => None
  | Some bd =>
      match Dict.get d bd with
      | None => None
      | Some bt => Dict.get t bt
      end
  end.

(** An attribute assignment [self._fareBoard[o][d][t].attr = ...] on an entry
    that is on the board: the entry object is mutated in place, the three
    dictionaries keep their keys and their order. *)
Definition update_fare (g : FareEntry -> FareEntry) (o d : Coord) (t : Z)
  (b : FareBoard) : FareBoard :=
  match Dict.get o b with
  | None => b
  | Some bd =>
      match Dict.get d bd with
      | None => b
      | Some bt =>
          match Dict.get t bt with
          | None => b
          | Some f => Dict.set o (Dict.set d (Dict.set t (g f) bt) bd) b
          end
      end
  end.

(** The state a method call leaves behind, the calls it made on the outside
    and the exception that ended it, if any. *)
Record Outcome := mkOutcome {
  state : Dispatcher;
  calls : list Parent.Call;
  raised : option exn
}.

Definition returns (s : Dispatcher) (cs : list Parent.Call) : Outcome :=
  mkOutcome s cs None.

Definition raises (s : Dispatcher) (cs : list Parent.Call) (e : exn) : Outcome :=
  mkOutcome s cs (Some e).

(** *** [addTaxi] *)
Definition addTaxi (s : Dispatcher) (tx : TaxiRef) : Outcome :=
  if contains tx (_taxis s) then returns s []
  else returns (with_taxis (_taxis s ++ [tx]) s) [].

(** *** [newFare]

    The three branches of the source are the three shapes of the board at
    [origin]: known origin and destination, known origin with a new
    destination bucket, new origin bucket.  The final assignment
    [self._fareBoard[origin][destination][time] = fare] overwrites an entry
    with the same triple in place. *)
Definition board_insert (o d : Coord) (t : Z) (fare : FareEntry) (b : FareBoard)
  : FareBoard :=
  match Dict.get o b with
  | Some bd =>
      match Dict.get d bd with
      | Some bt => Dict.set o (Dict.set d (Dict.set t fare bt) bd) b
      | None => Dict.set o (Dict.set d (Dict.set t fare []) bd) b
      end
  | None => Dict.set o (Dict.set d (Dict.set t fare []) []) b
  end.

Definition newFare (s : Dispatcher) (parent : WorldRef) (o d : Coord) (t : Z)
  : Outcome :=
  if eqb parent (_parent s) then
    let fare := FareEntry_init o d t in
    returns (with_fareBoard (board_insert o d t fare (_fareBoard s)) s) []
  else returns s [].

(** *** [cancelFare]

    The two pruning tests sit after the [calltime] test, inside the
    [destination] test, and are run whether or not an entry was deleted. *)
Definition prune_buckets (o d : Coord) (b : FareBoard) : FareBoard :=
  let b1 :=
    match Dict.get o b with
    | Some bd =>
        match Dict.get d bd with
        | Some bt =>
            if (Z.of_nat (length bt) =? 0) then Dict.set o (Dict.del d bd) b else b
        | None => b
        end
    | None => b
    end in
  match Dict.get o b1 with
  | Some bd => if (Z.of_nat (length bd) =? 0) then Dict.del o b1 else b1
  | None => b1
  end.

Definition cancelFare (s : Dispatcher) (parent : WorldRef) (o d : Coord)
  (t : Z) : Outcome :=
  if eqb parent (_parent s) then
    match Dict.get o (_fareBoard s) with
    | Some bd =>
        match Dict.get d bd with
        | Some bt =>
            match Dict.get t bt with
            | Some fare =>
                let said := Parent.printed (FareCancelledMsg (fst o) (snd o)) in
                match getitem (_taxis s) (taxi fare) with
                | Raise e => raises s [said] e
                | Ok tx =>
                    let b1 := Dict.set o (Dict.set d (Dict.del t bt) bd) (_fareBoard s) in
                    returns (with_fareBoard (prune_buckets o d b1) s)
                      [said; Parent.cancelFare o tx]
                end
            | None =>
                returns (with_fareBoard (prune_buckets o d (_fareBoard s)) s) []
            end
        | None => returns s []
        end
    | None => returns s []
    end
  else returns s [].

(** *** [fareBid]

    The two nested [for] loops walk the destination keys and, inside each,
    the call-time keys, as the dictionaries yield them; the first entry whose
    [taxi] is [-1] takes the bid and the method returns. *)
Fixpoint first_open_time (bt : TimeBucket) (ts : list Z) : option Z :=
  match ts with
  | [] => None
  | t :: ts' =>
      match Dict.get t bt with
      | Some f => if taxi f =? -1 then Some t else first_open_time bt ts'
      | None => first_open_time bt ts'
      end
  end.

Fixpoint first_open (bd : DestBucket) (ds : list Coord) : option (Coord * Z) :=
  match ds with
  | [] => None
  | d :: ds' =>
      match Dict.get d bd with
      | Some bt =>
          match first_open_time bt (Dict.keys bt) with
          | Some t => Some (d, t)
          | None => first_open bd ds'
          end
      | None => first_open bd ds'
      end
  end.

Definition fareBid (s : Dispatcher) (o : Coord) (tx : TaxiRef) : Outcome :=
  if contains tx (_taxis s) then
    match Dict.get o (_fareBoard s) with
    | Some bd =>
        match first_open bd (Dict.keys bd) with
        | Some (d, t) =>
            match index tx (_taxis s) with
            | Ok i =>
                returns (with_fareBoard
                           (update_fare (append_bidder i) o d t (_fareBoard s)) s) []
            | Raise e => raises s [] e
            end
        | None => returns s []
        end
    | None => returns s []
    end
  else returns s [].

(** *** [recvPayment] *)
Definition recvPayment (s : Dispatcher) (parent : WorldRef) (amount : Q) : Outcome :=
  if eqb (_parent s) parent then returns (with_revenue (_revenue s + amount) s) []
  else returns s [].

(** *** [handover] *)
Definition handover (s : Dispatcher) (parent : WorldRef) (o d : Coord) (t : Z)
  (tx : TaxiRef) (p : Q) : Outcome :=
  if eqb (_parent s) parent then
    let s1 := if contains tx (_taxis s) then s
              else with_taxis (_taxis s ++ [tx]) s in
    let s2 := state (newFare s1 parent o d t) in
    match index tx (_taxis s2) with
    | Ok i =>
        let b1 := update_fare (set_taxi i) o d t (_fareBoard s2) in
        let b2 := update_fare (set_price p) o d t b1 in
        returns (with_fareBoard b2 s2) []
    | Raise e => raises s2 [] e
    end
  else returns s [].

(** *** [displayRevenues] *)
Definition displayRevenues (W : World) (s : Dispatcher) : list Parent.Call :=
  let totalRevenue := fold_left (fun acc tx => (acc + taxi_revenue W tx)%Q) (_taxis s)
                        (0 + _revenue s)%Q in
  [Parent.printed (DispatcherRevenueMsg (_revenue s))]
  ++ map (fun tx => Parent.printed (TaxiRevenueMsg (number W tx) (taxi_revenue W tx)))
       (_taxis s)
  ++ [Parent.printed (TotalRevenueMsg totalRevenue)].

(** *** [_costFare]

    [while costSample < maximumCostAllowed - 1: costSample += 1].  The loop
    is run on a counter that starts at the number of unit steps separating
    [c] from [bound], rounded up; [raise_to_exit] below shows that the
    counter never cuts the loop short. *)
Fixpoint while_below (n : nat) (bound c : Q) : Q :=
  match n with
  | O => c
  | S n' => if Qlt_bool c bound then while_below n' bound (c + 1)%Q else c
  end.

Definition raise_to (bound c : Q) : Q :=
  while_below (Z.to_nat (Qceiling (bound - c)%Q)) bound c.

(** The body of [for i in range(200)], with [costSample = None] as [None].
    Comparing [None] with a number is a [TypeError]. *)
Fixpoint cost_samples (js : list Z) (T maximumCostAllowed : Q)
  (costSample : option Q) : result (option Q) :=
  match js with
  | [] => Ok costSample
  | i :: js' =>
      if Qlt_bool (inject_Z i + T / (9 # 10))%Q (maximumCostAllowed - 1)%Q then
        cost_samples js' T maximumCostAllowed (Some (inject_Z i + T / (9 # 10))%Q)
      else
        match costSample with
        | None => Raise TypeError
        | Some c => Ok (Some (raise_to (maximumCostAllowed - 1)%Q c))
        end
  end.

(** The pricing rule as a function of the travel time. *)
Definition cost_of_time (timeToDestination : Q) : result Q :=
  let maximumCostAllowed := (10 * timeToDestination)%Q in
  costSample <-
    (if Qlt_bool 0 timeToDestination
     then cost_samples (range 200) timeToDestination maximumCostAllowed None
     else Ok None) ;;
  match costSample with
  | Some c => if Qlt_bool 0 c then Ok c else Ok 150%Q
  | None => Ok 150%Q
  end.

Definition _costFare (W : World) (fare : FareEntry) : result Q :=
  cost_of_time
    (travelTime W (getNode W (fst (origin fare)) (snd (origin fare)))
                  (getNode W (fst (destination fare)) (snd (destination fare)))).

(** *** [_allocateFare] *)

(** [self._parent.getNode(self._taxis[i].currentLocation[0], ...[1])] *)
Definition bidder_node (W : World) (s : Dispatcher) (i : Z) : result (option Node) :=
  tx <- getitem (_taxis s) i ;;
  Ok (getNode W (fst (currentLocation W tx)) (snd (currentLocation W tx))).

(** [len(t._path) > 0 and len(t._path) == n and c == t._path[-1]] *)
Definition path_ends (W : World) (tx : TaxiRef) (n : Q) (c : Coord) : bool :=
  let len := Z.of_nat (length (_path W tx)) in
  (0 <? len) && Qeq_bool (inject_Z len) n &&
  match getitem (_path W tx) (-1) with
  | Ok c' => eqb c c'
  | Raise _ => false
  end.

(** The inner loop [for t in self._taxis] of the stuck-taxi test. *)
Definition stuck_scan (W : World) (o d : Coord) (travelToOrigin travelToDestination : Q)
  (taxis : list TaxiRef) (fareNode : option Node) : option Node :=
  fold_left
    (fun fn tx =>
       let fn1 := if path_ends W tx travelToOrigin o then None else fn in
       if path_ends W tx (travelToOrigin + travelToDestination)%Q d then None else fn1)
    taxis fareNode.

(** The outer loop [for taxi in bidders]; [fareNode] is a local variable the
    loop may overwrite with [None], and later iterations read it back. *)
Fixpoint stuck_guard (W : World) (s : Dispatcher) (o d : Coord) (bs : list Z)
  (fareNode : option Node) : result (option Node) :=
  match bs with
  | [] => Ok fareNode
  | b :: bs' =>
      bidderNode <- bidder_node W s b ;;
      let travelToOrigin := travelTime W bidderNode fareNode in
      let travelToDestination := travelTime W bidderNode (getNode W (fst d) (snd d)) in
      stuck_guard W s o d bs'
        (stuck_scan W o d travelToOrigin travelToDestination (_taxis s) fareNode)
  end.

(** The loop that fills [initialFares] and [constraintFares]. *)
Fixpoint split_bidders (W : World) (s : Dispatcher) (fareNode : option Node)
  (bs : list Z) (initialFares constraintFares : Dict.t Z Q)
  : result (Dict.t Z Q * Dict.t Z Q) :=
  match bs with
  | [] => Ok (initialFares, constraintFares)
  | i :: bs' =>
      bidderNode <- bidder_node W s i ;;
      if Dict.mem i (fareAmountConstraint s) then
        split_bidders W s fareNode bs' initialFares
          (Dict.set i (travelTime W bidderNode fareNode) constraintFares)
      else
        split_bidders W s fareNode bs'
          (Dict.set i (travelTime W bidderNode fareNode) initialFares)
          constraintFares
  end.

(** The loop that fills [travelTimes] from [validBidders]. *)
Fixpoint travel_times (W : World) (s : Dispatcher) (fareNode : option Node)
  (vs : list Z) (travelTimes : Dict.t Z Q) : result (Dict.t Z Q) :=
  match vs with
  | [] => Ok travelTimes
  | i :: vs' =>
      bidderNode <- bidder_node W s i ;;
      travel_times W s fareNode vs'
        (Dict.set i (travelTime W bidderNode fareNode) travelTimes)
  end.

(** The veterans' branch, from [minFareAmount] down to its three ways of
    choosing [allocatedTaxi]. *)
Definition choose_veteran (W : World) (s : Dispatcher) (fareNode : option Node)
  (constraintFares : Dict.t Z Q) : result Z :=
  minFareAmount <- min_Z (Dict.values (fareAmountConstraint s)) ;;
  let lowestFares :=
    map fst (filter (fun ij => snd ij =? minFareAmount) (fareAmountConstraint s)) in
  let validBidders :=
    filter (fun x => contains x lowestFares) (Dict.keys constraintFares) in
  if (1 <? Z.of_nat (length validBidders)) then
    travelTimes <- travel_times W s fareNode validBidders [] ;;
    min_by_value travelTimes
  else if (0 <? Z.of_nat (length validBidders)) then
    getitem validBidders 0
  else
    min_by_value constraintFares.

(** The choice of [allocatedTaxi] once the stuck-taxi test has run. *)
Definition choose_taxi (W : World) (s : Dispatcher) (fareNode : option Node)
  (bs : list Z) : result Z :=
  if (1 <? Z.of_nat (length bs)) then
    fares <- split_bidders W s fareNode bs [] [] ;;
    let (initialFares, constraintFares) := fares in
    match initialFares with
    | _ :: _ => min_by_value initialFares
    | [] => choose_veteran W s fareNode constraintFares
    end
  else
    getitem bs 0.

(** The ledger update [fareAmountConstraint[allocatedTaxi] += 1] or [= 1]. *)
Definition count_fare (i : Z) (c : Dict.t Z Z) : Dict.t Z Z :=
  match Dict.get i c with
  | Some n => Dict.set i (n + 1) c
  | None => Dict.set i 1 c
  end.

(** The commit under [if allocatedTaxi >= 0]. *)
Definition commit_fare (s : Dispatcher) (o d : Coord) (t : Z) (allocatedTaxi : Z)
  : Outcome :=
  if 0 <=? allocatedTaxi then
    let s1 := with_fareBoard
                (update_fare (set_taxi allocatedTaxi) o d t (_fareBoard s)) s in
    match getitem (_taxis s1) allocatedTaxi with
    | Raise e => raises s1 [] e
    | Ok tx =>
        returns
          (with_fareAmountConstraint
             (count_fare allocatedTaxi (fareAmountConstraint s1)) s1)
          [Parent.allocateFare o tx]
    end
  else returns s [].

Definition _allocateFare (W : World) (s : Dispatcher) (o d : Coord) (t : Z)
  : Outcome :=
  match fare_at (_fareBoard s) o d t with
  | None => raises s [] KeyError
  | Some fare =>
      let bs := bidders fare in
      let fareNode := getNode W (fst o) (snd o) in
      if (0 <? Z.of_nat (length (_taxis s))) && (0 <? Z.of_nat (length (_fareBoard s)))
      then
        match fareNode with
        | None => returns s []
        | Some _ =>
            match (fareNode' <- stuck_guard W s o d bs fareNode ;;
                   choose_taxi W s fareNode' bs) with
            | Raise e => raises s [] e
            | Ok allocatedTaxi => commit_fare s o d t allocatedTaxi
            end
        end
      else returns s []
  end.

(** *** [clockTick]

    The three nested loops visit the keys of the board grouped by origin and
    destination, call times through [sorted].  The loop body assigns to
    attributes of entries and never adds or removes a key, so the keys can be
    listed before the walk. *)
Definition tick_keys (b : FareBoard) : list (Coord * Coord * Z) :=
  flat_map
    (fun o =>
       match Dict.get o b with
       | Some bd =>
           flat_map
             (fun d =>
                match Dict.get d bd with
                | Some bt => map (fun t => (o, d, t)) (sorted (Dict.keys bt))
                | None => []
                end)
             (Dict.keys bd)
       | None => []
       end)
    (Dict.keys b).

Definition tick_fare (W : World) (s : Dispatcher) (k : Coord * Coord * Z) : Outcome :=
  let '(o, d, t) := k in
  match fare_at (_fareBoard s) o d t with
  | None => raises s [] KeyError
  | Some fare =>
      if Qeq_bool (price fare) 0 then
        match _costFare W fare with
        | Raise e => raises s [] e
        | Ok p =>
            returns (with_fareBoard (update_fare (set_price p) o d t (_fareBoard s)) s)
              [Parent.broadcastFare o d p]
        end
      else if (taxi fare <? 0) && (0 <? Z.of_nat (length (bidders fare))) then
        _allocateFare W s o d t
      else returns s []
  end.

Fixpoint tick_loop (W : World) (ks : list (Coord * Coord * Z)) (s : Dispatcher)
  (cs : list Parent.Call) : Outcome :=
  match ks with
  | [] => returns s cs
  | k :: ks' =>
      let r := tick_fare W s k in
      match raised r with
      | Some e => raises (state r) (cs ++ calls r) e
      | None => tick_loop W ks' (state r) (cs ++ calls r)
      end
  end.

Definition clockTick (W : World) (s : Dispatcher) (parent : WorldRef) : Outcome :=
  let shown := displayRevenues W s in
  if eqb (_parent s) parent then tick_loop W (tick_keys (_fareBoard s)) s shown
  else returns s shown.

(** ** Events

    The inbound calls the world makes on a dispatcher, each with the
    snapshot of the world it is made in. *)
Inductive Event :=
| NewFare (parent : WorldRef) (o d : Coord) (t : Z)
| CancelFare (parent : WorldRef) (o d : Coord) (t : Z)
| FareBid (o : Coord) (tx : TaxiRef)
| RecvPayment (parent : WorldRef) (amount : Q)
| ClockTick (W : World) (parent : WorldRef)
| Handover (parent : WorldRef) (o d : Coord) (t : Z) (tx : TaxiRef) (p : Q)
| AddTaxi (tx : TaxiRef).

Definition handle (s : Dispatcher) (e : Event) : Outcome :=
  match e with
  | NewFare parent o d t => newFare s parent o d t
  | CancelFare parent o d t => cancelFare s parent o d t
  | FareBid o tx => fareBid s o tx
  | RecvPayment parent amount => recvPayment s parent amount
  | ClockTick W parent => clockTick W s parent
  | Handover parent o d t tx p => handover s parent o d t tx p
  | AddTaxi tx => addTaxi s tx
  end.

(** The dispatcher object outlives an exception raised by one of its
    methods: the next event finds the state that call left behind. *)
Definition run (s : Dispatcher) (es : list Event) : Dispatcher :=
  fold_left (fun s' e => state (handle s' e)) es s.

(** * The service map

    [addMapNode] and [importMap] read [self._parent] and read and write
    [self._map], and touch no other attribute; they are modelled on those
    two.  [self._map] is [None] until a map is given, then a dictionary from
    coordinates to a dictionary from neighbour coordinates to a pair of a
    label and a distance; labels are opaque to the dispatcher and integers
    stand for them.  A neighbour is handed to [addMapNode] as a triple
    [(label, x, y)].  The world may be absent ([self._parent is None]); when
    present it is asked for nodes ([getNode]) and for the distance between
    two nodes ([distance2Node]).

    [addMapNode] does not raise its errors, it returns them: the value
    returned is [None] or an exception object.

    [importMap] stores the first map by reference; the dictionary stays the
    caller's as well.  What the caller does with it afterwards is outside the
    dispatcher and is not followed here. *)

Abbreviation Neighbours := (Dict.t Coord (Z * Q)).
Abbreviation ServiceMap := (Dict.t Coord (Dict.t Coord (Z * Q))).

Record Atlas := {
  atlas_world : World;
  distance2Node : Node -> Node -> Q
}.

(** The exception objects [addMapNode] returns: an [AttributeError], or a
    [KeyError] whose message names the missing node, or the node and its
    missing neighbour. *)
Inductive ErrorValue :=
| AttributeErrorValue
| NoSuchNode (coords : Coord)
| NoSuchNeighbour (coords : Coord) (neighbour : Z * Z * Z).

Record MapOutcome := mkMapOutcome {
  map_after : option ServiceMap;      (* [self._map] when the call ends *)
  map_returned : option ErrorValue;   (* the value returned, [None] for [None] *)
  map_raised : option exn             (* the exception raised, if any *)
}.

(** The loop [for neighbour in neighbours] of [addMapNode]: the dictionary
    built so far, or the error value returned from inside the loop. *)
Fixpoint neighbour_dict (P : Atlas) (coords : Coord) (node : Node)
  (neighbours : list (Z * Z * Z)) (neighbourDict : Neighbours)
  : ErrorValue + Neighbours :=
  match neighbours with
  | [] => inr neighbourDict
  | neighbour :: rest =>
      let neighbourCoords := (snd (fst neighbour), snd neighbour) in
      match getNode (atlas_world P) (snd (fst neighbour)) (snd neighbour) with
      | None => inl (NoSuchNeighbour coords neighbour)
      | Some neighbourNode =>
          neighbour_dict P coords node rest
            (Dict.set neighbourCoords
               (fst (fst neighbour), distance2Node P node neighbourNode)
               neighbourDict)
      end
  end.

(** [addMapNode].  The final assignment [self._map[coords] = neighbourDict]
    on a [_map] that is [None] is a [TypeError]. *)
Definition addMapNode (parent : option Atlas) (_map : option ServiceMap)
  (coords : Coord) (neighbours : list (Z * Z * Z)) : MapOutcome :=
  match parent with
  | None => mkMapOutcome _map (Some AttributeErrorValue) None
  | Some P =>
      match getNode (atlas_world P) (fst coords) (snd coords) with
      | None => mkMapOutcome _map (Some (NoSuchNode coords)) None
      | Some node =>
          match neighbour_dict P coords node neighbours [] with
          | inl e => mkMapOutcome _map (Some e) None
          | inr neighbourDict =>
              match _map with
              | None => mkMapOutcome None None (Some TypeError)
              | Some m => mkMapOutcome (Some (Dict.set coords neighbourDict m)) None None
              end
          end
      end
  end.

(** The list comprehension of [importMap]: the items of a neighbour
    dictionary as [(label, x, y)] triples; the distance is dropped. *)
Definition neighbour_triples (ns : Neighbours) : list (Z * Z * Z) :=
  map (fun neighbour => (fst (snd neighbour), fst (fst neighbour), snd (fst neighbour))) ns.

(** The loop [for node in newMap.items()] of [importMap].  What
    [addMapNode] returns is discarded; an exception it raised would end the
    loop. *)
Fixpoint import_nodes (parent : option Atlas) (nodes : ServiceMap)
  (_map : option ServiceMap) : MapOutcome :=
  match nodes with
  | [] => mkMapOutcome _map None None
  | node :: rest =>
      let r := addMapNode parent _map (fst node) (neighbour_triples (snd node)) in
      match map_raised r with
      | Some e => mkMapOutcome (map_after r) None (Some e)
      | None => import_nodes parent rest (map_after r)
      end
  end.

(** [importMap]: a first map is taken as it is, a later one is added node by
    node through [addMapNode]. *)
Definition importMap (parent : option Atlas) (_map : option ServiceMap)
  (newMap : ServiceMap) : MapOutcome :=
  match _map with
  | None => mkMapOutcome (Some newMap) None None
  | Some _ => import_nodes parent newMap _map
  end.

(** * Vocabulary of the properties *)

(** The key of an entry: origin, destination, call time. *)
Definition Key : Type := (Coord * Coord * Z)%type.

(** [fare_at] on a key. *)
Definition fare_of (b : FareBoard) (k : Key) : option FareEntry :=
  let '(o, d, t) := k in fare_at b o d t.

(** The entry at [(o, d, t)] is on the board and its [taxi] field is [z]. *)
Definition assigned_to (s : Dispatcher) (o d : Coord) (t : Z) (z : Z) : Prop :=
  exists f, fare_at (_fareBoard s) o d t = Some f /\ taxi f = z.

(** The events of the claim: bids, ticks and payments. *)
Definition bid_tick_or_payment (e : Event) : Prop :=
  match e with
  | FareBid _ _ | RecvPayment _ _ | ClockTick _ _ => True
  | _ => False
  end.

(** The order in which [fareBid] meets the entries of one origin: the
    destination keys as the dictionary yields them and, within a destination,
    the call-time keys as the dictionary yields them. *)
Definition bid_order (bd : DestBucket) : list (Coord * Z) :=
  flat_map
    (fun d =>
       match Dict.get d bd with
       | Some bt => map (pair d) (Dict.keys bt)
       | None => []
       end)
    (Dict.keys bd).

(** The entry under [(d, t)] of an origin bucket already has a taxi. *)
Definition taken (bd : DestBucket) (dt : Coord * Z) : Prop :=
  forall (bt : TimeBucket) f, Dict.get (fst dt) bd = Some bt -> Dict.get (snd dt) bt = Some f ->
               taxi f <> -1.

(** The claim as the specification words it: the bid lands on the first
    unassigned fare of the origin in the enumeration order of the registry,
    call times ascending within a destination (the order [clockTick] walks
    the board in). *)
Definition bid_lands_first_in_sorted_order (s : Dispatcher) (o : Coord)
  (tx : TaxiRef) : Prop :=
  forall pre d t post f,
    filter (fun k : Key => eqb (fst (fst k)) o) (tick_keys (_fareBoard s))
      = pre ++ (o, d, t) :: post ->
    (forall k f', In k pre -> fare_of (_fareBoard s) k = Some f' -> taxi f' <> -1) ->
    fare_at (_fareBoard s) o d t = Some f ->
    taxi f = -1 ->
    exists i,
      fare_at (_fareBoard (state (fareBid s o tx))) o d t = Some (append_bidder i f).

(** Two call-time buckets with the same keys and, key by key, the same
    [taxi] fields. *)
Definition same_taxis (bt bt' : TimeBucket) : Prop :=
  Dict.keys bt = Dict.keys bt'
  /\ forall t, option_map taxi (Dict.get t bt) = option_map taxi (Dict.get t bt').

(** The claim as the specification words it: no taxi occurs twice in the
    bidder list of an entry. *)
Definition bidders_unique (s : Dispatcher) : Prop :=
  forall o d t f, fare_at (_fareBoard s) o d t = Some f -> NoDup (bidders f).

(** Every origin bucket and every destination bucket on the board holds at
    least one entry. *)
Definition no_empty_buckets (b : FareBoard) : Prop :=
  forall o (bd : DestBucket), Dict.get o b = Some bd ->
    bd <> [] /\ forall d (bt : TimeBucket), Dict.get d bd = Some bt -> bt <> [].

(** The travel time the allocation computes for bidder [i] towards
    [fareNode]. *)
Definition bidder_time (W : World) (s : Dispatcher) (fareNode : option Node)
  (i : Z) (v : Q) : Prop :=
  exists bn, bidder_node W s i = Ok bn /\ v = travelTime W bn fareNode.

(** Every bid on the list is the index of a known taxi. *)
Definition valid_bidders (s : Dispatcher) (bs : list Z) : Prop :=
  forall b, In b bs -> 0 <= b /\ exists tx, getitem (_taxis s) b = Ok tx.

(** Bidder [k] holds the minimum of the whole ledger. *)
Definition holds_ledger_minimum (s : Dispatcher) (k : Z) : Prop :=
  exists m, min_Z (Dict.values (fareAmountConstraint s)) = Ok m
            /\ In (k, m) (fareAmountConstraint s).

(** The calls a run makes on the world, in order. *)
Fixpoint run_calls (s : Dispatcher) (es : list Event) : list Parent.Call :=
  match es with
  | [] => []
  | e :: es' => calls (handle s e) ++ run_calls (state (handle s e)) es'
  end.

(** Every ledger entry belongs to the index of a known taxi that the world
    has been told, in [log], to have been allocated a fare. *)
Definition awards_logged (s : Dispatcher) (log : list Parent.Call) : Prop :=
  forall i c, Dict.get i (fareAmountConstraint s) = Some c ->
    0 <= i /\ exists o tx, getitem (_taxis s) i = Ok tx
                           /\ In (Parent.allocateFare o tx) log.

(** Events that neither register nor cancel the key [(o, d, t)]: the entry
    under that key, if any, lives through them. *)
Definition spares (o d : Coord) (t : Z) (e : Event) : Prop :=
  match e with
  | NewFare _ o' d' t' | CancelFare _ o' d' t' | Handover _ o' d' t' _ _ =>
      (o, d, t) <> (o', d', t')
  | _ => True
  end.

(** Every bid of every entry on the board is the index of a known taxi. *)
Definition bids_valid (s : Dispatcher) : Prop :=
  forall o d t f, fare_at (_fareBoard s) o d t = Some f -> valid_bidders s (bidders f).

(** An event that carries a world other than the one the dispatcher is
    bound to.  Bids and [addTaxi] carry no world. *)
Definition foreign (s : Dispatcher) (e : Event) : Prop :=
  match e with
  | NewFare parent _ _ _ | CancelFare parent _ _ _ | RecvPayment parent _
  | ClockTick _ parent | Handover parent _ _ _ _ _ => parent <> _parent s
  | _ => False
  end.

(** A call on the world that only prints a message. *)
Definition is_print (c : Parent.Call) : Prop :=
  match c with
  | Parent.printed _ => True
  | _ => False
  end.

(** The amounts of the payments of a run that come from world [p], in
    order. *)
Definition payments_from (p : WorldRef) (es : list Event) : list Q :=
  flat_map
    (fun e =>
       match e with
       | RecvPayment parent amount => if eqb p parent then [amount] else []
       | _ => []
       end)
    es.

Definition Qsum (l : list Q) : Q := fold_right Qplus 0%Q l.

(** What one visit of the tick can do to the entry it visits: nothing, set
    the price of an unpriced entry to what [_costFare] returns, or set the
    taxi of a priced, unassigned entry. *)
Inductive tick_step (W : World) (f : FareEntry) : FareEntry -> Prop :=
| tick_kept : tick_step W f f
| tick_priced (p : Q) :
    Qeq (price f) 0 -> _costFare W f = Ok p -> tick_step W f (set_price p f)
| tick_allocated (w : Z) :
    ~ Qeq (price f) 0 -> taxi f < 0 -> tick_step W f (set_taxi w f).

(** Every unpriced entry on the board has a price [_costFare] can compute in
    world [W]. *)
Definition prices_computable (W : World) (s : Dispatcher) : Prop :=
  forall o d t f, fare_at (_fareBoard s) o d t = Some f ->
    Qeq (price f) 0 -> exists p, _costFare W f = Ok p.

(** The assigned-taxi field of every entry on the board is the sentinel -1
    or the index of a known taxi. *)
Definition taxi_fields_valid (s : Dispatcher) : Prop :=
  forall o d t f, fare_at (_fareBoard s) o d t = Some f ->
    taxi f = -1 \/ (0 <= taxi f /\ exists tx, getitem (_taxis s) (taxi f) = Ok tx).

(** The number of allocations a log reports to the world, and the number of
    awards a ledger holds. *)
Definition is_award (c : Parent.Call) : bool :=
  match c with
  | Parent.allocateFare _ _ => true
  | _ => false
  end.

Definition awards (log : list Parent.Call) : Z :=
  Z.of_nat (length (filter is_award log)).

Definition ledger_total (c : Dict.t Z Z) : Z :=
  fold_right Z.add 0 (Dict.values c).

(** What the entry under a key can become while it stays on the board: the
    identity fields are fixed, a non-zero price is fixed, an assigned taxi is
    fixed together with the bidder list, and bids are only added at the
    end. *)
Definition evolves (f f' : FareEntry) : Prop :=
  origin f' = origin f /\ destination f' = destination f
  /\ calltime f' = calltime f
  /\ (~ Qeq (price f) 0 -> price f' = price f)
  /\ (0 <= taxi f -> taxi f' = taxi f /\ bidders f' = bidders f)
  /\ exists l, bidders f' = bidders f ++ l.

(** Every entry is filed under its own origin, destination and call time. *)
Definition filed_under_own_key (s : Dispatcher) : Prop :=
  forall o d t f, fare_at (_fareBoard s) o d t = Some f ->
    origin f = o /\ destination f = d /\ calltime f = t.

(** The label of the last triple of [neighbours] that names the coordinates
    [c]. *)
Fixpoint last_neighbour (c : Coord) (neighbours : list (Z * Z * Z)) : option Z :=
  match neighbours with
  | [] => None
  | neighbour :: rest =>
      match last_neighbour c rest with
      | Some l => Some l
      | None =>
          if eqb c (snd (fst neighbour), snd neighbour)
          then Some (fst (fst neighbour)) else None
      end
  end.

(** The neighbour [(label, x, y)] names a node of the world. *)
Definition on_map (P : Atlas) (neighbour : Z * Z * Z) : Prop :=
  getNode (atlas_world P) (snd (fst neighbour)) (snd neighbour) <> None.

(** The neighbour dictionary [nd] holds, for the coordinates named in
    [neighbours] and for no others, the label given last and the distance the
    world measures from [node]. *)
Definition measured (P : Atlas) (node : Node) (neighbours : list (Z * Z * Z))
  (nd : Neighbours) : Prop :=
  forall c,
    match last_neighbour c neighbours with
    | Some l =>
        exists nc, getNode (atlas_world P) (fst c) (snd c) = Some nc
                   /\ Dict.get c nd = Some (l, distance2Node P node nc)
    | None => Dict.get c nd = None
    end.

(** Every value of a dictionary has the property [Pv]. *)
Definition every_value {K V} `{EqDec K} (Pv : V -> Prop) (m : Dict.t K V) : Prop :=
  forall k v, Dict.get k m = Some v -> Pv v.

(** No key occurs twice, at any of the three levels of the board. *)
Definition well_keyed (b : FareBoard) : Prop :=
  NoDup (Dict.keys b)
  /\ every_value
       (fun bd : DestBucket =>
          NoDup (Dict.keys bd)
          /\ every_value (fun bt : TimeBucket => NoDup (Dict.keys bt)) bd)
       b.

(** * Scenarios

    Concrete worlds and dispatcher states, each reached from a new
    dispatcher by a sequence of events, on which the properties below are
    evaluated. *)

(** A world without planned paths in which every taxi sits at (0,0) and the
    node of [(x, y)] is [|x| + |y|]. *)
Definition flat_world : World := {|
  getNode := fun x y => Some (Z.to_nat (Z.abs x + Z.abs y));
  travelTime := fun a b =>
    match a, b with
    | Some m, Some n => inject_Z (Z.abs (Z.of_nat m - Z.of_nat n))
    | _, _ => (-1)%Q
    end;
  currentLocation := fun _ => (0, 0);
  _path := fun _ => [];
  number := fun tx => Z.of_nat tx;
  taxi_revenue := fun _ => 0%Q
|}.

(** A legacy fare handed over to taxi 7 by a previous dispatcher. *)
Definition handed_over : Dispatcher :=
  run (Dispatcher_init 1%nat []) [Handover 1%nat (0, 0) (3, 3) 1 7%nat 25].

(** A state with one ledger entry, reached by pricing a fare, taking taxi 5's
    bid and allocating it. *)
Definition one_award : Dispatcher :=
  run (Dispatcher_init 1%nat [5%nat])
    [NewFare 1%nat (0, 0) (3, 3) 1; ClockTick flat_world 1%nat;
     FareBid (0, 0) 5%nat; ClockTick flat_world 1%nat].

(** Two fares for the same origin and destination, the later call time
    registered first; taxi 5 is known. *)
Definition late_then_early : Dispatcher :=
  run (Dispatcher_init 1%nat [5%nat])
    [NewFare 1%nat (0, 0) (3, 3) 5; NewFare 1%nat (0, 0) (3, 3) 3].

(** One fare, one known taxi, the same bid made twice. *)
Definition bid_once : Dispatcher :=
  run (Dispatcher_init 1%nat [5%nat])
    [NewFare 1%nat (0, 0) (3, 3) 1; FareBid (0, 0) 5%nat].

(** A fare registered with a dispatcher that knows no taxi. *)
Definition no_taxi_one_fare : Dispatcher :=
  run (Dispatcher_init 1%nat []) [NewFare 1%nat (0, 0) (3, 3) 1].

(** The same fare registered with a dispatcher that knows taxis 5 and 6. *)
Definition two_taxis_one_fare : Dispatcher :=
  run (Dispatcher_init 1%nat [5%nat; 6%nat]) [NewFare 1%nat (0, 0) (3, 3) 1].

(** A world in which the ride from (0,0) to (3,3) is estimated at a tenth of
    a time unit. *)
Definition quick_world : World := {|
  getNode := fun x y => Some (Z.to_nat (Z.abs x + Z.abs y));
  travelTime := fun _ _ => (1 # 10)%Q;
  currentLocation := fun _ => (0, 0);
  _path := fun _ => [];
  number := fun tx => Z.of_nat tx;
  taxi_revenue := fun _ => 0%Q
|}.

(** A world laid out on a line: the node of [(x, 0)] is [x], there is no
    node off the line, and the travel time between two nodes is their
    distance.  Asked about a missing node, [travelTime] answers [-1], the
    non-positive estimate that [_costFare] prices at the flat 150. *)
Definition line_world (loc : TaxiRef -> Z) (path : TaxiRef -> list Coord) : World := {|
  getNode := fun x y => if (y =? 0) && (0 <=? x) then Some (Z.to_nat x) else None;
  travelTime := fun a b =>
    match a, b with
    | Some m, Some n => inject_Z (Z.abs (Z.of_nat m - Z.of_nat n))
    | _, _ => (-1)%Q
    end;
  currentLocation := fun tx => (loc tx, 0);
  _path := path;
  number := fun tx => Z.of_nat tx;
  taxi_revenue := fun _ => 0%Q
|}.

(** Nobody is moving: every taxi sits at 0 with an empty path. *)
Definition idle_world : World := line_world (fun _ => 0) (fun _ => []).

(** One round of the protocol that ends with [tx] holding a fare and one
    more award: a fare appears at [(x, 0)], a tick prices it, [tx] bids, the
    next tick allocates it. *)
Definition award_round (x : Z) (tx : TaxiRef) : list Event :=
  [NewFare 1%nat (x, 0) (x + 3, 0) 0; ClockTick idle_world 1%nat;
   FareBid (x, 0) tx; ClockTick idle_world 1%nat].

(** Taxi 5 is the only taxi and the only bidder on the fare from (2,0) to
    (5,0); the fare has been priced. *)
Definition one_bid : Dispatcher :=
  run (Dispatcher_init 1%nat [5%nat])
    [NewFare 1%nat (2, 0) (5, 0) 1; ClockTick idle_world 1%nat;
     FareBid (2, 0) 5%nat].

(** Taxi 5 is at (0,0), two time units from the origin of the fare, and its
    planned path has two stops and ends at that origin. *)
Definition heading_to_origin : World :=
  line_world (fun _ => 0) (fun _ => [(1, 0); (2, 0)]).

(** Taxis 5, 6 and 7 are known.  Taxi 7 (index 2) has been awarded a fare;
    taxis 5 and 6 (indices 0 and 1) never have.  All three have bid on the
    priced fare from (10,0) to (13,0). *)
Definition three_bids : Dispatcher :=
  run (Dispatcher_init 1%nat [5%nat; 6%nat; 7%nat])
    (award_round 20 7%nat ++
     [NewFare 1%nat (10, 0) (13, 0) 1; ClockTick idle_world 1%nat;
      FareBid (10, 0) 5%nat; FareBid (10, 0) 6%nat; FareBid (10, 0) 7%nat]).

(** Taxi 5 is five time units from the origin, taxi 6 two, taxi 7 one. *)
Definition three_bids_loc (tx : TaxiRef) : Z :=
  match tx with 5%nat => 5 | 6%nat => 8 | _ => 9 end.

(** Nobody has a planned path. *)
Definition three_bids_calm : World := line_world three_bids_loc (fun _ => []).

(** Taxi 6 has planned the two stops that take it to the origin. *)
Definition three_bids_moving : World :=
  line_world three_bids_loc
    (fun tx => match tx with 6%nat => [(9, 0); (10, 0)] | _ => [] end).

(** Taxis 5, 6, 7 and 8 (indices 0 to 3) have been awarded 2, 2, 3 and 1
    fares.  Taxis 5, 6 and 7 have bid on the priced fare from (10,0) to
    (13,0); taxi 8, which holds the minimum of the ledger, has not. *)
Definition veteran_bids : Dispatcher :=
  run (Dispatcher_init 1%nat [5%nat; 6%nat; 7%nat; 8%nat])
    (award_round 20 5%nat ++ award_round 30 5%nat ++
     award_round 40 6%nat ++ award_round 50 6%nat ++
     award_round 60 7%nat ++ award_round 70 7%nat ++ award_round 80 7%nat ++
     award_round 90 8%nat ++
     [NewFare 1%nat (10, 0) (13, 0) 1; ClockTick idle_world 1%nat;
      FareBid (10, 0) 5%nat; FareBid (10, 0) 6%nat; FareBid (10, 0) 7%nat]).

(** Taxi 5 is five time units from the origin, taxi 6 six, taxi 7 one; no
    taxi has a planned path. *)
Definition veteran_bids_loc (tx : TaxiRef) : Z :=
  match tx with 5%nat => 5 | 6%nat => 4 | 7%nat => 9 | _ => 0 end.

(** The world of [veteran_bids] at the time of the allocation. *)
Definition veteran_bids_world : World := line_world veteran_bids_loc (fun _ => []).

(** A dispatcher that knows taxis 5 and 6 and holds one priced fare. *)
Definition busy_board : Dispatcher :=
  run (Dispatcher_init 1%nat [5%nat; 6%nat])
    [NewFare 1%nat (0, 0) (3, 0) 1; ClockTick idle_world 1%nat].


(** The line world with the distance between two of its nodes. *)
Definition line_atlas : Atlas := {|
  atlas_world := idle_world;
  distance2Node := fun a b => inject_Z (Z.abs (Z.of_nat a - Z.of_nat b))
|}.

(** A map of the stops 0 and 4 of the line, and a map to import: stop 2 with
    its neighbours 0 and 4 at distances that are not the world's, and a stop
    off the line. *)
Definition two_stops : ServiceMap :=
  [((0, 0), [((4, 0), (1, 4%Q))]); ((4, 0), [((0, 0), (1, 4%Q))])].

Definition more_stops : ServiceMap :=
  [((2, 0), [((0, 0), (8, 10%Q)); ((4, 0), (9, 10%Q))]);
   ((2, 2), [((2, 0), (3, 2%Q))])].
(** * Properties *)

(** ** Equality tests *)

#[export] Instance EqDecLaws_Z : EqDecLaws Z.
Proof. constructor. exact Z.eqb_eq. Qed.

#[export] Instance EqDecLaws_nat : EqDecLaws nat.
Proof. constructor. exact Nat.eqb_eq. Qed.

#[export] Instance EqDecLaws_pair {A B} `{EqDecLaws A} `{EqDecLaws B} :
  EqDecLaws (A * B).
Proof.
  constructor. intros [a b] [a' b']. unfold eqb; simpl. unfold pair_eqb; simpl.
  rewrite andb_true_iff, !eqb_eq. split.
  - intros [-> ->]; reflexivity.
  - intros E; inversion E; auto.
Qed.

Lemma eqb_refl {K} `{EqDecLaws K} (x : K) : eqb x x = true.
Proof. apply eqb_eq; reflexivity. Qed.

Lemma eqb_neq {K} `{EqDecLaws K} (x y : K) : eqb x y = false <-> x <> y.
Proof.
  split.
  - intros E ->. rewrite eqb_refl in E. discriminate.
  - intros N. destruct (eqb x y) eqn:E; [|reflexivity].
    apply eqb_eq in E. contradiction.
Qed.

(** ** Dictionary facts *)

Module DictFacts.
Section Facts.
Context {K V : Type} `{EqDecLaws K}.
Implicit Types (k : K) (v : V) (m : Dict.t K V).

Lemma get_set_eq k v m : Dict.get k (Dict.set k v m) = Some v.
Proof.
  induction m as [|[k' v'] m IH]; simpl.
  - rewrite eqb_refl; reflexivity.
  - destruct (eqb k k') eqn:E; simpl.
    + rewrite eqb_refl; reflexivity.
    + rewrite E; exact IH.
Qed.

Lemma get_set_neq k k' v m : k' <> k -> Dict.get k' (Dict.set k v m) = Dict.get k' m.
Proof.
  intros N. induction m as [|[k0 v0] m IH]; simpl.
  - apply eqb_neq in N. rewrite N; reflexivity.
  - destruct (eqb k k0) eqn:E; simpl.
    + apply eqb_eq in E; subst k0.
      apply eqb_neq in N. rewrite N; reflexivity.
    + destruct (eqb k' k0); [reflexivity | exact IH].
Qed.

Lemma get_del_eq k m : Dict.get k (Dict.del k m) = None.
Proof.
  induction m as [|[k0 v0] m IH]; simpl; [reflexivity|].
  destruct (eqb k k0) eqn:E; simpl; [exact IH|].
  rewrite E; exact IH.
Qed.

Lemma get_del_neq k k' m : k' <> k -> Dict.get k' (Dict.del k m) = Dict.get k' m.
Proof.
  intros N. induction m as [|[k0 v0] m IH]; simpl; [reflexivity|].
  destruct (eqb k k0) eqn:E; simpl.
  - apply eqb_eq in E; subst k0.
    apply eqb_neq in N. rewrite N. exact IH.
  - destruct (eqb k' k0); [reflexivity | exact IH].
Qed.

Lemma del_absent k m : Dict.get k m = None -> Dict.del k m = m.
Proof.
  induction m as [|[k0 v0] m IH]; simpl; [reflexivity|].
  destruct (eqb k k0) eqn:E; [discriminate|].
  intros G; simpl. rewrite (IH G); reflexivity.
Qed.

Lemma get_In k v m : Dict.get k m = Some v -> In (k, v) m.
Proof.
  induction m as [|[k0 v0] m IH]; simpl; [discriminate|].
  destruct (eqb k k0) eqn:E.
  - apply eqb_eq in E; subst k0. intros [= ->]; left; reflexivity.
  - intros G; right; exact (IH G).
Qed.

Lemma get_in_keys k v m : Dict.get k m = Some v -> In k (Dict.keys m).
Proof.
  intros G. apply get_In in G. unfold Dict.keys.
  change k with (fst (k, v)). apply in_map; exact G.
Qed.

Lemma in_keys_get k m : In k (Dict.keys m) -> exists v, Dict.get k m = Some v.
Proof.
  induction m as [|[k0 v0] m IH]; simpl; [tauto|].
  intros [E | I].
  - subst k0. rewrite eqb_refl. eauto.
  - destruct (eqb k k0); eauto.
Qed.

Lemma keys_set_present k v v0 m :
  Dict.get k m = Some v0 -> Dict.keys (Dict.set k v m) = Dict.keys m.
Proof.
  induction m as [|[k1 v1] m IH]; simpl; [discriminate|].
  destruct (eqb k k1) eqn:E; simpl.
  - apply eqb_eq in E; subst k1; reflexivity.
  - intros G; rewrite (IH G); reflexivity.
Qed.

Lemma keys_set_absent k v m :
  Dict.get k m = None -> Dict.keys (Dict.set k v m) = Dict.keys m ++ [k].
Proof.
  induction m as [|[k1 v1] m IH]; simpl; [reflexivity|].
  destruct (eqb k k1) eqn:E; simpl; [discriminate|].
  intros G; rewrite (IH G); reflexivity.
Qed.

Lemma set_same k v m : Dict.get k m = Some v -> Dict.set k v m = m.
Proof.
  induction m as [|[k1 v1] m IH]; simpl; [discriminate|].
  destruct (eqb k k1) eqn:E.
  - apply eqb_eq in E; subst k1. intros [= ->]; reflexivity.
  - intros G; rewrite (IH G); reflexivity.
Qed.

Lemma set_nonempty k v m : Dict.set k v m <> [].
Proof. destruct m as [|[k1 v1] m]; simpl; [|destruct (eqb k k1)]; discriminate. Qed.

Lemma get_some_nonempty k v m : Dict.get k m = Some v -> m <> [].
Proof. destruct m; simpl; [discriminate | discriminate]. Qed.

Lemma mem_true k m : Dict.mem k m = true <-> exists v, Dict.get k m = Some v.
Proof.
  unfold Dict.mem. destruct (Dict.get k m) as [v0|]; split; intros E;
    eauto; try discriminate.
  destruct E as [v E]; discriminate.
Qed.

Lemma mem_false k m : Dict.mem k m = false <-> Dict.get k m = None.
Proof.
  unfold Dict.mem. destruct (Dict.get k m); split; auto; discriminate.
Qed.

End Facts.
End DictFacts.

Import DictFacts.

(** ** The fare board *)

Lemma fare_at_update_same g o d t b f :
  fare_at b o d t = Some f ->
  fare_at (update_fare g o d t b) o d t = Some (g f).
Proof.
  unfold fare_at, update_fare.
  destruct (Dict.get o b) as [bd|] eqn:Eo; [|discriminate].
  destruct (Dict.get d bd) as [bt|] eqn:Ed; [|discriminate].
  intros Et; rewrite Et.
  rewrite !get_set_eq. reflexivity.
Qed.

Lemma fare_at_update_other g o d t b o' d' t' :
  (o', d', t') <> (o, d, t) ->
  fare_at (update_fare g o d t b) o' d' t' = fare_at b o' d' t'.
Proof.
  intros N. unfold fare_at, update_fare.
  destruct (Dict.get o b) as [bd|] eqn:Eo; [|reflexivity].
  destruct (Dict.get d bd) as [bt|] eqn:Ed; [|reflexivity].
  destruct (Dict.get t bt) as [f|] eqn:Et; [|reflexivity].
  destruct (eqb o' o) eqn:Co.
  - apply eqb_eq in Co; subst o'. rewrite get_set_eq, Eo.
    destruct (eqb d' d) eqn:Cd.
    + apply eqb_eq in Cd; subst d'. rewrite get_set_eq, Ed.
      rewrite get_set_neq; [reflexivity|]. congruence.
    + apply eqb_neq in Cd. rewrite get_set_neq by exact Cd. reflexivity.
  - apply eqb_neq in Co. rewrite get_set_neq by exact Co. reflexivity.
Qed.

Lemma fare_at_update_absent g o d t b :
  fare_at b o d t = None -> update_fare g o d t b = b.
Proof.
  unfold fare_at, update_fare.
  destruct (Dict.get o b) as [bd|]; [|reflexivity].
  destruct (Dict.get d bd) as [bt|]; [|reflexivity].
  intros ->; reflexivity.
Qed.

(** An attribute assignment that leaves [taxi] alone leaves every entry's
    [taxi] alone. *)
Lemma fare_at_update_taxi g o d t b o' d' t' f :
  (forall x, taxi (g x) = taxi x) ->
  fare_at b o' d' t' = Some f ->
  exists f', fare_at (update_fare g o d t b) o' d' t' = Some f' /\ taxi f' = taxi f.
Proof.
  intros Hg Hf.
  destruct (eqb (o', d', t') (o, d, t)) eqn:E.
  - apply eqb_eq in E. injection E as -> -> ->.
    exists (g f). rewrite (fare_at_update_same g _ _ _ _ Hf). auto.
  - apply eqb_neq in E. exists f.
    rewrite (fare_at_update_other g b E). auto.
Qed.

(** Attribute assignments keep the keys of the board. *)
Lemma update_fare_keys g o d t b : Dict.keys (update_fare g o d t b) = Dict.keys b.
Proof.
  unfold update_fare.
  destruct (Dict.get o b) as [bd|] eqn:Eo; [|reflexivity].
  destruct (Dict.get d bd) as [bt|] eqn:Ed; [|reflexivity].
  destruct (Dict.get t bt) as [f|] eqn:Et; [|reflexivity].
  exact (keys_set_present _ _ _ Eo).
Qed.

Lemma update_fare_length g o d t b : length (update_fare g o d t b) = length b.
Proof.
  rewrite <- (length_map fst (update_fare g o d t b)), <- (length_map fst b).
  exact (f_equal (@length _) (update_fare_keys g o d t b)).
Qed.

(** ** Once assigned, a fare stays with its taxi *)

Lemma assigned_update g s o d t z o' d' t' :
  (forall x, taxi (g x) = taxi x) ->
  assigned_to s o d t z ->
  assigned_to (with_fareBoard (update_fare g o' d' t' (_fareBoard s)) s) o d t z.
Proof.
  intros Hg [f [Hf Hz]].
  destruct (fare_at_update_taxi g o' d' t' _ _ _ _ Hg Hf) as [f' [Hf' Ht]].
  exists f'; simpl; split; [exact Hf' | congruence].
Qed.

Lemma fareBid_keeps_taxi s o' tx o d t z :
  assigned_to s o d t z -> assigned_to (state (fareBid s o' tx)) o d t z.
Proof.
  intros A. unfold fareBid.
  destruct (contains tx (_taxis s)); [|exact A].
  destruct (Dict.get o' (_fareBoard s)) as [bd|]; [|exact A].
  destruct (first_open bd (Dict.keys bd)) as [[d' t']|]; [|exact A].
  destruct (index tx (_taxis s)) as [i|e]; [|exact A].
  simpl. apply assigned_update; [reflexivity | exact A].
Qed.

Lemma recvPayment_keeps_taxi s parent amount o d t z :
  assigned_to s o d t z -> assigned_to (state (recvPayment s parent amount)) o d t z.
Proof.
  intros A. unfold recvPayment. destruct (eqb (_parent s) parent); exact A.
Qed.

(** The commit writes the [taxi] field of the entry it was called for, and
    of no other. *)
Lemma commit_fare_other s o' d' t' a o d t z :
  (o, d, t) <> (o', d', t') ->
  assigned_to s o d t z ->
  assigned_to (state (commit_fare s o' d' t' a)) o d t z.
Proof.
  intros N [f [Hf Hz]]. unfold commit_fare.
  destruct (0 <=? a); [|exists f; auto].
  assert (A1 : fare_at (update_fare (set_taxi a) o' d' t' (_fareBoard s)) o d t = Some f)
    by (rewrite fare_at_update_other; assumption).
  destruct (getitem _ a) as [tx|e]; simpl; exists f; auto.
Qed.

Lemma allocateFare_other W s o' d' t' o d t z :
  (o, d, t) <> (o', d', t') ->
  assigned_to s o d t z ->
  assigned_to (state (_allocateFare W s o' d' t')) o d t z.
Proof.
  intros N A. unfold _allocateFare.
  destruct (fare_at (_fareBoard s) o' d' t') as [fare|]; [|exact A].
  destruct (_ && _); [|exact A].
  destruct (getNode W (fst o') (snd o')); [|exact A].
  destruct (bind _ _) as [a|e]; [|exact A].
  apply commit_fare_other; assumption.
Qed.

Lemma tick_fare_keeps_taxi W s k o d t z :
  0 <= z ->
  assigned_to s o d t z -> assigned_to (state (tick_fare W s k)) o d t z.
Proof.
  intros Hz A. destruct k as [[o' d'] t']. unfold tick_fare.
  destruct (fare_at (_fareBoard s) o' d' t') as [fare|] eqn:Hfare; [|exact A].
  destruct (Qeq_bool (price fare) 0).
  - destruct (_costFare W fare) as [p|e]; [|exact A].
    simpl. apply assigned_update; [reflexivity | exact A].
  - destruct ((taxi fare <? 0) && _) eqn:G; [|exact A].
    apply andb_true_iff in G. destruct G as [G _]. apply Z.ltb_lt in G.
    apply allocateFare_other; [|exact A].
    intros E. injection E as -> -> ->.
    destruct A as [f [Hf Ht]]. rewrite Hf in Hfare. injection Hfare as ->. lia.
Qed.

Lemma tick_loop_keeps_taxi W ks : forall s cs o d t z,
  0 <= z ->
  assigned_to s o d t z -> assigned_to (state (tick_loop W ks s cs)) o d t z.
Proof.
  induction ks as [|k ks IH]; intros s cs o d t z Hz A; simpl; [exact A|].
  pose proof (tick_fare_keeps_taxi W k Hz A) as A1.
  destruct (raised (tick_fare W s k)); [exact A1|].
  apply IH; assumption.
Qed.

Lemma clockTick_keeps_taxi W s parent o d t z :
  0 <= z ->
  assigned_to s o d t z -> assigned_to (state (clockTick W s parent)) o d t z.
Proof.
  intros Hz A. unfold clockTick.
  destruct (eqb (_parent s) parent); [|exact A].
  apply tick_loop_keeps_taxi; assumption.
Qed.

Lemma handle_keeps_taxi s e o d t z :
  bid_tick_or_payment e -> 0 <= z ->
  assigned_to s o d t z -> assigned_to (state (handle s e)) o d t z.
Proof.
  intros He Hz A. destruct e; simpl in He; try contradiction; simpl.
  - apply fareBid_keeps_taxi; exact A.
  - apply recvPayment_keeps_taxi; exact A.
  - apply clockTick_keeps_taxi; assumption.
Qed.

(** C5. Once the assigned-taxi field of a fare entry holds a non-negative
    value [taxi f], no sequence of bids, clock ticks and payments changes it:
    after the whole sequence the entry is still on the board under the same
    key and its assigned-taxi field still holds [taxi f] (so it has neither
    moved to another taxi nor gone back to [-1]).  The statement covers every
    prefix of the sequence, since a prefix is itself such a sequence, and
    ticks that end in an exception. *)
Theorem assigned_taxi_never_changes (s : Dispatcher) (es : list Event)
  (o d : Coord) (t : Z) (f : FareEntry) :
  fare_at (_fareBoard s) o d t = Some f ->
  0 <= taxi f ->
  Forall bid_tick_or_payment es ->
  exists f', fare_at (_fareBoard (run s es)) o d t = Some f' /\ taxi f' = taxi f.
Proof.
  intros Hf Hz Hes.
  assert (A : assigned_to s o d t (taxi f)) by (exists f; auto).
  clear Hf. revert s A.
  induction Hes as [|e es He Hes IH]; intros s A; simpl.
  - exact A.
  - apply IH. apply handle_keeps_taxi; assumption.
Qed.

Lemma assigned_taxi_never_changes_witness :
  exists f',
    fare_at (_fareBoard (run handed_over
                           [FareBid (0, 0) 7%nat; ClockTick flat_world 1%nat;
                            RecvPayment 1%nat 25]))
      (0, 0) (3, 3) 1 = Some f'
    /\ taxi f' = 0.
Proof.
  apply (@assigned_taxi_never_changes handed_over
           [FareBid (0, 0) 7%nat; ClockTick flat_world 1%nat; RecvPayment 1%nat 25]
           (0, 0) (3, 3) 1 (mkFareEntry (0, 0) (3, 3) 1 25 0 [])).
  - reflexivity.
  - simpl; lia.
  - repeat constructor.
Defined.

(** ** List primitives *)

Lemma index_from_spec {A} `{EqDecLaws A} (x : A) (l : list A) : forall k i,
  index_from x l k = Ok i ->
  k <= i < k + Z.of_nat (length l) /\ nth_error l (Z.to_nat (i - k)) = Some x.
Proof.
  induction l as [|y l IH]; intros k i; simpl; [discriminate|].
  destruct (eqb x y) eqn:E.
  - apply eqb_eq in E; subst y. intros [= ->].
    rewrite Z.sub_diag. simpl. split; [lia | reflexivity].
  - intros Hi. apply IH in Hi. destruct Hi as [Hr Hn]. split; [lia|].
    replace (Z.to_nat (i - k)) with (S (Z.to_nat (i - (k + 1)))) by lia.
    exact Hn.
Qed.

Lemma contains_index_from {A} `{EqDecLaws A} (x : A) (l : list A) : forall k,
  contains x l = true -> exists i, index_from x l k = Ok i.
Proof.
  induction l as [|y l IH]; intros k; simpl; [discriminate|].
  destruct (eqb x y); simpl; eauto.
Qed.

Lemma getitem_nonneg {A} (l : list A) (i : Z) (a : A) :
  0 <= i -> nth_error l (Z.to_nat i) = Some a -> getitem l i = Ok a.
Proof.
  intros Hi Hn. unfold getitem.
  assert (Hlt : (Z.to_nat i < length l)%nat)
    by (apply nth_error_Some; rewrite Hn; discriminate).
  destruct (i <? 0) eqn:E; [apply Z.ltb_lt in E; lia|].
  replace (0 <=? i) with true by (symmetry; apply Z.leb_le; lia).
  replace (i <? Z.of_nat (length l)) with true by (symmetry; apply Z.ltb_lt; lia).
  simpl. rewrite Hn. reflexivity.
Qed.

(** [x in l] makes [l.index(x)] a valid position of [x]. *)
Lemma contains_index {A} `{EqDecLaws A} (x : A) (l : list A) :
  contains x l = true ->
  exists i, index x l = Ok i /\ 0 <= i < Z.of_nat (length l) /\ getitem l i = Ok x.
Proof.
  intros C. destruct (contains_index_from x l 0 C) as [i Hi].
  exists i. split; [exact Hi|].
  apply index_from_spec in Hi. destruct Hi as [Hr Hn].
  split; [lia|]. apply getitem_nonneg; [lia|].
  rewrite Z.sub_0_r in Hn. exact Hn.
Qed.

Lemma contains_app_r {A} `{EqDecLaws A} (x : A) (l : list A) :
  contains x (l ++ [x]) = true.
Proof.
  unfold contains. rewrite existsb_app. simpl. rewrite eqb_refl.
  rewrite orb_true_r. reflexivity.
Qed.

Lemma getitem_Ok_length {A} (l : list A) (i : Z) (a : A) :
  getitem l i = Ok a -> (0 < length l)%nat.
Proof.
  unfold getitem. destruct l as [|x l]; [|simpl; lia].
  cbn [length Z.of_nat].
  destruct ((0 <=? (if i <? 0 then i + 0 else i)) && ((if i <? 0 then i + 0 else i) <? 0));
    [|discriminate].
  destruct (Z.to_nat (if i <? 0 then i + 0 else i)); discriminate.
Qed.

(** ** Registering a fare *)

Lemma fare_at_insert_same o d t f b :
  fare_at (board_insert o d t f b) o d t = Some f.
Proof.
  unfold fare_at, board_insert.
  destruct (Dict.get o b) as [bd|] eqn:Eo.
  - destruct (Dict.get d bd) as [bt|] eqn:Ed; rewrite !get_set_eq; reflexivity.
  - rewrite !get_set_eq; reflexivity.
Qed.

Lemma fare_at_insert_other o d t f b o' d' t' :
  (o', d', t') <> (o, d, t) ->
  fare_at (board_insert o d t f b) o' d' t' = fare_at b o' d' t'.
Proof.
  intros N. unfold fare_at, board_insert.
  destruct (eqb o' o) eqn:Co.
  - apply eqb_eq in Co; subst o'.
    destruct (Dict.get o b) as [bd|] eqn:Eo.
    + destruct (eqb d' d) eqn:Cd.
      * apply eqb_eq in Cd; subst d'.
        assert (Nt : t' <> t) by congruence.
        destruct (Dict.get d bd) as [bt|] eqn:Ed;
          rewrite !get_set_eq, get_set_neq by exact Nt; [reflexivity|].
        reflexivity.
      * apply eqb_neq in Cd.
        destruct (Dict.get d bd) as [bt|] eqn:Ed;
          rewrite get_set_eq, get_set_neq by exact Cd; reflexivity.
    + rewrite get_set_eq.
      destruct (eqb d' d) eqn:Cd.
      * apply eqb_eq in Cd; subst d'.
        assert (Nt : t' <> t) by congruence.
        rewrite get_set_eq, get_set_neq by exact Nt. reflexivity.
      * apply eqb_neq in Cd. rewrite get_set_neq by exact Cd. reflexivity.
  - apply eqb_neq in Co.
    destruct (Dict.get o b) as [bd|] eqn:Eo.
    + destruct (Dict.get d bd); rewrite get_set_neq by exact Co; reflexivity.
    + rewrite get_set_neq by exact Co. reflexivity.
Qed.

(** ** Handover and the fairness ledger *)

(** Where [split_bidders] files a bidder depends on the ledger alone: a
    bidder without a ledger entry goes to [initialFares] and stays out of
    [constraintFares]. *)
Lemma split_bidders_first_timer W s fareNode (i : Z) : forall bs ini0 con0 ini con,
  Dict.mem i (fareAmountConstraint s) = false ->
  split_bidders W s fareNode bs ini0 con0 = Ok (ini, con) ->
  (In i bs \/ Dict.mem i ini0 = true) ->
  Dict.mem i con0 = false ->
  Dict.mem i ini = true /\ Dict.mem i con = false.
Proof.
  induction bs as [|b bs IH]; intros ini0 con0 ini con Hi Hs Hin Hcon; simpl in Hs.
  - injection Hs as <- <-. destruct Hin as [[]|Hin]; auto.
  - destruct (bidder_node W s b) as [bn|e]; simpl in Hs; [|discriminate].
    destruct (Dict.mem b (fareAmountConstraint s)) eqn:Hb.
    + apply (IH _ _ _ _ Hi Hs).
      * destruct Hin as [[E|Hin]|Hin]; auto.
        subst b. congruence.
      * apply mem_false. rewrite get_set_neq; [apply mem_false; exact Hcon|].
        intros E; subst b. congruence.
    + apply (IH _ _ _ _ Hi Hs); [|exact Hcon].
      destruct (eqb i b) eqn:E.
      * apply eqb_eq in E; subst b. right.
        apply mem_true. eexists. apply get_set_eq.
      * apply eqb_neq in E. destruct Hin as [[E'|Hin]|Hin].
        -- congruence.
        -- left; exact Hin.
        -- right. apply mem_true. apply mem_true in Hin. destruct Hin as [v Hv].
           exists v. rewrite get_set_neq; assumption.
Qed.

Lemma newFare_bound s o d t :
  newFare s (_parent s) o d t =
  returns (with_fareBoard
             (board_insert o d t (FareEntry_init o d t) (_fareBoard s)) s) [].
Proof. unfold newFare. rewrite eqb_refl. reflexivity. Qed.

Lemma handover_unbound s parent o d t tx p :
  _parent s <> parent -> handover s parent o d t tx p = returns s [].
Proof.
  intros N. unfold handover. apply eqb_neq in N. rewrite N. reflexivity.
Qed.

(** What a handover from the bound world leaves behind. *)
Lemma handover_bound s o d t tx p :
  exists i,
    index tx (if contains tx (_taxis s) then _taxis s else _taxis s ++ [tx]) = Ok i
    /\ handover s (_parent s) o d t tx p =
       returns
         (mkDispatcher (_parent s) (_revenue s)
            (if contains tx (_taxis s) then _taxis s else _taxis s ++ [tx])
            (update_fare (set_price p) o d t
               (update_fare (set_taxi i) o d t
                  (board_insert o d t (FareEntry_init o d t) (_fareBoard s))))
            (fareAmountConstraint s))
         [].
Proof.
  unfold handover. rewrite eqb_refl.
  destruct (contains tx (_taxis s)) eqn:C.
  - rewrite (newFare_bound s). simpl.
    destruct (contains_index tx (_taxis s) C) as [i [Hi _]].
    exists i. rewrite Hi. split; reflexivity.
  - rewrite (newFare_bound (with_taxis (_taxis s ++ [tx]) s) o d t
               : newFare _ (_parent s) o d t = _).
    simpl.
    destruct (contains_index tx (_taxis s ++ [tx]) (contains_app_r tx (_taxis s)))
      as [i [Hi _]].
    exists i. rewrite Hi. split; reflexivity.
Qed.

(** C10. A handover call leaves the fairness ledger
    [fareAmountConstraint] exactly as it was, whatever world it comes from.
    When it comes from the bound world it returns normally, the handed-over
    fare is on the board with its price and with its assigned-taxi field set
    to the index [i] of the taxi, and, the ledger being untouched, a taxi
    that had no ledger entry before the handover is filed under
    [initialFares] (the first-timers) and not under [constraintFares] by the
    bidder split of every later multi-bidder allocation it bids in. *)
Theorem handover_leaves_ledger (s : Dispatcher) (parent : WorldRef)
  (o d : Coord) (t : Z) (tx : TaxiRef) (p : Q) :
  let r := handover s parent o d t tx p in
  fareAmountConstraint (state r) = fareAmountConstraint s
  /\ (parent = _parent s ->
      raised r = None
      /\ exists i,
           index tx (_taxis (state r)) = Ok i
           /\ fare_at (_fareBoard (state r)) o d t = Some (mkFareEntry o d t p i [])
           /\ (Dict.mem i (fareAmountConstraint s) = false ->
               forall W fareNode bs initialFares constraintFares,
                 In i bs ->
                 split_bidders W (state r) fareNode bs [] [] =
                   Ok (initialFares, constraintFares) ->
                 Dict.mem i initialFares = true
                 /\ Dict.mem i constraintFares = false)).
Proof.
  intros r. subst r. split.
  - destruct (eqb (_parent s) parent) eqn:E.
    + apply eqb_eq in E; subst parent.
      destruct (handover_bound s o d t tx p) as [i [_ ->]]. reflexivity.
    + apply eqb_neq in E. rewrite (handover_unbound s o d t tx p E). reflexivity.
  - intros ->.
    destruct (handover_bound s o d t tx p) as [i [Hi ->]]. simpl.
    split; [reflexivity|]. exists i. split; [exact Hi|]. split.
    + rewrite (@fare_at_update_same (set_price p) o d t _
                 (set_taxi i (FareEntry_init o d t))); [reflexivity|].
      apply fare_at_update_same. apply fare_at_insert_same.
    + intros Hm W fareNode bs ini con Hin Hs.
      eapply split_bidders_first_timer;
        [ | exact Hs | left; exact Hin | reflexivity ].
      exact Hm.
Qed.

Lemma handover_leaves_ledger_witness :
  fareAmountConstraint (state (handover one_award 1%nat (2, 2) (4, 4) 0 7%nat 25))
  = [(0, 1)]
  /\ raised (handover one_award 1%nat (2, 2) (4, 4) 0 7%nat 25) = None
  /\ forall initialFares constraintFares,
       split_bidders flat_world
         (state (handover one_award 1%nat (2, 2) (4, 4) 0 7%nat 25))
         (Some 0%nat) [0; 1] [] [] = Ok (initialFares, constraintFares) ->
       Dict.mem 1 initialFares = true /\ Dict.mem 1 constraintFares = false.
Proof.
  destruct (handover_leaves_ledger one_award 1%nat (2, 2) (4, 4) 0 7%nat 25)
    as [L B].
  destruct (B eq_refl) as [R [i [Hi [Hf Hc]]]].
  assert (E : i = 1) by (vm_compute in Hi; congruence).
  subst i.
  split; [exact L|]. split; [exact R|].
  intros ini con Hs.
  apply (Hc eq_refl flat_world (Some 0%nat) [0; 1] ini con);
    [right; left; reflexivity | exact Hs].
Defined.

(** ** Bids *)

Lemma first_open_time_some (bt : TimeBucket) : forall ts t,
  first_open_time bt ts = Some t ->
  exists pre post f,
    ts = pre ++ t :: post /\ Dict.get t bt = Some f /\ taxi f = -1
    /\ forall t' f', In t' pre -> Dict.get t' bt = Some f' -> taxi f' <> -1.
Proof.
  induction ts as [|t0 ts IH]; intros t; simpl; [discriminate|].
  destruct (Dict.get t0 bt) as [f0|] eqn:G.
  - destruct (taxi f0 =? -1) eqn:E.
    + intros [= <-]. apply Z.eqb_eq in E.
      exists [], ts, f0. simpl. repeat split; auto; intros ? ? [].
    + intros H. destruct (IH _ H) as [pre [post [f [-> [Hg [Ht Hp]]]]]].
      exists (t0 :: pre), post, f. repeat split; auto.
      intros t' f' [<-|I] G'; [|eauto].
      rewrite G in G'. injection G' as <-. apply Z.eqb_neq; exact E.
  - intros H. destruct (IH _ H) as [pre [post [f [-> [Hg [Ht Hp]]]]]].
    exists (t0 :: pre), post, f. repeat split; auto.
    intros t' f' [<-|I] G'; [congruence | eauto].
Qed.

Lemma first_open_time_none (bt : TimeBucket) : forall ts,
  first_open_time bt ts = None ->
  forall t f, In t ts -> Dict.get t bt = Some f -> taxi f <> -1.
Proof.
  induction ts as [|t0 ts IH]; simpl; intros H t f; [intros []|].
  destruct (Dict.get t0 bt) as [f0|] eqn:G.
  - destruct (taxi f0 =? -1) eqn:E; [discriminate|].
    intros [<-|I] G'; [|eauto].
    rewrite G in G'. injection G' as <-. apply Z.eqb_neq; exact E.
  - intros [<-|I] G'; [congruence | eauto].
Qed.

Lemma first_open_some (bd : DestBucket) : forall ds d t,
  first_open bd ds = Some (d, t) ->
  exists pre post (bt : TimeBucket) f,
    flat_map (fun d => match Dict.get d bd with
                       | Some bt => map (pair d) (Dict.keys bt)
                       | None => []
                       end) ds = pre ++ (d, t) :: post
    /\ Dict.get d bd = Some bt /\ Dict.get t bt = Some f /\ taxi f = -1
    /\ forall dt, In dt pre -> taken bd dt.
Proof.
  induction ds as [|d0 ds IH]; intros d t; simpl; [discriminate|].
  destruct (Dict.get d0 bd) as [bt0|] eqn:G.
  - destruct (first_open_time bt0 (Dict.keys bt0)) as [t0|] eqn:F.
    + intros [= <- <-].
      destruct (first_open_time_some _ _ F) as [pre [post [f [Hk [Hg [Ht Hp]]]]]].
      exists (map (pair d0) pre), (map (pair d0) post ++
        flat_map (fun d => match Dict.get d bd with
                           | Some bt => map (pair d) (Dict.keys bt)
                           | None => []
                           end) ds), bt0, f.
      rewrite Hk, map_app, <- app_assoc. simpl.
      repeat split; auto.
      intros dt I. apply in_map_iff in I. destruct I as [t' [<- I]].
      intros bt' f' G1 G2. simpl in G1, G2.
      rewrite G in G1. injection G1 as <-. eauto.
    + intros H. destruct (IH _ _ H) as [pre [post [bt [f [Hk [Hd [Hg [Ht Hp]]]]]]]].
      exists (map (pair d0) (Dict.keys bt0) ++ pre), post, bt, f.
      rewrite Hk, <- app_assoc. repeat split; auto.
      intros dt I. apply in_app_or in I. destruct I as [I|I]; [|auto].
      apply in_map_iff in I. destruct I as [t' [<- I]].
      intros bt' f' G1 G2. simpl in G1, G2.
      rewrite G in G1. injection G1 as <-.
      exact (first_open_time_none _ _ F _ I G2).
  - intros H. destruct (IH _ _ H) as [pre [post [bt [f [Hk [Hd [Hg [Ht Hp]]]]]]]].
    exists pre, post, bt, f. simpl. repeat split; auto.
Qed.

Lemma first_open_none (bd : DestBucket) : forall ds,
  first_open bd ds = None ->
  forall d (bt : TimeBucket) t f, In d ds -> Dict.get d bd = Some bt -> Dict.get t bt = Some f ->
                   taxi f <> -1.
Proof.
  induction ds as [|d0 ds IH]; simpl; intros H d bt t f; [intros []|].
  destruct (Dict.get d0 bd) as [bt0|] eqn:G.
  - destruct (first_open_time bt0 (Dict.keys bt0)) as [t0|] eqn:F; [discriminate|].
    intros [<-|I] G1 G2; [|eauto].
    rewrite G in G1. injection G1 as <-.
    apply (first_open_time_none _ _ F t); [|exact G2].
    exact (get_in_keys _ _ G2).
  - intros [<-|I] G1 G2; [congruence | eauto].
Qed.

(** What a bid by a known taxi does once the loops have found their entry. *)
Lemma fareBid_found s o tx (bd : DestBucket) d t :
  contains tx (_taxis s) = true ->
  Dict.get o (_fareBoard s) = Some bd ->
  first_open bd (Dict.keys bd) = Some (d, t) ->
  exists i,
    index tx (_taxis s) = Ok i
    /\ fareBid s o tx =
       returns (with_fareBoard
                  (update_fare (append_bidder i) o d t (_fareBoard s)) s) [].
Proof.
  intros C G F. destruct (contains_index _ _ C) as [i [Hi _]].
  exists i. split; [exact Hi|].
  unfold fareBid. rewrite C, G, F, Hi. reflexivity.
Qed.

Lemma fare_at_inv (b : FareBoard) o d t f :
  fare_at b o d t = Some f ->
  exists (bd : DestBucket) (bt : TimeBucket),
    Dict.get o b = Some bd /\ Dict.get d bd = Some bt
                /\ Dict.get t bt = Some f.
Proof.
  unfold fare_at.
  destruct (Dict.get o b) as [bd|] eqn:Go; [|discriminate].
  destruct (Dict.get d bd) as [bt|] eqn:Gd; [|discriminate].
  intros G. exists bd, bt. repeat split; auto.
Qed.

Lemma fare_at_intro (b : FareBoard) o d t (bd : DestBucket) (bt : TimeBucket) :
  Dict.get o b = Some bd -> Dict.get d bd = Some bt ->
  fare_at b o d t = Dict.get t bt.
Proof. intros Go Gd. unfold fare_at. rewrite Go, Gd. reflexivity. Qed.

(** An origin with an unassigned entry makes the two loops stop on one. *)
Lemma first_open_exists (bd : DestBucket) d0 (bt0 : TimeBucket) t0 f0 :
  Dict.get d0 bd = Some bt0 -> Dict.get t0 bt0 = Some f0 -> taxi f0 = -1 ->
  exists d t, first_open bd (Dict.keys bd) = Some (d, t).
Proof.
  intros Gd Gt Ht.
  destruct (first_open bd (Dict.keys bd)) as [[d t]|] eqn:F; [eauto|].
  exfalso.
  apply (first_open_none _ _ F d0 t0 (get_in_keys _ _ Gd) Gd Gt). exact Ht.
Qed.

(** C9, as the code has it.  A bid by a known taxi at an origin that has at
    least one unassigned fare is recorded on exactly one entry: the first
    unassigned one in the order in which the fare board's dictionaries yield
    their keys ([bid_order]: destinations in the order they were first
    registered under the origin and, within a destination, call times in the
    order they were registered, not sorted).  Every entry before it in that
    order already has a taxi, the taxi's index is appended to its bidder
    list, no other entry of the board changes, the other fields of the
    dispatcher are untouched and the call returns without a call on the
    world. *)
Theorem fareBid_first_in_dict_order (s : Dispatcher) (o : Coord) (tx : TaxiRef)
  (d0 : Coord) (t0 : Z) (f0 : FareEntry) :
  contains tx (_taxis s) = true ->
  fare_at (_fareBoard s) o d0 t0 = Some f0 ->
  taxi f0 = -1 ->
  exists (bd : DestBucket) pre d t post f i,
    Dict.get o (_fareBoard s) = Some bd
    /\ bid_order bd = pre ++ (d, t) :: post
    /\ (forall dt, In dt pre -> taken bd dt)
    /\ fare_at (_fareBoard s) o d t = Some f /\ taxi f = -1
    /\ index tx (_taxis s) = Ok i
    /\ raised (fareBid s o tx) = None /\ calls (fareBid s o tx) = []
    /\ fare_at (_fareBoard (state (fareBid s o tx))) o d t = Some (append_bidder i f)
    /\ (forall o' d' t', (o', d', t') <> (o, d, t) ->
          fare_at (_fareBoard (state (fareBid s o tx))) o' d' t'
          = fare_at (_fareBoard s) o' d' t')
    /\ _taxis (state (fareBid s o tx)) = _taxis s
    /\ fareAmountConstraint (state (fareBid s o tx)) = fareAmountConstraint s
    /\ _revenue (state (fareBid s o tx)) = _revenue s.
Proof.
  intros C Hf0 Ht0.
  destruct (fare_at_inv _ _ _ _ Hf0) as [bd [bt0 [Go [Gd0 Gt0]]]].
  destruct (first_open_exists _ _ _ Gd0 Gt0 Ht0) as [d [t F]].
  destruct (first_open_some _ _ F) as [pre [post [bt [f [Hk [Gd [Gt [Ht Hp]]]]]]]].
  destruct (fareBid_found s o tx C Go F) as [i [Hi ->]].
  assert (Hf : fare_at (_fareBoard s) o d t = Some f)
    by (rewrite (@fare_at_intro _ o d t bd bt Go Gd); exact Gt).
  exists bd, pre, d, t, post, f, i. simpl.
  repeat split; auto.
  - apply fare_at_update_same; exact Hf.
  - intros o' d' t' N. apply fare_at_update_other; exact N.
Qed.

Lemma fareBid_first_in_dict_order_witness :
  exists (bd : DestBucket) pre d t post f i,
    Dict.get (0, 0) (_fareBoard late_then_early) = Some bd
    /\ bid_order bd = pre ++ (d, t) :: post
    /\ (forall dt, In dt pre -> taken bd dt)
    /\ fare_at (_fareBoard late_then_early) (0, 0) d t = Some f /\ taxi f = -1
    /\ index 5%nat (_taxis late_then_early) = Ok i
    /\ raised (fareBid late_then_early (0, 0) 5%nat) = None
    /\ calls (fareBid late_then_early (0, 0) 5%nat) = []
    /\ fare_at (_fareBoard (state (fareBid late_then_early (0, 0) 5%nat))) (0, 0) d t
       = Some (append_bidder i f)
    /\ (forall o' d' t', (o', d', t') <> ((0, 0), d, t) ->
          fare_at (_fareBoard (state (fareBid late_then_early (0, 0) 5%nat))) o' d' t'
          = fare_at (_fareBoard late_then_early) o' d' t')
    /\ _taxis (state (fareBid late_then_early (0, 0) 5%nat)) = _taxis late_then_early
    /\ fareAmountConstraint (state (fareBid late_then_early (0, 0) 5%nat))
       = fareAmountConstraint late_then_early
    /\ _revenue (state (fareBid late_then_early (0, 0) 5%nat))
       = _revenue late_then_early.
Proof.
  apply (@fareBid_first_in_dict_order late_then_early (0, 0) 5%nat (3, 3) 3
           (FareEntry_init (0, 0) (3, 3) 3)); reflexivity.
Defined.

(** With call time 5 registered before call time 3, the sorted enumeration
    starts with the fare of call time 3, which is unassigned, yet the bid of
    taxi 5 goes to the fare of call time 5 and leaves the other untouched. *)
Lemma fareBid_ignores_sorted_order :
  contains 5%nat (_taxis late_then_early) = true
  /\ tick_keys (_fareBoard late_then_early)
     = [((0, 0), (3, 3), 3); ((0, 0), (3, 3), 5)]
  /\ fare_at (_fareBoard (state (fareBid late_then_early (0, 0) 5%nat))) (0, 0) (3, 3) 3
     = Some (mkFareEntry (0, 0) (3, 3) 3 0 (-1) [])
  /\ fare_at (_fareBoard (state (fareBid late_then_early (0, 0) 5%nat))) (0, 0) (3, 3) 5
     = Some (mkFareEntry (0, 0) (3, 3) 5 0 (-1) [0])
  /\ ~ bid_lands_first_in_sorted_order late_then_early (0, 0) 5%nat.
Proof.
  repeat split; try reflexivity.
  intros H.
  destruct (H [] (3, 3) 3 [((0, 0), (3, 3), 5)] (FareEntry_init (0, 0) (3, 3) 3))
    as [i Hi]; try reflexivity.
  - intros k f' [].
  - vm_compute in Hi. discriminate.
Qed.

(** *** Repeated bids *)

(** The two loops of [fareBid] read the keys of the buckets and the [taxi]
    fields, nothing else. *)
Lemma first_open_time_ext (bt bt' : TimeBucket) : forall ts,
  (forall t, option_map taxi (Dict.get t bt) = option_map taxi (Dict.get t bt')) ->
  first_open_time bt ts = first_open_time bt' ts.
Proof.
  intros ts E. induction ts as [|t ts IH]; simpl; [reflexivity|].
  specialize (E t).
  destruct (Dict.get t bt) as [f|], (Dict.get t bt') as [f'|]; simpl in E;
    try discriminate; [|exact IH].
  injection E as ->. rewrite IH. reflexivity.
Qed.

Lemma first_open_ext (bd bd' : DestBucket) : forall ds,
  (forall d, match Dict.get d bd, Dict.get d bd' with
             | Some bt, Some bt' => same_taxis bt bt'
             | None, None => True
             | _, _ => False
             end) ->
  first_open bd ds = first_open bd' ds.
Proof.
  intros ds E. induction ds as [|d ds IH]; simpl; [reflexivity|].
  specialize (E d).
  destruct (Dict.get d bd) as [bt|], (Dict.get d bd') as [bt'|];
    try contradiction; [|exact IH].
  destruct E as [Ek Et]. rewrite <- Ek, (first_open_time_ext _ _ _ Et), IH.
  reflexivity.
Qed.

Lemma same_taxis_refl bt : same_taxis bt bt.
Proof. split; reflexivity. Qed.

(** An attribute assignment that leaves [taxi] alone does not move the entry
    the next bid at any origin will find. *)
Lemma first_open_update g o d t (b : FareBoard) o' :
  (forall x, taxi (g x) = taxi x) ->
  match Dict.get o' b, Dict.get o' (update_fare g o d t b) with
  | Some bd, Some bd' =>
      first_open bd' (Dict.keys bd') = first_open bd (Dict.keys bd)
  | None, None => True
  | _, _ => False
  end.
Proof.
  intros Hg. unfold update_fare.
  destruct (Dict.get o b) as [bd|] eqn:Go;
    [|destruct (Dict.get o' b); [reflexivity | exact I]].
  destruct (Dict.get d bd) as [bt|] eqn:Gd;
    [|destruct (Dict.get o' b); [reflexivity | exact I]].
  destruct (Dict.get t bt) as [f|] eqn:Gt;
    [|destruct (Dict.get o' b); [reflexivity | exact I]].
  destruct (eqb o' o) eqn:Co.
  - apply eqb_eq in Co; subst o'. rewrite Go, get_set_eq.
    rewrite (keys_set_present _ _ _ Gd).
    apply first_open_ext. intros d'.
    destruct (eqb d' d) eqn:Cd.
    + apply eqb_eq in Cd; subst d'. rewrite Gd, get_set_eq. split.
      * exact (keys_set_present _ _ _ Gt).
      * intros t'. destruct (eqb t' t) eqn:Ct.
        -- apply eqb_eq in Ct; subst t'. rewrite Gt, get_set_eq. simpl.
           rewrite Hg. reflexivity.
        -- apply eqb_neq in Ct. rewrite get_set_neq by exact Ct. reflexivity.
    + apply eqb_neq in Cd. rewrite get_set_neq by exact Cd.
      destruct (Dict.get d' bd); [apply same_taxis_refl | exact I].
  - apply eqb_neq in Co. rewrite get_set_neq by exact Co.
    destruct (Dict.get o' b); [reflexivity | exact I].
Qed.

(** After the second bid of taxi 5 the bidder list of the still unassigned
    fare holds its index twice: the list has changed and uniqueness fails in
    a state reached from the initial one. *)
Lemma fareBid_second_bid_duplicates :
  fare_at (_fareBoard bid_once) (0, 0) (3, 3) 1
  = Some (mkFareEntry (0, 0) (3, 3) 1 0 (-1) [0])
  /\ fare_at (_fareBoard (state (fareBid bid_once (0, 0) 5%nat))) (0, 0) (3, 3) 1
     = Some (mkFareEntry (0, 0) (3, 3) 1 0 (-1) [0; 0])
  /\ ~ bidders_unique (state (fareBid bid_once (0, 0) 5%nat)).
Proof.
  repeat split.
  intros U.
  specialize (U (0, 0) (3, 3) 1 (mkFareEntry (0, 0) (3, 3) 1 0 (-1) [0; 0]) eq_refl).
  simpl in U. inversion U as [|x l Hn Hl]; subst. apply Hn. left; reflexivity.
Qed.

(** C8, as the code has it.  [fareBid] appends without looking at the list:
    a bid by a known taxi at an origin with an unassigned fare adds the
    taxi's index at the end of that fare's bidder list, and a second bid by
    the same taxi, the fare being still unassigned, lands on the same entry
    and adds the index once more.  A taxi therefore occurs in a bidder list
    as many times as it has bid on the fare. *)
Theorem fareBid_appends_every_bid (s : Dispatcher) (o : Coord) (tx : TaxiRef)
  (d0 : Coord) (t0 : Z) (f0 : FareEntry) :
  contains tx (_taxis s) = true ->
  fare_at (_fareBoard s) o d0 t0 = Some f0 ->
  taxi f0 = -1 ->
  exists d t f i,
    fare_at (_fareBoard s) o d t = Some f /\ taxi f = -1
    /\ index tx (_taxis s) = Ok i
    /\ fare_at (_fareBoard (state (fareBid s o tx))) o d t
       = Some (mkFareEntry (origin f) (destination f) (calltime f) (price f) (-1)
                 (bidders f ++ [i]))
    /\ fare_at (_fareBoard (state (fareBid (state (fareBid s o tx)) o tx))) o d t
       = Some (mkFareEntry (origin f) (destination f) (calltime f) (price f) (-1)
                 ((bidders f ++ [i]) ++ [i])).
Proof.
  intros C Hf0 Ht0.
  destruct (fare_at_inv _ _ _ _ Hf0) as [bd [bt0 [Go [Gd0 Gt0]]]].
  destruct (first_open_exists _ _ _ Gd0 Gt0 Ht0) as [d [t F]].
  destruct (first_open_some _ _ F) as [pre [post [bt [f [Hk [Gd [Gt [Ht Hp]]]]]]]].
  destruct (fareBid_found s o tx C Go F) as [i [Hi E1]].
  assert (Hf : fare_at (_fareBoard s) o d t = Some f)
    by (rewrite (@fare_at_intro _ o d t bd bt Go Gd); exact Gt).
  exists d, t, f, i.
  assert (H1 : fare_at (_fareBoard (state (fareBid s o tx))) o d t
               = Some (append_bidder i f))
    by (rewrite E1; simpl; apply fare_at_update_same; exact Hf).
  repeat split; auto.
  - rewrite H1. unfold append_bidder. rewrite Ht. reflexivity.
  - pose proof (@first_open_update (append_bidder i) o d t (_fareBoard s) o
                  (fun x => eq_refl)) as U.
    rewrite Go in U.
    destruct (Dict.get o (update_fare (append_bidder i) o d t (_fareBoard s)))
      as [bd'|] eqn:Go'; [|contradiction].
    rewrite F in U.
    assert (C' : contains tx (_taxis (state (fareBid s o tx))) = true)
      by (rewrite E1; exact C).
    assert (Go2 : Dict.get o (_fareBoard (state (fareBid s o tx))) = Some bd')
      by (rewrite E1; exact Go').
    destruct (fareBid_found _ o tx C' Go2 U) as [i' [Hi' E2]].
    assert (i' = i) by (rewrite E1 in Hi'; simpl in Hi'; congruence). subst i'.
    rewrite E2. simpl.
    rewrite (fare_at_update_same (append_bidder i) _ _ _ _ H1).
    unfold append_bidder. simpl. rewrite Ht. reflexivity.
Qed.

Lemma fareBid_appends_every_bid_witness :
  exists d t f i,
    fare_at (_fareBoard bid_once) (0, 0) d t = Some f /\ taxi f = -1
    /\ index 5%nat (_taxis bid_once) = Ok i
    /\ fare_at (_fareBoard (state (fareBid bid_once (0, 0) 5%nat))) (0, 0) d t
       = Some (mkFareEntry (origin f) (destination f) (calltime f) (price f) (-1)
                 (bidders f ++ [i]))
    /\ fare_at (_fareBoard (state (fareBid (state (fareBid bid_once (0, 0) 5%nat))
                                     (0, 0) 5%nat))) (0, 0) d t
       = Some (mkFareEntry (origin f) (destination f) (calltime f) (price f) (-1)
                 ((bidders f ++ [i]) ++ [i])).
Proof.
  apply (@fareBid_appends_every_bid bid_once (0, 0) 5%nat (3, 3) 1
           (mkFareEntry (0, 0) (3, 3) 1 0 (-1) [0])); reflexivity.
Defined.

(** ** Cancelling a fare *)

(** Pruning only ever deletes empty buckets, so it changes no lookup. *)
Lemma fare_at_prune o d (b : FareBoard) o' d' t' :
  fare_at (prune_buckets o d b) o' d' t' = fare_at b o' d' t'.
Proof.
  unfold prune_buckets.
  set (b1 := match Dict.get o b with
             | Some bd =>
                 match Dict.get d bd with
                 | Some bt =>
                     if Z.of_nat (length bt) =? 0
                     then Dict.set o (Dict.del d bd) b else b
                 | None => b
                 end
             | None => b
             end).
  assert (E1 : fare_at b1 o' d' t' = fare_at b o' d' t').
  { subst b1.
    destruct (Dict.get o b) as [bd|] eqn:Go; [|reflexivity].
    destruct (Dict.get d bd) as [bt|] eqn:Gd; [|reflexivity].
    destruct bt as [|x bt]; simpl; [|reflexivity].
    unfold fare_at.
    destruct (eqb o' o) eqn:Co.
    - apply eqb_eq in Co; subst o'. rewrite get_set_eq, Go.
      destruct (eqb d' d) eqn:Cd.
      + apply eqb_eq in Cd; subst d'. rewrite get_del_eq, Gd. reflexivity.
      + apply eqb_neq in Cd. rewrite get_del_neq by exact Cd. reflexivity.
    - apply eqb_neq in Co. rewrite get_set_neq by exact Co. reflexivity. }
  rewrite <- E1.
  destruct (Dict.get o b1) as [bd1|] eqn:Go1; [|reflexivity].
  destruct bd1 as [|x bd1]; simpl; [|reflexivity].
  unfold fare_at.
  destruct (eqb o' o) eqn:Co.
  - apply eqb_eq in Co; subst o'. rewrite get_del_eq, Go1. reflexivity.
  - apply eqb_neq in Co. rewrite get_del_neq by exact Co. reflexivity.
Qed.

(** [cancelFare] on a key that is on the board, when the taxi lookup
    [self._taxis[fare.taxi]] succeeds: the world is asked to tell that taxi,
    the entry is gone and every other entry is as before. *)
Lemma cancelFare_present s o d t fare tx :
  fare_at (_fareBoard s) o d t = Some fare ->
  getitem (_taxis s) (taxi fare) = Ok tx ->
  let r := cancelFare s (_parent s) o d t in
  raised r = None
  /\ calls r = [Parent.printed (FareCancelledMsg (fst o) (snd o));
                Parent.cancelFare o tx]
  /\ fare_at (_fareBoard (state r)) o d t = None
  /\ (forall o' d' t', (o', d', t') <> (o, d, t) ->
        fare_at (_fareBoard (state r)) o' d' t' = fare_at (_fareBoard s) o' d' t')
  /\ _taxis (state r) = _taxis s
  /\ fareAmountConstraint (state r) = fareAmountConstraint s
  /\ _revenue (state r) = _revenue s.
Proof.
  intros Hf Hg r. subst r.
  destruct (fare_at_inv _ _ _ _ Hf) as [bd [bt [Go [Gd Gt]]]].
  unfold cancelFare. rewrite eqb_refl, Go, Gd, Gt, Hg. simpl.
  repeat split.
  - rewrite fare_at_prune. unfold fare_at. rewrite !get_set_eq. apply get_del_eq.
  - intros o' d' t' N. rewrite fare_at_prune. unfold fare_at.
    destruct (eqb o' o) eqn:Co.
    + apply eqb_eq in Co; subst o'. rewrite get_set_eq, Go.
      destruct (eqb d' d) eqn:Cd.
      * apply eqb_eq in Cd; subst d'. rewrite get_set_eq, Gd.
        apply get_del_neq. congruence.
      * apply eqb_neq in Cd. rewrite get_set_neq by exact Cd. reflexivity.
    + apply eqb_neq in Co. rewrite get_set_neq by exact Co. reflexivity.
Qed.

(** [cancelFare] on an unassigned fare reads [self._taxis[-1]]: with no taxi
    known this is an [IndexError], raised before the entry is deleted. *)
Lemma cancelFare_unassigned_no_taxi s o d t fare :
  fare_at (_fareBoard s) o d t = Some fare ->
  taxi fare = -1 ->
  _taxis s = [] ->
  cancelFare s (_parent s) o d t =
  raises s [Parent.printed (FareCancelledMsg (fst o) (snd o))] IndexError.
Proof.
  intros Hf Ht Hl.
  destruct (fare_at_inv _ _ _ _ Hf) as [bd [bt [Go [Gd Gt]]]].
  unfold cancelFare. rewrite eqb_refl, Go, Gd, Gt, Ht, Hl. reflexivity.
Qed.

Lemma getitem_last {A} (l : list A) (x : A) : getitem (l ++ [x]) (-1) = Ok x.
Proof.
  unfold getitem. rewrite length_app. cbn [length].
  replace (Z.of_nat (length l + 1)) with (Z.of_nat (length l) + 1) by lia.
  change (-1 <? 0) with true. cbv iota.
  replace (-1 + (Z.of_nat (length l) + 1)) with (Z.of_nat (length l)) by lia.
  rewrite (proj2 (Z.leb_le _ _)) by lia.
  rewrite (proj2 (Z.ltb_lt _ _)) by lia.
  cbn [andb]. rewrite Nat2Z.id.
  rewrite nth_error_app2 by lia. rewrite Nat.sub_diag. reflexivity.
Qed.

(** ... and with taxis known, the taxi told of the cancellation is the last
    one of the list, whoever it is. *)
Lemma cancelFare_unassigned_tells_last s o d t fare l tx :
  fare_at (_fareBoard s) o d t = Some fare ->
  taxi fare = -1 ->
  _taxis s = l ++ [tx] ->
  raised (cancelFare s (_parent s) o d t) = None
  /\ calls (cancelFare s (_parent s) o d t) =
     [Parent.printed (FareCancelledMsg (fst o) (snd o)); Parent.cancelFare o tx].
Proof.
  intros Hf Ht Hl.
  assert (Hg : getitem (_taxis s) (taxi fare) = Ok tx)
    by (rewrite Ht, Hl; apply getitem_last).
  destruct (cancelFare_present s o d t Hf Hg) as [R [C _]]. auto.
Qed.

(** C7, at the failing inputs.  Cancelling a fare that is on the board and
    unassigned ([taxi = -1]) evaluates [self._taxis[-1]]: with an empty taxi
    list the call ends in an [IndexError]; with taxis 5 and 6 known it asks
    the world to notify taxi 6, the last of the list, of a cancellation that
    does not concern it. *)
Example cancelFare_unassigned_fare_misbehaves :
  fare_at (_fareBoard no_taxi_one_fare) (0, 0) (3, 3) 1
  = Some (mkFareEntry (0, 0) (3, 3) 1 0 (-1) [])
  /\ raised (cancelFare no_taxi_one_fare 1%nat (0, 0) (3, 3) 1) = Some IndexError
  /\ fare_at (_fareBoard two_taxis_one_fare) (0, 0) (3, 3) 1
     = Some (mkFareEntry (0, 0) (3, 3) 1 0 (-1) [])
  /\ calls (cancelFare two_taxis_one_fare 1%nat (0, 0) (3, 3) 1)
     = [Parent.printed (FareCancelledMsg 0 0); Parent.cancelFare (0, 0) 6%nat].
Proof. repeat split. Qed.

(** C6, at the failing input.  The key is on the board, the fare is
    unassigned and no taxi is known: the cancel call ends in an [IndexError]
    before the [del], so the entry stays on the board and the next tick
    enumeration still returns it. *)
Example cancelFare_leaves_entry_when_no_taxi :
  fare_at (_fareBoard no_taxi_one_fare) (0, 0) (3, 3) 1
  = Some (mkFareEntry (0, 0) (3, 3) 1 0 (-1) [])
  /\ raised (cancelFare no_taxi_one_fare 1%nat (0, 0) (3, 3) 1) = Some IndexError
  /\ fare_at (_fareBoard (state (cancelFare no_taxi_one_fare 1%nat (0, 0) (3, 3) 1)))
       (0, 0) (3, 3) 1
     = Some (mkFareEntry (0, 0) (3, 3) 1 0 (-1) [])
  /\ tick_keys (_fareBoard (state (cancelFare no_taxi_one_fare 1%nat (0, 0) (3, 3) 1)))
     = [((0, 0), (3, 3), 1)].
Proof. repeat split. Qed.

(** ** Pricing *)

Local Open Scope Q_scope.

Lemma Qlt_bool_iff (a b : Q) : Qlt_bool a b = true <-> a < b.
Proof.
  unfold Qlt_bool. rewrite negb_true_iff. split.
  - intros E. apply Qnot_le_lt. intros L. apply Qle_bool_iff in L. congruence.
  - intros L. destruct (Qle_bool b a) eqn:E; [|reflexivity].
    apply Qle_bool_iff in E. exfalso. exact (Qlt_not_le _ _ L E).
Qed.

Lemma Qlt_bool_false (a b : Q) : Qlt_bool a b = false <-> b <= a.
Proof.
  split.
  - intros E. apply Qnot_lt_le. intros L. apply Qlt_bool_iff in L. congruence.
  - intros L. destruct (Qlt_bool a b) eqn:E; [|reflexivity].
    apply Qlt_bool_iff in E. exfalso. exact (Qlt_not_le _ _ E L).
Qed.

(** The counter of [while_below] is large enough: the value returned fails
    the loop test, so the loop has run to its exit. *)
Lemma while_below_exit (bound : Q) : forall n c,
  bound - c <= inject_Z (Z.of_nat n) -> ~ while_below n bound c < bound.
Proof.
  induction n as [|n IH]; intros c H; simpl.
  - change (inject_Z (Z.of_nat 0)) with 0 in H. lra.
  - destruct (Qlt_bool c bound) eqn:E.
    + apply IH. rewrite Nat2Z.inj_succ, <- Z.add_1_r, inject_Z_plus in H.
      change (inject_Z 1) with 1 in H. lra.
    + apply Qlt_bool_false in E. lra.
Qed.

Lemma raise_to_exit (bound c : Q) : ~ raise_to bound c < bound.
Proof.
  unfold raise_to. apply while_below_exit.
  pose proof (Qle_ceiling (bound - c)) as H.
  destruct (Z_le_gt_dec 0 (Qceiling (bound - c))) as [P|N].
  - rewrite Z2Nat.id by exact P. exact H.
  - assert (Qceiling (bound - c) <= 0)%Z as L by lia.
    rewrite Zle_Qle in L.
    replace (Z.to_nat (Qceiling (bound - c))) with 0%nat by lia.
    change (inject_Z (Z.of_nat 0)) with 0. change (inject_Z 0) with 0 in L. lra.
Qed.

(** Each round adds one to a value below the bound, so the loop cannot
    overshoot the bound by a whole unit. *)
Lemma while_below_lt (bound : Q) : forall n c,
  c < bound + 1 -> while_below n bound c < bound + 1.
Proof.
  induction n as [|n IH]; intros c H; simpl; [exact H|].
  destruct (Qlt_bool c bound) eqn:E; [|exact H].
  apply IH. apply Qlt_bool_iff in E. lra.
Qed.

(** From below the bound, the [while] loop stops in the unit interval that
    starts at the bound. *)
Lemma raise_to_bounds (bound c : Q) :
  c < bound -> bound <= raise_to bound c /\ raise_to bound c < bound + 1.
Proof.
  intros H. split.
  - apply Qnot_lt_le. apply raise_to_exit.
  - apply while_below_lt. lra.
Qed.

(** Once a sample has been stored, the [for] loop ends with a price between
    the last sample and the ceiling. *)
Lemma cost_samples_stored (T : Q) : forall js c,
  0 < T -> (forall i, In i js -> (0 <= i)%Z) ->
  0 < c -> c < 10 * T - 1 ->
  exists p, cost_samples js T (10 * T) (Some c) = Ok (Some p)
            /\ 0 < p /\ p < 10 * T.
Proof.
  intros js c HT. revert c.
  induction js as [|i js IH]; intros c Hjs Hc Hm; simpl.
  - exists c. repeat split; [exact Hc | lra].
  - destruct (Qlt_bool (inject_Z i + T / (9 # 10)) (10 * T - 1)) eqn:E.
    + apply IH.
      * intros j Hj. apply Hjs. right; exact Hj.
      * assert (0 <= inject_Z i)
          by (change 0 with (inject_Z 0); rewrite <- Zle_Qle; apply Hjs; left; reflexivity).
        assert (0 < T / (9 # 10)) by (apply Qlt_shift_div_l; lra).
        lra.
      * apply Qlt_bool_iff in E. exact E.
    + exists (raise_to (10 * T - 1) c).
      destruct (raise_to_bounds Hm) as [L U].
      repeat split; lra.
Qed.

Lemma range_nonneg n i : In i (range n) -> (0 <= i)%Z.
Proof.
  unfold range. intros H. apply in_map_iff in H. destruct H as [k [<- _]]. lia.
Qed.

Lemma first_sample_test (T : Q) :
  inject_Z 0 + T / (9 # 10) < 10 * T - 1 <-> 9 # 80 < T.
Proof.
  change (inject_Z 0) with 0.
  assert (E : T / (9 # 10) == T * (10 # 9)) by (unfold Qdiv; reflexivity).
  rewrite E. split; intros H; lra.
Qed.

(** A travel time that is not positive is priced at the flat 150. *)
Lemma cost_of_time_flat (T : Q) : T <= 0 -> cost_of_time T = Ok 150.
Proof.
  intros H. unfold cost_of_time.
  replace (Qlt_bool 0 T) with false by (symmetry; apply Qlt_bool_false; exact H).
  reflexivity.
Qed.

(** Above 9/80 the price is computed and lies strictly between 0 and ten
    times the travel time. *)
Lemma cost_of_time_bounds (T : Q) :
  9 # 80 < T -> exists p, cost_of_time T = Ok p /\ 0 < p /\ p < 10 * T.
Proof.
  intros H. unfold cost_of_time.
  assert (HT : 0 < T) by lra.
  replace (Qlt_bool 0 T) with true by (symmetry; apply Qlt_bool_iff; exact HT).
  change (range 200) with (0%Z :: map Z.of_nat (seq 1 199)).
  cbn [cost_samples].
  replace (Qlt_bool (inject_Z 0 + T / (9 # 10)) (10 * T - 1)) with true
    by (symmetry; apply Qlt_bool_iff, first_sample_test; exact H).
  destruct (@cost_samples_stored T (map Z.of_nat (seq 1 199)) (inject_Z 0 + T / (9 # 10)))
    as [p [Hp [P0 P1]]]; auto.
  - intros i Hi. apply in_map_iff in Hi. destruct Hi as [k [<- _]]. lia.
  - change (inject_Z 0) with 0.
    assert (0 < T / (9 # 10)) by (apply Qlt_shift_div_l; lra). lra.
  - apply first_sample_test; exact H.
  - exists p. rewrite Hp. simpl.
    replace (Qlt_bool 0 p) with true by (symmetry; apply Qlt_bool_iff; exact P0).
    auto.
Qed.

(** Between 0 and 9/80 the very first sample already fails the ceiling test:
    the [while] compares [None] with a number. *)
Lemma cost_of_time_tiny (T : Q) :
  0 < T -> T <= 9 # 80 -> cost_of_time T = Raise TypeError.
Proof.
  intros H0 H1. unfold cost_of_time.
  replace (Qlt_bool 0 T) with true by (symmetry; apply Qlt_bool_iff; exact H0).
  change (range 200) with (0%Z :: map Z.of_nat (seq 1 199)).
  cbn [cost_samples].
  replace (Qlt_bool (inject_Z 0 + T / (9 # 10)) (10 * T - 1)) with false;
    [reflexivity|].
  symmetry. apply Qlt_bool_false. apply Qnot_lt_le. intros L.
  apply first_sample_test in L. lra.
Qed.

Local Close Scope Q_scope.

(** C2, at the failing input.  For the travel time 1/10, which is positive,
    [_costFare] returns no price at all: the first sample 1/9 is not below
    the ceiling minus one (0), the [else] branch compares [costSample], still
    [None], with a number and the call ends in a [TypeError]; the tick that
    prices the fare ends with it and the fare stays unpriced. *)
Example costFare_raises_on_tiny_travel_time :
  _costFare quick_world (FareEntry_init (0, 0) (3, 3) 1) = Raise TypeError
  /\ raised (clockTick quick_world no_taxi_one_fare 1%nat) = Some TypeError
  /\ fare_at (_fareBoard (state (clockTick quick_world no_taxi_one_fare 1%nat)))
       (0, 0) (3, 3) 1
     = Some (mkFareEntry (0, 0) (3, 3) 1 0 (-1) []).
Proof. repeat split. Qed.

(** ** Allocation *)

(** *** The stuck-taxi test does not stop the allocation *)

(** C1, at the failing input.  The fare is priced, unassigned and has one
    bidder; the path of a known taxi is non-empty, ends at the origin of the
    fare and is as long as the bidder's travel time to the origin, so the
    stuck-taxi test fires and overwrites [fareNode] with [None].  Nothing
    reads that before the choice of taxi: the call allocates the fare (the
    assigned-taxi field goes from -1 to 0, the world is told) and the ledger
    gets its first entry. *)
Example allocateFare_ignores_stuck_test :
  fare_at (_fareBoard one_bid) (2, 0) (5, 0) 1
  = Some (mkFareEntry (2, 0) (5, 0) 1 (264 # 9) (-1) [0])
  /\ fareAmountConstraint one_bid = []
  /\ path_ends heading_to_origin 5%nat
       (travelTime heading_to_origin
          (getNode heading_to_origin 0 0) (getNode heading_to_origin 2 0))
       (2, 0) = true
  /\ stuck_guard heading_to_origin one_bid (2, 0) (5, 0) [0]
       (getNode heading_to_origin 2 0) = Ok None
  /\ raised (_allocateFare heading_to_origin one_bid (2, 0) (5, 0) 1) = None
  /\ calls (_allocateFare heading_to_origin one_bid (2, 0) (5, 0) 1)
     = [Parent.allocateFare (2, 0) 5%nat]
  /\ fare_at (_fareBoard (state (_allocateFare heading_to_origin one_bid (2, 0) (5, 0) 1)))
       (2, 0) (5, 0) 1
     = Some (mkFareEntry (2, 0) (5, 0) 1 (264 # 9) 0 [0])
  /\ fareAmountConstraint (state (_allocateFare heading_to_origin one_bid (2, 0) (5, 0) 1))
     = [(0, 1)]
  /\ state (clockTick heading_to_origin one_bid 1%nat)
     = state (_allocateFare heading_to_origin one_bid (2, 0) (5, 0) 1).
Proof. repeat split. Qed.

(** A single bidder is awarded the fare whatever the paths of the taxis are:
    the stuck-taxi test runs, but its verdict is never consulted. *)
Lemma allocateFare_single_bidder W s o d t fare b tx n :
  fare_at (_fareBoard s) o d t = Some fare ->
  bidders fare = [b] ->
  0 <= b ->
  getitem (_taxis s) b = Ok tx ->
  getNode W (fst o) (snd o) = Some n ->
  _allocateFare W s o d t =
  returns
    (mkDispatcher (_parent s) (_revenue s) (_taxis s)
       (update_fare (set_taxi b) o d t (_fareBoard s))
       (count_fare b (fareAmountConstraint s)))
    [Parent.allocateFare o tx].
Proof.
  intros Hf Hb H0 Hg Hn. unfold _allocateFare. rewrite Hf, Hb, Hn.
  assert (T : (0 <? Z.of_nat (length (_taxis s))) = true)
    by (apply Z.ltb_lt; pose proof (getitem_Ok_length _ _ Hg); lia).
  assert (B : (0 <? Z.of_nat (length (_fareBoard s))) = true).
  { apply Z.ltb_lt. destruct (_fareBoard s); [discriminate | simpl; lia]. }
  rewrite T, B. cbn [andb stuck_guard bind].
  unfold bidder_node. rewrite Hg. cbn [bind].
  unfold choose_taxi. change (1 <? Z.of_nat (length [b])) with false. cbv iota.
  change (getitem [b] 0) with (Ok b).
  unfold commit_fare. rewrite (proj2 (Z.leb_le 0 b) H0). simpl _taxis.
  rewrite Hg. reflexivity.
Qed.

(** *** First-timers and the stuck-taxi test *)

(** C3, at the failing input.  Two first-timers and one veteran bid.  With
    no planned paths the fare goes to taxi 6 (index 1), the first-timer with
    the smaller travel time to the origin.  When taxi 6 has planned its way
    to the origin the stuck-taxi test overwrites [fareNode] with [None], the
    travel times that rank the bidders are then all taken to a missing node
    (-1 for everyone), and the fare goes to taxi 5 (index 0), the first-timer
    that is five time units away rather than the one that is two away. *)
Example allocateFare_first_timer_not_nearest :
  fare_at (_fareBoard three_bids) (10, 0) (13, 0) 1
  = Some (mkFareEntry (10, 0) (13, 0) 1 (264 # 9) (-1) [0; 1; 2])
  /\ fareAmountConstraint three_bids = [(2, 1)]
  /\ map (fun i => travelTime three_bids_moving
                     (getNode three_bids_moving (three_bids_loc i) 0)
                     (getNode three_bids_moving 10 0)) [5%nat; 6%nat; 7%nat]
     = [inject_Z 5; inject_Z 2; inject_Z 1]
  /\ fare_at (_fareBoard (state (_allocateFare three_bids_calm three_bids (10, 0) (13, 0) 1)))
       (10, 0) (13, 0) 1
     = Some (mkFareEntry (10, 0) (13, 0) 1 (264 # 9) 1 [0; 1; 2])
  /\ stuck_guard three_bids_moving three_bids (10, 0) (13, 0) [0; 1; 2]
       (getNode three_bids_moving 10 0) = Ok None
  /\ raised (_allocateFare three_bids_moving three_bids (10, 0) (13, 0) 1) = None
  /\ calls (_allocateFare three_bids_moving three_bids (10, 0) (13, 0) 1)
     = [Parent.allocateFare (10, 0) 5%nat]
  /\ fare_at (_fareBoard (state (_allocateFare three_bids_moving three_bids (10, 0) (13, 0) 1)))
       (10, 0) (13, 0) 1
     = Some (mkFareEntry (10, 0) (13, 0) 1 (264 # 9) 0 [0; 1; 2]).
Proof. repeat split. Qed.

(** *** Veterans below the ledger minimum *)

(** C4, at the failing input.  All three bidders are veterans; taxis 5 and 6
    share the count 2, taxi 7 has the strictly larger count 3, and the
    minimum of the whole ledger, 1, belongs to a taxi that did not bid.  No
    bidder matches the ledger minimum, the last [else] ranks all the bidders
    by travel time alone, and the fare goes to taxi 7 (index 2), the bidder
    with the most awards, not to taxi 5, the nearer of the two tied ones. *)
Example allocateFare_veterans_off_minimum :
  fare_at (_fareBoard veteran_bids) (10, 0) (13, 0) 1
  = Some (mkFareEntry (10, 0) (13, 0) 1 (264 # 9) (-1) [0; 1; 2])
  /\ fareAmountConstraint veteran_bids = [(0, 2); (1, 2); (2, 3); (3, 1)]
  /\ map (fun i => travelTime veteran_bids_world
                     (getNode veteran_bids_world (veteran_bids_loc i) 0)
                     (getNode veteran_bids_world 10 0)) [5%nat; 6%nat; 7%nat]
     = [inject_Z 5; inject_Z 6; inject_Z 1]
  /\ stuck_guard veteran_bids_world veteran_bids (10, 0) (13, 0) [0; 1; 2]
       (getNode veteran_bids_world 10 0) = Ok (getNode veteran_bids_world 10 0)
  /\ raised (_allocateFare veteran_bids_world veteran_bids (10, 0) (13, 0) 1) = None
  /\ calls (_allocateFare veteran_bids_world veteran_bids (10, 0) (13, 0) 1)
     = [Parent.allocateFare (10, 0) 7%nat]
  /\ fare_at (_fareBoard (state (_allocateFare veteran_bids_world veteran_bids
                                   (10, 0) (13, 0) 1))) (10, 0) (13, 0) 1
     = Some (mkFareEntry (10, 0) (13, 0) 1 (264 # 9) 2 [0; 1; 2])
  /\ fareAmountConstraint (state (_allocateFare veteran_bids_world veteran_bids
                                    (10, 0) (13, 0) 1))
     = [(0, 2); (1, 2); (2, 4); (3, 1)].
Proof. repeat split; vm_compute; reflexivity. Qed.

(** ** Buckets are never left empty *)

Lemma length_zero_nil {A} (l : list A) : (Z.of_nat (length l) =? 0) = true -> l = [].
Proof. destruct l; [reflexivity|]. simpl. discriminate. Qed.

Lemma length_zero_false {A} (l : list A) : l <> [] -> (Z.of_nat (length l) =? 0) = false.
Proof. destruct l; [congruence|]. intros _. reflexivity. Qed.

Lemma prune_nothing o d (b : FareBoard) :
  no_empty_buckets b -> prune_buckets o d b = b.
Proof.
  intros N. unfold prune_buckets.
  destruct (Dict.get o b) as [bd|] eqn:Go; [|rewrite Go; reflexivity].
  destruct (N o bd Go) as [Nbd Nbt].
  destruct (Dict.get d bd) as [bt|] eqn:Gd.
  - rewrite (length_zero_false (Nbt d bt Gd)), Go, (length_zero_false Nbd).
    reflexivity.
  - rewrite Go, (length_zero_false Nbd). reflexivity.
Qed.

Lemma with_fareBoard_same s : with_fareBoard (_fareBoard s) s = s.
Proof. destruct s; reflexivity. Qed.

(** On every board without empty buckets a stale cancel is idempotent:
    cancelling a key that is not on the board, from any world, returns
    normally, calls nothing and leaves the dispatcher as it was. *)
Lemma cancelFare_absent s parent o d t :
  no_empty_buckets (_fareBoard s) ->
  fare_at (_fareBoard s) o d t = None ->
  cancelFare s parent o d t = returns s [].
Proof.
  intros N Hf. unfold cancelFare.
  destruct (eqb parent (_parent s)); [|reflexivity].
  unfold fare_at in Hf.
  destruct (Dict.get o (_fareBoard s)) as [bd|] eqn:Go; [|reflexivity].
  destruct (Dict.get d bd) as [bt|] eqn:Gd; [|reflexivity].
  rewrite Hf, (prune_nothing o d N), with_fareBoard_same. reflexivity.
Qed.

Ltac nonempty := first [apply set_nonempty | discriminate].

Lemma no_empty_insert o d t f (b : FareBoard) :
  no_empty_buckets b -> no_empty_buckets (board_insert o d t f b).
Proof.
  intros N o' bd' G. unfold board_insert in G.
  destruct (eqb o' o) eqn:Co.
  - apply eqb_eq in Co; subst o'.
    destruct (Dict.get o b) as [bd|] eqn:Go.
    + destruct (N o bd Go) as [Nbd Nbt].
      destruct (Dict.get d bd) as [bt|] eqn:Gd;
        rewrite get_set_eq in G; injection G as <-;
        (split; [nonempty|]); intros d' bt' G';
        (destruct (eqb d' d) eqn:Cd;
         [ apply eqb_eq in Cd; subst d'; rewrite get_set_eq in G';
           injection G' as <-; nonempty
         | apply eqb_neq in Cd; rewrite get_set_neq in G' by exact Cd;
           exact (Nbt d' bt' G') ]).
    + rewrite get_set_eq in G. injection G as <-.
      split; [nonempty|]. intros d' bt' G'. cbn [Dict.get Dict.set] in G'.
      destruct (eqb d' d); [|discriminate].
      injection G' as <-. discriminate.
  - apply eqb_neq in Co.
    destruct (Dict.get o b) as [bd|] eqn:Go.
    + destruct (Dict.get d bd); rewrite get_set_neq in G by exact Co;
        exact (N o' bd' G).
    + rewrite get_set_neq in G by exact Co. exact (N o' bd' G).
Qed.

Lemma no_empty_update g o d t (b : FareBoard) :
  no_empty_buckets b -> no_empty_buckets (update_fare g o d t b).
Proof.
  intros N o' bd' G. unfold update_fare in G.
  destruct (Dict.get o b) as [bd|] eqn:Go; [|exact (N o' bd' G)].
  destruct (Dict.get d bd) as [bt|] eqn:Gd; [|exact (N o' bd' G)].
  destruct (Dict.get t bt) as [f|] eqn:Gt; [|exact (N o' bd' G)].
  destruct (eqb o' o) eqn:Co.
  - apply eqb_eq in Co; subst o'. rewrite get_set_eq in G. injection G as <-.
    destruct (N o bd Go) as [Nbd Nbt].
    split; [apply set_nonempty|]. intros d' bt' G'.
    destruct (eqb d' d) eqn:Cd.
    + apply eqb_eq in Cd; subst d'. rewrite get_set_eq in G'.
      injection G' as <-. apply set_nonempty.
    + apply eqb_neq in Cd. rewrite get_set_neq in G' by exact Cd.
      exact (Nbt d' bt' G').
  - apply eqb_neq in Co. rewrite get_set_neq in G by exact Co. exact (N o' bd' G).
Qed.

(** The pruning that follows a deletion restores the property: the only
    buckets that can have become empty are the two it tests. *)
Lemma no_empty_prune o d (b : FareBoard) (bd : DestBucket) (bt' : TimeBucket) :
  no_empty_buckets b ->
  Dict.get o b = Some bd ->
  no_empty_buckets (prune_buckets o d (Dict.set o (Dict.set d bt' bd) b)).
Proof.
  intros N Go. destruct (N o bd Go) as [Nbd Nbt].
  unfold prune_buckets. rewrite !get_set_eq.
  destruct (Z.of_nat (length bt') =? 0) eqn:E.
  - (* the destination bucket is empty and goes *)
    rewrite get_set_eq.
    destruct (Z.of_nat (length (Dict.del d (Dict.set d bt' bd))) =? 0) eqn:E2.
    + (* the origin bucket is empty too and goes *)
      intros o' bd' G.
      destruct (eqb o' o) eqn:Co.
      * apply eqb_eq in Co; subst o'. rewrite get_del_eq in G. discriminate.
      * apply eqb_neq in Co.
        rewrite get_del_neq, !get_set_neq in G by exact Co. exact (N o' bd' G).
    + intros o' bd' G.
      destruct (eqb o' o) eqn:Co.
      * apply eqb_eq in Co; subst o'. rewrite get_set_eq in G. injection G as <-.
        split.
        -- intros Z. rewrite Z in E2. discriminate.
        -- intros d' bt0 G'.
           destruct (eqb d' d) eqn:Cd.
           ++ apply eqb_eq in Cd; subst d'. rewrite get_del_eq in G'. discriminate.
           ++ apply eqb_neq in Cd.
              rewrite get_del_neq, get_set_neq in G' by exact Cd.
              exact (Nbt d' bt0 G').
      * apply eqb_neq in Co. rewrite !get_set_neq in G by exact Co.
        exact (N o' bd' G).
  - (* the destination bucket still holds an entry *)
    rewrite get_set_eq, (length_zero_false (@set_nonempty _ _ _ d bt' bd)).
    intros o' bd' G.
    destruct (eqb o' o) eqn:Co.
    + apply eqb_eq in Co; subst o'. rewrite get_set_eq in G. injection G as <-.
      split; [apply set_nonempty|]. intros d' bt0 G'.
      destruct (eqb d' d) eqn:Cd.
      * apply eqb_eq in Cd; subst d'. rewrite get_set_eq in G'. injection G' as <-.
        intros Z. rewrite Z in E. discriminate.
      * apply eqb_neq in Cd. rewrite get_set_neq in G' by exact Cd.
        exact (Nbt d' bt0 G').
    + apply eqb_neq in Co. rewrite get_set_neq in G by exact Co. exact (N o' bd' G).
Qed.

Lemma cancelFare_no_empty s parent o d t :
  no_empty_buckets (_fareBoard s) ->
  no_empty_buckets (_fareBoard (state (cancelFare s parent o d t))).
Proof.
  intros N. unfold cancelFare.
  destruct (eqb parent (_parent s)); [|exact N].
  destruct (Dict.get o (_fareBoard s)) as [bd|] eqn:Go; [|exact N].
  destruct (Dict.get d bd) as [bt|] eqn:Gd; [|exact N].
  destruct (Dict.get t bt) as [fare|] eqn:Gt.
  - destruct (getitem (_taxis s) (taxi fare)) as [tx|e]; [|exact N].
    simpl. apply no_empty_prune; assumption.
  - simpl. rewrite (prune_nothing o d N). exact N.
Qed.

Lemma commit_fare_no_empty s o d t a :
  no_empty_buckets (_fareBoard s) ->
  no_empty_buckets (_fareBoard (state (commit_fare s o d t a))).
Proof.
  intros N. unfold commit_fare.
  destruct (0 <=? a); [|exact N].
  destruct (getitem _ a); simpl; apply no_empty_update; exact N.
Qed.

Lemma allocateFare_no_empty W s o d t :
  no_empty_buckets (_fareBoard s) ->
  no_empty_buckets (_fareBoard (state (_allocateFare W s o d t))).
Proof.
  intros N. unfold _allocateFare.
  destruct (fare_at (_fareBoard s) o d t); [|exact N].
  destruct (_ && _); [|exact N].
  destruct (getNode W (fst o) (snd o)); [|exact N].
  destruct (bind _ _); [|exact N].
  apply commit_fare_no_empty; exact N.
Qed.

Lemma tick_fare_no_empty W s k :
  no_empty_buckets (_fareBoard s) ->
  no_empty_buckets (_fareBoard (state (tick_fare W s k))).
Proof.
  intros N. destruct k as [[o d] t]. unfold tick_fare.
  destruct (fare_at (_fareBoard s) o d t) as [fare|]; [|exact N].
  destruct (Qeq_bool (price fare) 0).
  - destruct (_costFare W fare); [|exact N]. simpl. apply no_empty_update; exact N.
  - destruct (_ && _); [|exact N]. apply allocateFare_no_empty; exact N.
Qed.

Lemma tick_loop_no_empty W ks : forall s cs,
  no_empty_buckets (_fareBoard s) ->
  no_empty_buckets (_fareBoard (state (tick_loop W ks s cs))).
Proof.
  induction ks as [|k ks IH]; intros s cs N; simpl; [exact N|].
  pose proof (@tick_fare_no_empty W s k N) as N1.
  destruct (raised (tick_fare W s k)); [exact N1|]. apply IH; exact N1.
Qed.

Lemma handle_no_empty s e :
  no_empty_buckets (_fareBoard s) ->
  no_empty_buckets (_fareBoard (state (handle s e))).
Proof.
  intros N. destruct e; simpl.
  - unfold newFare. destruct (eqb parent (_parent s)); [|exact N].
    simpl. apply no_empty_insert; exact N.
  - apply cancelFare_no_empty; exact N.
  - unfold fareBid.
    destruct (contains tx (_taxis s)); [|exact N].
    destruct (Dict.get o (_fareBoard s)) as [bd|]; [|exact N].
    destruct (first_open bd (Dict.keys bd)) as [[d t]|]; [|exact N].
    destruct (index tx (_taxis s)); [|exact N].
    simpl. apply no_empty_update; exact N.
  - unfold recvPayment. destruct (eqb (_parent s) parent); exact N.
  - unfold clockTick. destruct (eqb (_parent s) parent); [|exact N].
    apply tick_loop_no_empty; exact N.
  - destruct (eqb (_parent s) parent) eqn:E.
    + apply eqb_eq in E; subst parent.
      destruct (handover_bound s o d t tx p) as [i [_ ->]]. simpl.
      apply no_empty_update, no_empty_update, no_empty_insert; exact N.
    + apply eqb_neq in E. rewrite (handover_unbound s o d t tx p E). exact N.
  - unfold addTaxi. destruct (contains tx (_taxis s)); exact N.
Qed.

(** No sequence of events leaves an empty bucket behind. *)
Lemma run_no_empty es : forall s,
  no_empty_buckets (_fareBoard s) -> no_empty_buckets (_fareBoard (run s es)).
Proof.
  induction es as [|e es IH]; intros s N; simpl; [exact N|].
  apply IH, handle_no_empty; exact N.
Qed.

(** On every state a new dispatcher can reach, cancelling a key that is not
    on the board is a no-op: no error, no call, no change of state. *)
Lemma cancelFare_absent_reachable parent0 taxis es parent o d t :
  let s := run (Dispatcher_init parent0 taxis) es in
  fare_at (_fareBoard s) o d t = None ->
  cancelFare s parent o d t = returns s [].
Proof.
  intros s Hf. apply cancelFare_absent; [|exact Hf].
  apply run_no_empty. intros o' bd' G. discriminate.
Qed.

(** [sorted] keeps the elements of the list. *)
Lemma insert_sorted_In x l y : In y (insert_sorted x l) <-> y = x \/ In y l.
Proof.
  induction l as [|z l IH]; simpl.
  - split; intros [E|[]]; auto.
  - destruct (x <=? z); simpl; [split; intros [E|E]; auto|].
    rewrite IH. split.
    + intros [E|[E|E]]; auto.
    + intros [E|[E|E]]; auto.
Qed.

Lemma sorted_In l y : In y (sorted l) <-> In y l.
Proof.
  induction l as [|x l IH]; simpl; [reflexivity|].
  rewrite insert_sorted_In, IH. split; intros [E|E]; auto.
Qed.

(** The tick enumeration yields keys of entries that are on the board. *)
Lemma tick_keys_on_board (b : FareBoard) o d t :
  In (o, d, t) (tick_keys b) -> exists f, fare_at b o d t = Some f.
Proof.
  unfold tick_keys. intros H.
  apply in_flat_map in H. destruct H as [o' [Ho H]].
  destruct (Dict.get o' b) as [bd|] eqn:Go; [|contradiction].
  apply in_flat_map in H. destruct H as [d' [Hd H]].
  destruct (Dict.get d' bd) as [bt|] eqn:Gd; [|contradiction].
  apply in_map_iff in H. destruct H as [t' [E Ht]].
  injection E as -> -> ->.
  apply (proj1 (sorted_In _ _)) in Ht. apply in_keys_get in Ht. destruct Ht as [f Gt].
  exists f. unfold fare_at. rewrite Go, Gd. exact Gt.
Qed.

(** Registry integrity whenever the taxi lookup of [cancelFare] succeeds
    (the fare is assigned to a known taxi, or some taxi is known): the call
    returns, the entry is gone from the board and from the enumeration, and no
    empty bucket is left. *)
Lemma cancelFare_removes s o d t fare tx :
  no_empty_buckets (_fareBoard s) ->
  fare_at (_fareBoard s) o d t = Some fare ->
  getitem (_taxis s) (taxi fare) = Ok tx ->
  let s' := state (cancelFare s (_parent s) o d t) in
  raised (cancelFare s (_parent s) o d t) = None
  /\ fare_at (_fareBoard s') o d t = None
  /\ ~ In (o, d, t) (tick_keys (_fareBoard s'))
  /\ no_empty_buckets (_fareBoard s').
Proof.
  intros N Hf Hg s'.
  destruct (cancelFare_present s o d t Hf Hg) as [R [_ [Gone _]]].
  split; [exact R|]. split; [exact Gone|]. split.
  - intros I. apply tick_keys_on_board in I. destruct I as [f Hf'].
    subst s'. rewrite Gone in Hf'. discriminate.
  - apply cancelFare_no_empty; exact N.
Qed.

(** ** Choosing among several bidders *)

Section DictOrder.
Context {K V : Type} `{EqDecLaws K}.
Implicit Types (k : K) (v : V) (m : Dict.t K V).

Lemma keys_set_NoDup k v m : NoDup (Dict.keys m) -> NoDup (Dict.keys (Dict.set k v m)).
Proof.
  intros N. destruct (Dict.get k m) as [v0|] eqn:G.
  - rewrite (keys_set_present _ _ _ G). exact N.
  - rewrite (keys_set_absent _ _ _ G).
    apply NoDup_app; [exact N | repeat constructor; intros [] |].
    intros x Hx [<-|[]]. apply in_keys_get in Hx. destruct Hx as [v' Hv'].
    congruence.
Qed.

Lemma In_get k v m : NoDup (Dict.keys m) -> In (k, v) m -> Dict.get k m = Some v.
Proof.
  induction m as [|[k0 v0] m IH]; simpl; intros N I; [contradiction|].
  inversion N as [|x l Hn Hl]; subst.
  destruct I as [E|I].
  - injection E as -> ->. rewrite eqb_refl. reflexivity.
  - destruct (eqb k k0) eqn:E; [|exact (IH Hl I)].
    apply eqb_eq in E; subst k0. exfalso. apply Hn.
    change k with (fst (k, v)). apply in_map. exact I.
Qed.

End DictOrder.

Local Open Scope Q_scope.

(** [min(m, key=m.get)] returns a key of [m] whose value no other value of
    [m] is below. *)
Lemma argmin_from_spec {K} (m : list (K * Q)) : forall (best : K) (bv : Q),
  exists v,
    (argmin_from best bv m = best /\ v = bv \/ In (argmin_from best bv m, v) m)
    /\ v <= bv
    /\ forall k' v', In (k', v') m -> v <= v'.
Proof.
  induction m as [|[k0 v0] m IH]; intros best bv; simpl.
  - exists bv. split; [left; auto|]. split; [apply Qle_refl|]. intros ? ? [].
  - destruct (Qlt_bool v0 bv) eqn:E.
    + apply Qlt_bool_iff in E.
      destruct (IH k0 v0) as [v [Hin [Hle Hall]]]. exists v.
      split; [|split].
      * right. destruct Hin as [[-> ->]|Hin]; [left; reflexivity | right; exact Hin].
      * apply Qlt_le_weak. eapply Qle_lt_trans; eassumption.
      * intros k' v' [E'|I]; [injection E' as <- <-; exact Hle | eauto].
    + apply Qlt_bool_false in E.
      destruct (IH best bv) as [v [Hin [Hle Hall]]]. exists v.
      split; [|split].
      * destruct Hin as [[-> ->]|Hin]; [left; auto | right; right; exact Hin].
      * exact Hle.
      * intros k' v' [E'|I]; [|eauto].
        injection E' as <- <-. eapply Qle_trans; eassumption.
Qed.

Lemma min_by_value_spec {K} (m : list (K * Q)) :
  m <> [] ->
  exists k v, min_by_value m = Ok k /\ In (k, v) m
              /\ forall k' v', In (k', v') m -> v <= v'.
Proof.
  destruct m as [|[k0 v0] m]; [congruence|]. intros _. simpl.
  destruct (argmin_from_spec m k0 v0) as [v [Hin [Hle Hall]]].
  exists (argmin_from k0 v0 m), v. split; [reflexivity|]. split.
  - destruct Hin as [[-> ->]|Hin]; [left; reflexivity | right; exact Hin].
  - intros k' v' [E|I]; [injection E as <- <-; exact Hle | eauto].
Qed.

Local Close Scope Q_scope.

(** [min(l)] returns an element of [l] that is below all the others. *)
Lemma fold_min_spec (l : list Z) : forall x,
  (fold_left Z.min l x = x \/ In (fold_left Z.min l x) l)
  /\ fold_left Z.min l x <= x
  /\ forall y, In y l -> fold_left Z.min l x <= y.
Proof.
  induction l as [|z l IH]; intros x; simpl.
  - split; [left; reflexivity|]. split; [lia | intros ? []].
  - destruct (IH (Z.min x z)) as [Hin [Hle Hall]].
    split; [|split].
    + destruct Hin as [E|I]; [|right; right; exact I].
      rewrite E. destruct (Z.min_spec x z) as [[_ ->]|[_ ->]]; auto.
    + lia.
    + intros y [<-|I]; [lia | auto].
Qed.

Lemma min_Z_spec (l : list Z) (m : Z) :
  min_Z l = Ok m -> In m l /\ forall y, In y l -> m <= y.
Proof.
  destruct l as [|x l]; simpl; [discriminate|]. intros [= <-].
  destruct (fold_min_spec l x) as [Hin [Hle Hall]].
  split.
  - destruct Hin as [->|I]; auto.
  - intros y [<-|I]; auto.
Qed.

Lemma valid_bidder_node W s bs b :
  valid_bidders s bs -> In b bs -> exists bn, bidder_node W s b = Ok bn.
Proof.
  intros Hv Hb. destruct (Hv b Hb) as [_ [tx Hg]].
  unfold bidder_node. rewrite Hg. simpl. eauto.
Qed.

Lemma bidder_time_fun W s fn i v v' :
  bidder_time W s fn i v -> bidder_time W s fn i v' -> v = v'.
Proof. intros [bn [E1 ->]] [bn' [E2 ->]]. congruence. Qed.

(** The two dictionaries [split_bidders] returns: a bidder is a key of
    [initialFares] when it has no ledger entry and of [constraintFares] when
    it has one, with its travel time as value. *)
Lemma split_bidders_spec W s fn : forall bs seen ini0 con0,
  valid_bidders s bs ->
  NoDup (Dict.keys ini0) -> NoDup (Dict.keys con0) ->
  (forall k v, Dict.get k ini0 = Some v <->
     In k seen /\ Dict.mem k (fareAmountConstraint s) = false /\ bidder_time W s fn k v) ->
  (forall k v, Dict.get k con0 = Some v <->
     In k seen /\ Dict.mem k (fareAmountConstraint s) = true /\ bidder_time W s fn k v) ->
  exists ini con,
    split_bidders W s fn bs ini0 con0 = Ok (ini, con)
    /\ NoDup (Dict.keys ini) /\ NoDup (Dict.keys con)
    /\ (forall k v, Dict.get k ini = Some v <->
          In k (seen ++ bs) /\ Dict.mem k (fareAmountConstraint s) = false
          /\ bidder_time W s fn k v)
    /\ (forall k v, Dict.get k con = Some v <->
          In k (seen ++ bs) /\ Dict.mem k (fareAmountConstraint s) = true
          /\ bidder_time W s fn k v).
Proof.
  induction bs as [|b bs IH]; intros seen ini0 con0 Hv Ni Nc Hi Hc.
  - exists ini0, con0. rewrite app_nil_r. simpl. auto.
  - destruct (@valid_bidder_node W s (b :: bs) b Hv (or_introl eq_refl)) as [bn Hbn].
    assert (Hv' : valid_bidders s bs) by (intros x Hx; apply Hv; right; exact Hx).
    assert (Bt : bidder_time W s fn b (travelTime W bn fn)) by (exists bn; auto).
    simpl. rewrite Hbn. cbn [bind].
    replace (seen ++ b :: bs) with ((seen ++ [b]) ++ bs)
      by (rewrite <- app_assoc; reflexivity).
    destruct (Dict.mem b (fareAmountConstraint s)) eqn:Hm.
    + apply IH; [exact Hv' | exact Ni | apply keys_set_NoDup; exact Nc | |].
      * intros k v. rewrite Hi, in_app_iff. simpl. split.
        -- intros [I [M T]]. auto.
        -- intros [[I|[<-|[]]] [M T]]; [auto | congruence].
      * intros k v. destruct (eqb k b) eqn:E.
        -- apply eqb_eq in E; subst k. rewrite get_set_eq, in_app_iff. simpl. split.
           ++ intros [= <-]. auto.
           ++ intros [_ [_ T]]. f_equal. exact (bidder_time_fun Bt T).
        -- apply eqb_neq in E. rewrite get_set_neq by exact E.
           rewrite Hc, in_app_iff. simpl. split.
           ++ intros [I [M T]]. auto.
           ++ intros [[I|[<-|[]]] [M T]]; [auto | congruence].
    + apply IH; [exact Hv' | apply keys_set_NoDup; exact Ni | exact Nc | |].
      * intros k v. destruct (eqb k b) eqn:E.
        -- apply eqb_eq in E; subst k. rewrite get_set_eq, in_app_iff. simpl. split.
           ++ intros [= <-]. auto.
           ++ intros [_ [_ T]]. f_equal. exact (bidder_time_fun Bt T).
        -- apply eqb_neq in E. rewrite get_set_neq by exact E.
           rewrite Hi, in_app_iff. simpl. split.
           ++ intros [I [M T]]. auto.
           ++ intros [[I|[<-|[]]] [M T]]; [auto | congruence].
      * intros k v. rewrite Hc, in_app_iff. simpl. split.
        -- intros [I [M T]]. auto.
        -- intros [[I|[<-|[]]] [M T]]; [auto | congruence].
Qed.

Lemma travel_times_spec W s fn : forall vs seen acc,
  (forall b, In b vs -> exists bn, bidder_node W s b = Ok bn) ->
  NoDup (Dict.keys acc) ->
  (forall k v, Dict.get k acc = Some v <-> In k seen /\ bidder_time W s fn k v) ->
  exists m,
    travel_times W s fn vs acc = Ok m
    /\ NoDup (Dict.keys m)
    /\ forall k v, Dict.get k m = Some v <-> In k (seen ++ vs) /\ bidder_time W s fn k v.
Proof.
  induction vs as [|b vs IH]; intros seen acc Hv Na Ha.
  - exists acc. rewrite app_nil_r. simpl. auto.
  - destruct (Hv b (or_introl eq_refl)) as [bn Hbn].
    assert (Bt : bidder_time W s fn b (travelTime W bn fn)) by (exists bn; auto).
    simpl. rewrite Hbn. cbn [bind].
    replace (seen ++ b :: vs) with ((seen ++ [b]) ++ vs)
      by (rewrite <- app_assoc; reflexivity).
    apply IH.
    + intros x Hx. apply Hv. right; exact Hx.
    + apply keys_set_NoDup; exact Na.
    + intros k v. destruct (eqb k b) eqn:E.
      * apply eqb_eq in E; subst k. rewrite get_set_eq, in_app_iff. simpl. split.
        -- intros [= <-]. auto.
        -- intros [_ T]. f_equal. exact (bidder_time_fun Bt T).
      * apply eqb_neq in E. rewrite get_set_neq by exact E.
        rewrite Ha, in_app_iff. simpl. split.
        -- intros [I T]. auto.
        -- intros [[I|[<-|[]]] T]; [auto | congruence].
Qed.

Lemma stuck_guard_total W s o d : forall bs fn,
  valid_bidders s bs -> exists fn', stuck_guard W s o d bs fn = Ok fn'.
Proof.
  induction bs as [|b bs IH]; intros fn Hv; simpl; [eauto|].
  destruct (@valid_bidder_node W s (b :: bs) b Hv (or_introl eq_refl)) as [bn Hbn].
  rewrite Hbn. cbn [bind]. apply IH. intros x Hx. apply Hv. right; exact Hx.
Qed.

Lemma lowestFares_spec (c : Dict.t Z Z) (m k : Z) :
  contains k (map fst (filter (fun ij => snd ij =? m) c)) = true <-> In (k, m) c.
Proof.
  unfold contains. rewrite existsb_exists. split.
  - intros [x [Hx E]]. apply eqb_eq in E. subst x.
    apply in_map_iff in Hx. destruct Hx as [[k' c'] [E Hf]]. simpl in E. subst k'.
    apply filter_In in Hf. destruct Hf as [Hin Hc]. simpl in Hc.
    apply Z.eqb_eq in Hc. subst c'. exact Hin.
  - intros Hin. exists k. split; [|apply eqb_refl].
    apply in_map_iff. exists (k, m). split; [reflexivity|].
    apply filter_In. split; [exact Hin | simpl; apply Z.eqb_refl].
Qed.

Local Open Scope Q_scope.

(** The veterans' branch.  The winner is a veteran bidder; if some bidder
    holds the minimum of the ledger, the winner holds it too and no bidder
    holding it has a smaller travel time; if no bidder holds it, no bidder at
    all has a smaller travel time than the winner, whatever the counts. *)
Lemma choose_veteran_spec W s fn (con : Dict.t Z Q) :
  fareAmountConstraint s <> [] ->
  con <> [] -> NoDup (Dict.keys con) ->
  (forall k v, Dict.get k con = Some v -> bidder_time W s fn k v) ->
  exists w vw,
    choose_veteran W s fn con = Ok w /\ Dict.get w con = Some vw
    /\ ((exists k, In k (Dict.keys con) /\ holds_ledger_minimum s k) ->
        holds_ledger_minimum s w
        /\ forall k vk, Dict.get k con = Some vk -> holds_ledger_minimum s k -> vw <= vk)
    /\ ((forall k, In k (Dict.keys con) -> ~ holds_ledger_minimum s k) ->
        forall k vk, Dict.get k con = Some vk -> vw <= vk).
Proof.
  intros Hl Hne Nc Hcon. unfold choose_veteran.
  destruct (min_Z (Dict.values (fareAmountConstraint s))) as [m|e] eqn:Hm.
  2:{ destruct (fareAmountConstraint s); [congruence | discriminate]. }
  cbn [bind].
  set (valid := filter _ (Dict.keys con)).
  assert (Hvalid : forall k, In k valid <-> In k (Dict.keys con) /\ holds_ledger_minimum s k).
  { intros k. subst valid. rewrite filter_In, lowestFares_spec. split.
    - intros [I L]. split; [exact I|]. exists m. auto.
    - intros [I [m' [E L]]]. split; [exact I|]. congruence. }
  destruct valid as [|x [|y rest]] eqn:Ev.
  - (* no bidder holds the ledger minimum *)
    change (1 <? Z.of_nat (length (@nil Z)))%Z with false.
    change (0 <? Z.of_nat (length (@nil Z)))%Z with false. cbv iota.
    destruct (min_by_value_spec Hne) as [w [vw [E [Hin Hall]]]].
    exists w, vw. split; [exact E|]. split; [apply In_get; assumption|]. split.
    + intros [k Hk]. apply Hvalid in Hk. contradiction.
    + intros _ k vk G. apply (Hall k). apply get_In. exact G.
  - (* exactly one does *)
    change (1 <? Z.of_nat (length [x]))%Z with false.
    change (0 <? Z.of_nat (length [x]))%Z with true. cbv iota.
    change (getitem [x] 0) with (Ok x).
    destruct (proj1 (Hvalid x) (or_introl eq_refl)) as [Ix Hx].
    destruct (in_keys_get _ _ Ix) as [vx Gx].
    exists x, vx. split; [reflexivity|]. split; [exact Gx|]. split.
    + intros _. split; [exact Hx|]. intros k vk G Hk.
      assert (Ik : In k [x]) by (apply Hvalid; split; [exact (get_in_keys _ _ G) | exact Hk]).
      destruct Ik as [<-|[]]. rewrite Gx in G. injection G as <-. apply Qle_refl.
    + intros Hnone. exfalso. exact (Hnone x Ix Hx).
  - (* several do: the nearest of them *)
    replace (1 <? Z.of_nat (length (x :: y :: rest)))%Z with true
      by (symmetry; apply Z.ltb_lt; simpl length; lia).
    destruct (@travel_times_spec W s fn (x :: y :: rest) [] [])
      as [tm [Et [Nt Ht]]].
    { intros b Hb. apply Hvalid in Hb. destruct Hb as [Ib _].
      destruct (in_keys_get _ _ Ib) as [vb Gb].
      destruct (Hcon b vb Gb) as [bn [Hbn _]]. eauto. }
    { constructor. }
    { intros k v. simpl. split; [discriminate | intros [[] _]]. }
    rewrite Et. cbn [bind].
    assert (Hx : In x (x :: y :: rest)) by (left; reflexivity).
    destruct (proj1 (Hvalid x) Hx) as [Ix Mx].
    destruct (in_keys_get _ _ Ix) as [vx Gx].
    assert (Tne : tm <> []).
    { apply (@get_some_nonempty _ _ _ x vx). apply Ht. split; [exact Hx|].
      exact (Hcon x vx Gx). }
    destruct (min_by_value_spec Tne) as [w [vw [E [Hin Hall]]]].
    apply In_get in Hin; [|exact Nt].
    destruct (proj1 (Ht w vw) Hin) as [Iw Tw]. simpl app in Iw.
    destruct (proj1 (Hvalid w) Iw) as [Kw Mw].
    destruct (in_keys_get _ _ Kw) as [vw' Gw].
    assert (vw' = vw) by (exact (bidder_time_fun (Hcon w vw' Gw) Tw)). subst vw'.
    exists w, vw. split; [exact E|]. split; [exact Gw|]. split.
    + intros _. split; [exact Mw|]. intros k vk G Hk.
      apply (Hall k). apply get_In. apply Ht. split; [|exact (Hcon k vk G)].
      simpl app. apply Hvalid. split; [exact (get_in_keys _ _ G) | exact Hk].
    + intros Hnone. exfalso. exact (Hnone x Ix Mx).
Qed.

Local Close Scope Q_scope.

(** [split_bidders] as [_allocateFare] calls it, on two empty dictionaries. *)
Lemma split_bidders_start W s fn bs :
  valid_bidders s bs ->
  exists ini con,
    split_bidders W s fn bs [] [] = Ok (ini, con)
    /\ NoDup (Dict.keys ini) /\ NoDup (Dict.keys con)
    /\ (forall k v, Dict.get k ini = Some v <->
          In k bs /\ Dict.mem k (fareAmountConstraint s) = false
          /\ bidder_time W s fn k v)
    /\ (forall k v, Dict.get k con = Some v <->
          In k bs /\ Dict.mem k (fareAmountConstraint s) = true
          /\ bidder_time W s fn k v).
Proof.
  intros Hv.
  apply (@split_bidders_spec W s fn bs [] [] [] Hv).
  - constructor.
  - constructor.
  - intros k v; simpl; split; [discriminate | intros [[] _]].
  - intros k v; simpl; split; [discriminate | intros [[] _]].
Qed.

Local Open Scope Q_scope.

(** With several bidders of which one has no ledger entry, the winner has no
    ledger entry, and no bidder without one has a smaller travel time to the
    node the stuck-taxi test left in [fareNode]: first-timers go before
    veterans however near a veteran is. *)
Lemma choose_taxi_first_timer W s fn bs b0 :
  (1 < Z.of_nat (length bs))%Z ->
  valid_bidders s bs ->
  In b0 bs -> Dict.mem b0 (fareAmountConstraint s) = false ->
  exists w vw,
    choose_taxi W s fn bs = Ok w
    /\ In w bs /\ Dict.mem w (fareAmountConstraint s) = false
    /\ bidder_time W s fn w vw
    /\ forall b vb, In b bs -> Dict.mem b (fareAmountConstraint s) = false ->
                    bidder_time W s fn b vb -> vw <= vb.
Proof.
  intros Hlen Hv Hb0 Hm0. unfold choose_taxi.
  rewrite (proj2 (Z.ltb_lt _ _) Hlen).
  destruct (@split_bidders_start W s fn bs Hv) as [ini [con [E [Ni [Nc [Hi Hc]]]]]].
  rewrite E. cbn [bind].
  destruct (@valid_bidder_node W s bs b0 Hv Hb0) as [bn0 Hbn0].
  assert (G0 : Dict.get b0 ini = Some (travelTime W bn0 fn)).
  { apply Hi. split; [exact Hb0|]. split; [exact Hm0|]. exists bn0. auto. }
  destruct ini as [|p ini'] eqn:Ei; [discriminate|]. rewrite <- Ei in *.
  assert (Ine : ini <> []) by (rewrite Ei; discriminate).
  replace (match ini with [] => choose_veteran W s fn con | _ :: _ => min_by_value ini end)
    with (min_by_value ini) by (rewrite Ei; reflexivity).
  destruct (min_by_value_spec Ine) as [w [vw [Em [Hin Hall]]]].
  apply In_get in Hin; [|exact Ni].
  destruct (proj1 (Hi w vw) Hin) as [Iw [Mw Tw]].
  exists w, vw. repeat split; auto.
  intros b vb Ib Mb Tb. apply (Hall b). apply get_In. apply Hi. auto.
Qed.

(** With several bidders that all have a ledger entry, the choice is the
    one of [choose_veteran_spec]. *)
Lemma choose_taxi_veterans W s fn bs :
  (1 < Z.of_nat (length bs))%Z ->
  valid_bidders s bs ->
  (forall b, In b bs -> Dict.mem b (fareAmountConstraint s) = true) ->
  exists w vw,
    choose_taxi W s fn bs = Ok w
    /\ In w bs /\ bidder_time W s fn w vw
    /\ ((exists b, In b bs /\ holds_ledger_minimum s b) ->
        holds_ledger_minimum s w
        /\ forall b vb, In b bs -> holds_ledger_minimum s b ->
                        bidder_time W s fn b vb -> vw <= vb)
    /\ ((forall b, In b bs -> ~ holds_ledger_minimum s b) ->
        forall b vb, In b bs -> bidder_time W s fn b vb -> vw <= vb).
Proof.
  intros Hlen Hv Hvet. unfold choose_taxi.
  rewrite (proj2 (Z.ltb_lt _ _) Hlen).
  destruct (@split_bidders_start W s fn bs Hv) as [ini [con [E [Ni [Nc [Hi Hc]]]]]].
  rewrite E. cbn [bind].
  assert (Ei : ini = []).
  { destruct ini as [|[k v] ini']; [reflexivity|]. exfalso.
    assert (G : Dict.get k ((k, v) :: ini') = Some v) by (cbn [Dict.get]; rewrite eqb_refl; reflexivity).
    apply Hi in G. destruct G as [I [M _]]. rewrite (Hvet k I) in M. discriminate. }
  subst ini.
  destruct bs as [|b1 bs']; [simpl in Hlen; lia|].
  assert (I1 : In b1 (b1 :: bs')) by (left; reflexivity).
  destruct (@valid_bidder_node W s (b1 :: bs') b1 Hv I1) as [bn1 Hbn1].
  assert (G1 : Dict.get b1 con = Some (travelTime W bn1 fn)).
  { apply Hc. split; [exact I1|]. split; [exact (Hvet b1 I1)|]. exists bn1. auto. }
  assert (Lne : fareAmountConstraint s <> []).
  { pose proof (Hvet b1 I1) as M. intros Z. rewrite Z in M. discriminate. }
  destruct (@choose_veteran_spec W s fn con Lne (@get_some_nonempty _ _ _ b1 _ con G1) Nc)
    as [w [vw [Ew [Gw [Hsome Hnone]]]]].
  { intros k v G. apply Hc in G. tauto. }
  destruct (proj1 (Hc w vw) Gw) as [Iw [Mw Tw]].
  exists w, vw. split; [exact Ew|]. split; [exact Iw|]. split; [exact Tw|]. split.
  - intros [b [Ib Mb]].
    destruct Hsome as [Hw Hmin].
    { exists b. split; [|exact Mb].
      destruct (@valid_bidder_node W s (b1 :: bs') b Hv Ib) as [bn Hbn].
      apply (@get_in_keys _ _ _ _ b (travelTime W bn fn)). apply Hc.
      split; [exact Ib|]. split; [exact (Hvet b Ib)|]. exists bn. auto. }
    split; [exact Hw|]. intros b' vb Ib' Mb' Tb'.
    apply (Hmin b'); [|exact Mb']. apply Hc. auto.
  - intros Hno b vb Ib Tb. apply (Hnone) with (k := b).
    + intros k Ik. destruct (in_keys_get _ _ Ik) as [v G].
      apply Hc in G. apply Hno. tauto.
    + apply Hc. auto.
Qed.

Local Close Scope Q_scope.

(** Whatever the stuck-taxi test has left in [fareNode], [_allocateFare]
    commits the bidder that [choose_taxi] returns. *)
Lemma allocateFare_commits W s o d t fare n fn w :
  fare_at (_fareBoard s) o d t = Some fare ->
  getNode W (fst o) (snd o) = Some n ->
  valid_bidders s (bidders fare) ->
  stuck_guard W s o d (bidders fare) (Some n) = Ok fn ->
  choose_taxi W s fn (bidders fare) = Ok w ->
  In w (bidders fare) ->
  exists tx,
    getitem (_taxis s) w = Ok tx
    /\ _allocateFare W s o d t =
       returns
         (mkDispatcher (_parent s) (_revenue s) (_taxis s)
            (update_fare (set_taxi w) o d t (_fareBoard s))
            (count_fare w (fareAmountConstraint s)))
         [Parent.allocateFare o tx].
Proof.
  intros Hf Hn Hv Hg Hc Hw.
  destruct (Hv w Hw) as [H0 [tx Htx]].
  exists tx. split; [exact Htx|].
  unfold _allocateFare. rewrite Hf, Hn.
  assert (T : (0 <? Z.of_nat (length (_taxis s))) = true)
    by (apply Z.ltb_lt; pose proof (getitem_Ok_length _ _ Htx); lia).
  assert (B : (0 <? Z.of_nat (length (_fareBoard s))) = true).
  { apply Z.ltb_lt. unfold fare_at in Hf.
    destruct (_fareBoard s); [discriminate | simpl; lia]. }
  rewrite T, B, Hg. cbn [andb bind]. rewrite Hc.
  unfold commit_fare. rewrite (proj2 (Z.leb_le 0 w) H0). simpl _taxis.
  rewrite Htx. reflexivity.
Qed.

Local Open Scope Q_scope.

(** Fairness priority on the code.  On a fare with several bidders, one of
    which has never been awarded a fare, the allocation goes through and the
    winner is a bidder that has never been awarded a fare, however near the
    veterans are.  Among the first-timers it is one with minimum travel time
    to [fn], the node the stuck-taxi test has left in [fareNode]: the node of
    the origin when the test has not fired. *)
Lemma allocateFare_first_timer_wins W s o d t fare n b0 :
  fare_at (_fareBoard s) o d t = Some fare ->
  getNode W (fst o) (snd o) = Some n ->
  (1 < Z.of_nat (length (bidders fare)))%Z ->
  valid_bidders s (bidders fare) ->
  In b0 (bidders fare) -> Dict.mem b0 (fareAmountConstraint s) = false ->
  exists fn w tx vw,
    stuck_guard W s o d (bidders fare) (Some n) = Ok fn
    /\ In w (bidders fare)
    /\ Dict.mem w (fareAmountConstraint s) = false
    /\ bidder_time W s fn w vw
    /\ (forall b vb, In b (bidders fare) ->
          Dict.mem b (fareAmountConstraint s) = false ->
          bidder_time W s fn b vb -> vw <= vb)
    /\ _allocateFare W s o d t =
       returns
         (mkDispatcher (_parent s) (_revenue s) (_taxis s)
            (update_fare (set_taxi w) o d t (_fareBoard s))
            (count_fare w (fareAmountConstraint s)))
         [Parent.allocateFare o tx].
Proof.
  intros Hf Hn Hlen Hv Hb0 Hm0.
  destruct (@stuck_guard_total W s o d (bidders fare) (Some n) Hv) as [fn Hg].
  destruct (@choose_taxi_first_timer W s fn (bidders fare) b0 Hlen Hv Hb0 Hm0)
    as [w [vw [Hc [Iw [Mw [Tw Hmin]]]]]].
  destruct (@allocateFare_commits W s o d t fare n fn w Hf Hn Hv Hg Hc Iw)
    as [tx [_ Ha]].
  exists fn, w, tx, vw. repeat split; auto.
Qed.

(** The tie-break on the code.  On a fare whose several bidders have all
    been awarded fares, the allocation goes through.  If some bidder holds
    the minimum of the whole ledger, the winner holds it and is a nearest one
    among the bidders that do: two bidders tied at the ledger minimum are
    separated by travel time.  If no bidder holds it, the winner is a nearest
    bidder of all, whatever the counts. *)
Lemma allocateFare_veterans_choice W s o d t fare n :
  fare_at (_fareBoard s) o d t = Some fare ->
  getNode W (fst o) (snd o) = Some n ->
  (1 < Z.of_nat (length (bidders fare)))%Z ->
  valid_bidders s (bidders fare) ->
  (forall b, In b (bidders fare) -> Dict.mem b (fareAmountConstraint s) = true) ->
  exists fn w tx vw,
    stuck_guard W s o d (bidders fare) (Some n) = Ok fn
    /\ In w (bidders fare)
    /\ bidder_time W s fn w vw
    /\ ((exists b, In b (bidders fare) /\ holds_ledger_minimum s b) ->
        holds_ledger_minimum s w
        /\ forall b vb, In b (bidders fare) -> holds_ledger_minimum s b ->
                        bidder_time W s fn b vb -> vw <= vb)
    /\ ((forall b, In b (bidders fare) -> ~ holds_ledger_minimum s b) ->
        forall b vb, In b (bidders fare) -> bidder_time W s fn b vb -> vw <= vb)
    /\ _allocateFare W s o d t =
       returns
         (mkDispatcher (_parent s) (_revenue s) (_taxis s)
            (update_fare (set_taxi w) o d t (_fareBoard s))
            (count_fare w (fareAmountConstraint s)))
         [Parent.allocateFare o tx].
Proof.
  intros Hf Hn Hlen Hv Hvet.
  destruct (@stuck_guard_total W s o d (bidders fare) (Some n) Hv) as [fn Hg].
  destruct (@choose_taxi_veterans W s fn (bidders fare) Hlen Hv Hvet)
    as [w [vw [Hc [Iw [Tw [Hsome Hnone]]]]]].
  destruct (@allocateFare_commits W s o d t fare n fn w Hf Hn Hv Hg Hc Iw)
    as [tx [_ Ha]].
  exists fn, w, tx, vw. repeat split; auto; apply Hsome; assumption.
Qed.

Local Close Scope Q_scope.

(** ** Ledger entries come from allocations only *)

Lemma getitem_app {A} (l : list A) (x : A) (i : Z) (a : A) :
  0 <= i -> getitem l i = Ok a -> getitem (l ++ [x]) i = Ok a.
Proof.
  intros H0. unfold getitem.
  replace (i <? 0) with false by (symmetry; apply Z.ltb_ge; exact H0).
  rewrite (proj2 (Z.leb_le 0 i) H0). cbn [andb].
  destruct (i <? Z.of_nat (length l)) eqn:E; [|discriminate].
  apply Z.ltb_lt in E. rewrite length_app. cbn [length].
  replace (i <? Z.of_nat (length l + 1)) with true by (symmetry; apply Z.ltb_lt; lia).
  rewrite nth_error_app1 by lia. auto.
Qed.

Lemma awards_logged_more s log more :
  awards_logged s log -> awards_logged s (log ++ more).
Proof.
  intros A i c G. destruct (A i c G) as [H0 [o [tx [Hg Hin]]]].
  split; [exact H0|]. exists o, tx. split; [exact Hg|].
  apply in_or_app. left; exact Hin.
Qed.

(** A step that leaves the ledger alone and at most appends to the taxi list
    keeps the property. *)
Lemma awards_logged_frame s s' log more :
  fareAmountConstraint s' = fareAmountConstraint s ->
  (_taxis s' = _taxis s \/ exists x, _taxis s' = _taxis s ++ [x]) ->
  awards_logged s log -> awards_logged s' (log ++ more).
Proof.
  intros El Et A i c G. rewrite El in G.
  destruct (A i c G) as [H0 [o [tx [Hg Hin]]]].
  split; [exact H0|]. exists o, tx. split.
  - destruct Et as [->|[x ->]]; [exact Hg | apply getitem_app; assumption].
  - apply in_or_app. left; exact Hin.
Qed.

Lemma commit_fare_awards_logged s o d t a log :
  awards_logged s log ->
  awards_logged (state (commit_fare s o d t a)) (log ++ calls (commit_fare s o d t a)).
Proof.
  intros A. unfold commit_fare.
  destruct (0 <=? a) eqn:H0; [|apply awards_logged_more; exact A].
  apply Z.leb_le in H0. simpl _taxis.
  destruct (getitem (_taxis s) a) as [tx|e] eqn:Hg.
  - unfold returns. cbn [state calls]. intros i c G.
    cbn [with_fareAmountConstraint with_fareBoard fareAmountConstraint _taxis] in G |- *.
    destruct (eqb i a) eqn:E.
    + apply eqb_eq in E; subst i. split; [exact H0|].
      exists o, tx. split; [exact Hg|]. apply in_or_app. right. left. reflexivity.
    + apply eqb_neq in E.
      assert (G' : Dict.get i (fareAmountConstraint s) = Some c).
      { unfold count_fare in G.
        destruct (Dict.get a (fareAmountConstraint s));
          rewrite get_set_neq in G by exact E; exact G. }
      destruct (A i c G') as [Hi [o' [tx' [Hg' Hin]]]].
      split; [exact Hi|]. exists o', tx'. split; [exact Hg'|].
      apply in_or_app. left; exact Hin.
  - simpl. apply (@awards_logged_frame s _ log []); auto.
Qed.

Lemma allocateFare_awards_logged W s o d t log :
  awards_logged s log ->
  awards_logged (state (_allocateFare W s o d t)) (log ++ calls (_allocateFare W s o d t)).
Proof.
  intros A. unfold _allocateFare.
  destruct (fare_at (_fareBoard s) o d t); [|apply awards_logged_more; exact A].
  destruct (_ && _); [|apply awards_logged_more; exact A].
  destruct (getNode W (fst o) (snd o)); [|apply awards_logged_more; exact A].
  destruct (bind _ _); [|apply awards_logged_more; exact A].
  apply commit_fare_awards_logged; exact A.
Qed.

Lemma tick_fare_awards_logged W s k log :
  awards_logged s log ->
  awards_logged (state (tick_fare W s k)) (log ++ calls (tick_fare W s k)).
Proof.
  intros A. destruct k as [[o d] t]. unfold tick_fare.
  destruct (fare_at (_fareBoard s) o d t) as [fare|]; [|apply awards_logged_more; exact A].
  destruct (Qeq_bool (price fare) 0).
  - destruct (_costFare W fare); [|apply awards_logged_more; exact A].
    simpl. apply (@awards_logged_frame s); auto.
  - destruct (_ && _); [|apply awards_logged_more; exact A].
    apply allocateFare_awards_logged; exact A.
Qed.

Lemma tick_loop_awards_logged W ks : forall s cs log,
  awards_logged s (log ++ cs) ->
  awards_logged (state (tick_loop W ks s cs)) (log ++ calls (tick_loop W ks s cs)).
Proof.
  induction ks as [|k ks IH]; intros s cs log A; simpl; [exact A|].
  pose proof (@tick_fare_awards_logged W s k _ A) as A1.
  rewrite <- app_assoc in A1.
  destruct (raised (tick_fare W s k)); simpl; [exact A1|].
  apply IH; exact A1.
Qed.

Lemma handle_awards_logged s e log :
  awards_logged s log ->
  awards_logged (state (handle s e)) (log ++ calls (handle s e)).
Proof.
  intros A. destruct e; simpl.
  - unfold newFare. destruct (eqb parent (_parent s));
      apply (@awards_logged_frame s); auto.
  - unfold cancelFare.
    destruct (eqb parent (_parent s)); [|apply awards_logged_more; exact A].
    destruct (Dict.get o (_fareBoard s)) as [bd|]; [|apply awards_logged_more; exact A].
    destruct (Dict.get d bd) as [bt|]; [|apply awards_logged_more; exact A].
    destruct (Dict.get t bt) as [fare|].
    + destruct (getitem (_taxis s) (taxi fare));
        apply (@awards_logged_frame s); auto.
    + apply (@awards_logged_frame s); auto.
  - unfold fareBid.
    destruct (contains tx (_taxis s)); [|apply awards_logged_more; exact A].
    destruct (Dict.get o (_fareBoard s)) as [bd|]; [|apply awards_logged_more; exact A].
    destruct (first_open bd (Dict.keys bd)) as [[d t]|];
      [|apply awards_logged_more; exact A].
    destruct (index tx (_taxis s)); apply (@awards_logged_frame s); auto.
  - unfold recvPayment. destruct (eqb (_parent s) parent);
      apply (@awards_logged_frame s); auto.
  - unfold clockTick.
    destruct (eqb (_parent s) parent); [|apply awards_logged_more; exact A].
    apply tick_loop_awards_logged. apply awards_logged_more; exact A.
  - destruct (eqb (_parent s) parent) eqn:E.
    + apply eqb_eq in E; subst parent.
      destruct (handover_bound s o d t tx p) as [i [_ ->]]. simpl.
      apply (@awards_logged_frame s); auto. simpl.
      destruct (contains tx (_taxis s)); eauto.
    + apply eqb_neq in E. rewrite (handover_unbound s o d t tx p E).
      apply awards_logged_more; exact A.
  - unfold addTaxi. destruct (contains tx (_taxis s));
      apply (@awards_logged_frame s); simpl; eauto.
Qed.

Lemma run_awards_logged es : forall s log,
  awards_logged s log -> awards_logged (run s es) (log ++ run_calls s es).
Proof.
  induction es as [|e es IH]; intros s log A; simpl.
  - rewrite app_nil_r. exact A.
  - rewrite app_assoc. apply IH. apply handle_awards_logged. exact A.
Qed.

(** Handed-over taxis over whole runs.  In a state a new dispatcher has
    reached, a known taxi that the world was never told to have been
    allocated a fare (it has received fares through [handover] only, or none
    at all) has no ledger entry under its index, and the bidder split of a
    multi-bidder allocation files it with the first-timers. *)
Lemma never_allocated_is_first_timer parent taxis es tx i :
  let s := run (Dispatcher_init parent taxis) es in
  index tx (_taxis s) = Ok i ->
  (forall o, ~ In (Parent.allocateFare o tx)
                  (run_calls (Dispatcher_init parent taxis) es)) ->
  Dict.mem i (fareAmountConstraint s) = false
  /\ forall W fareNode bs initialFares constraintFares,
       In i bs ->
       split_bidders W s fareNode bs [] [] = Ok (initialFares, constraintFares) ->
       Dict.mem i initialFares = true /\ Dict.mem i constraintFares = false.
Proof.
  intros s Hi Hnever.
  assert (M : Dict.mem i (fareAmountConstraint s) = false).
  { apply mem_false.
    destruct (Dict.get i (fareAmountConstraint s)) as [c|] eqn:G; [|reflexivity].
    exfalso.
    assert (A : awards_logged s ([] ++ run_calls (Dispatcher_init parent taxis) es)).
    { apply run_awards_logged. intros j c' G'. discriminate. }
    destruct (A i c G) as [H0 [o [tx' [Hg Hin]]]].
    apply index_from_spec in Hi. destruct Hi as [_ Hn].
    rewrite Z.sub_0_r in Hn.
    rewrite (getitem_nonneg _ H0 Hn) in Hg. injection Hg as <-.
    exact (Hnever o Hin). }
  split; [exact M|].
  intros W fareNode bs ini con Hin Hs.
  eapply split_bidders_first_timer; [exact M | exact Hs | left; exact Hin | reflexivity].
Qed.

(** ** The lifetime of an entry *)

Lemma cancelFare_other s parent o' d' t' o d t :
  (o, d, t) <> (o', d', t') ->
  fare_at (_fareBoard (state (cancelFare s parent o' d' t'))) o d t
  = fare_at (_fareBoard s) o d t.
Proof.
  intros N. unfold cancelFare.
  destruct (eqb parent (_parent s)); [|reflexivity].
  destruct (Dict.get o' (_fareBoard s)) as [bd|] eqn:Go; [|reflexivity].
  destruct (Dict.get d' bd) as [bt|] eqn:Gd; [|reflexivity].
  destruct (Dict.get t' bt) as [fare|] eqn:Gt.
  - destruct (getitem (_taxis s) (taxi fare)) as [tx|e]; [|reflexivity].
    simpl. rewrite fare_at_prune. unfold fare_at.
    destruct (eqb o o') eqn:Co.
    + apply eqb_eq in Co; subst o'. rewrite get_set_eq, Go.
      destruct (eqb d d') eqn:Cd.
      * apply eqb_eq in Cd; subst d'. rewrite get_set_eq, Gd.
        apply get_del_neq. congruence.
      * apply eqb_neq in Cd. rewrite get_set_neq by exact Cd. reflexivity.
    + apply eqb_neq in Co. rewrite get_set_neq by exact Co. reflexivity.
  - simpl. apply fare_at_prune.
Qed.

Lemma handle_spares s e o d t z :
  spares o d t e -> 0 <= z ->
  assigned_to s o d t z -> assigned_to (state (handle s e)) o d t z.
Proof.
  intros Hs Hz A. destruct e; simpl in Hs; simpl.
  - unfold newFare. destruct (eqb parent (_parent s)); [|exact A].
    destruct A as [f [Hf Ht]]. exists f. simpl.
    rewrite fare_at_insert_other by exact Hs. auto.
  - destruct A as [f [Hf Ht]]. exists f.
    rewrite cancelFare_other by exact Hs. auto.
  - apply fareBid_keeps_taxi; exact A.
  - apply recvPayment_keeps_taxi; exact A.
  - apply clockTick_keeps_taxi; assumption.
  - destruct (eqb (_parent s) parent) eqn:E.
    + apply eqb_eq in E; subst parent.
      destruct (handover_bound s o0 d0 t0 tx p) as [i [_ ->]]. simpl.
      destruct A as [f [Hf Ht]]. exists f. simpl.
      rewrite !fare_at_update_other, fare_at_insert_other by exact Hs. auto.
    + apply eqb_neq in E. rewrite (handover_unbound s o0 d0 t0 tx p E). exact A.
  - unfold addTaxi. destruct (contains tx (_taxis s)); exact A.
Qed.

(** Uniqueness for the whole lifetime of an entry: as long as
    its key is neither cancelled nor registered again, an assigned fare
    keeps its taxi through every event the world can send. *)
Lemma assigned_taxi_for_life (s : Dispatcher) (es : list Event)
  (o d : Coord) (t : Z) (z : Z) :
  0 <= z ->
  Forall (spares o d t) es ->
  assigned_to s o d t z -> assigned_to (run s es) o d t z.
Proof.
  intros Hz Hes. revert s.
  induction Hes as [|e es He Hes IH]; intros s A; simpl; [exact A|].
  apply IH. apply handle_spares; assumption.
Qed.

(** ** Bids on the board are indices of known taxis *)

Lemma fare_at_update_inv g o d t (b : FareBoard) o' d' t' f' :
  fare_at (update_fare g o d t b) o' d' t' = Some f' ->
  exists f, fare_at b o' d' t' = Some f /\ (f' = f \/ f' = g f).
Proof.
  intros H.
  destruct (eqb (o', d', t') (o, d, t)) eqn:E.
  - apply eqb_eq in E. injection E as -> -> ->.
    destruct (fare_at b o d t) as [f|] eqn:Hf.
    + rewrite (fare_at_update_same g _ _ _ _ Hf) in H. injection H as <-. eauto.
    + rewrite (fare_at_update_absent g _ _ _ _ Hf) in H. congruence.
  - apply eqb_neq in E. rewrite (fare_at_update_other g b E) in H. eauto.
Qed.

Lemma valid_bidders_taxis s s' bs :
  (_taxis s' = _taxis s \/ exists x, _taxis s' = _taxis s ++ [x]) ->
  valid_bidders s bs -> valid_bidders s' bs.
Proof.
  intros Et Hv b Hb. destruct (Hv b Hb) as [H0 [tx Hg]].
  split; [exact H0|]. exists tx.
  destruct Et as [->|[x ->]]; [exact Hg | apply getitem_app; assumption].
Qed.

(** A step whose board holds only old entries or old entries changed by a
    function that keeps the bidder list, and whose taxi list has at most
    grown, keeps the property. *)
Lemma bids_valid_step s s' :
  (_taxis s' = _taxis s \/ exists x, _taxis s' = _taxis s ++ [x]) ->
  (forall o d t f', fare_at (_fareBoard s') o d t = Some f' ->
     bidders f' = [] \/
     exists f, fare_at (_fareBoard s) o d t = Some f /\ bidders f' = bidders f) ->
  bids_valid s -> bids_valid s'.
Proof.
  intros Et Hb V o d t f' Hf'.
  destruct (Hb o d t f' Hf') as [E|[f [Hf E]]]; rewrite E.
  - intros b [].
  - apply (@valid_bidders_taxis s s' _ Et). exact (V o d t f Hf).
Qed.

Lemma bids_valid_update g s o d t :
  (forall f, bidders (g f) = bidders f) ->
  bids_valid s ->
  bids_valid (with_fareBoard (update_fare g o d t (_fareBoard s)) s).
Proof.
  intros Hg V. apply (@bids_valid_step s); [left; reflexivity | | exact V].
  intros o' d' t' f' Hf'. right. simpl in Hf'.
  destruct (fare_at_update_inv _ _ _ _ _ _ _ _ Hf') as [f [Hf [->| ->]]];
    exists f; auto.
Qed.

Lemma commit_fare_bids_valid s o d t a :
  bids_valid s -> bids_valid (state (commit_fare s o d t a)).
Proof.
  intros V. unfold commit_fare.
  destruct (0 <=? a); [|exact V].
  pose proof (@bids_valid_update (set_taxi a) s o d t (fun f => eq_refl) V) as V1.
  destruct (getitem _ a); simpl; [|exact V1].
  intros o' d' t' f Hf. exact (V1 o' d' t' f Hf).
Qed.

Lemma allocateFare_bids_valid W s o d t :
  bids_valid s -> bids_valid (state (_allocateFare W s o d t)).
Proof.
  intros V. unfold _allocateFare.
  destruct (fare_at (_fareBoard s) o d t); [|exact V].
  destruct (_ && _); [|exact V].
  destruct (getNode W (fst o) (snd o)); [|exact V].
  destruct (bind _ _); [|exact V].
  apply commit_fare_bids_valid; exact V.
Qed.

Lemma tick_fare_bids_valid W s k :
  bids_valid s -> bids_valid (state (tick_fare W s k)).
Proof.
  intros V. destruct k as [[o d] t]. unfold tick_fare.
  destruct (fare_at (_fareBoard s) o d t) as [fare|]; [|exact V].
  destruct (Qeq_bool (price fare) 0).
  - destruct (_costFare W fare); [|exact V].
    simpl. apply bids_valid_update; [reflexivity | exact V].
  - destruct (_ && _); [|exact V]. apply allocateFare_bids_valid; exact V.
Qed.

Lemma tick_loop_bids_valid W ks : forall s cs,
  bids_valid s -> bids_valid (state (tick_loop W ks s cs)).
Proof.
  induction ks as [|k ks IH]; intros s cs V; simpl; [exact V|].
  pose proof (@tick_fare_bids_valid W s k V) as V1.
  destruct (raised (tick_fare W s k)); [exact V1|]. apply IH; exact V1.
Qed.

Lemma fare_at_insert_inv o d t f (b : FareBoard) o' d' t' f' :
  fare_at (board_insert o d t f b) o' d' t' = Some f' ->
  f' = f \/ fare_at b o' d' t' = Some f'.
Proof.
  intros H.
  destruct (eqb (o', d', t') (o, d, t)) eqn:E.
  - apply eqb_eq in E. injection E as -> -> ->.
    rewrite fare_at_insert_same in H. injection H as <-. auto.
  - apply eqb_neq in E. rewrite (fare_at_insert_other f b E) in H. auto.
Qed.

Lemma handle_bids_valid s e : bids_valid s -> bids_valid (state (handle s e)).
Proof.
  intros V. destruct e; simpl.
  - unfold newFare. destruct (eqb parent (_parent s)); [|exact V].
    apply (@bids_valid_step s); [left; reflexivity | | exact V].
    intros o' d' t' f' Hf'. simpl in Hf'.
    destruct (fare_at_insert_inv _ _ _ _ _ _ _ _ Hf') as [->|Hf]; [left; reflexivity|].
    right. exists f'. auto.
  - apply (@bids_valid_step s); [| | exact V].
    + unfold cancelFare.
      destruct (eqb parent (_parent s)); [|left; reflexivity].
      destruct (Dict.get o (_fareBoard s)) as [bd|]; [|left; reflexivity].
      destruct (Dict.get d bd) as [bt|]; [|left; reflexivity].
      destruct (Dict.get t bt) as [fare|]; [|left; reflexivity].
      destruct (getitem (_taxis s) (taxi fare)); left; reflexivity.
    + intros o' d' t' f' Hf'. right. exists f'. split; [|reflexivity].
      destruct (eqb (o', d', t') (o, d, t)) eqn:E.
      * apply eqb_eq in E. injection E as -> -> ->.
        revert Hf'. unfold cancelFare.
        destruct (eqb parent (_parent s)); [|auto].
        destruct (Dict.get o (_fareBoard s)) as [bd|] eqn:Go; [|auto].
        destruct (Dict.get d bd) as [bt|] eqn:Gd; [|auto].
        destruct (Dict.get t bt) as [fare|] eqn:Gt.
        -- destruct (getitem (_taxis s) (taxi fare)) as [tx|e]; [|auto].
           simpl. rewrite fare_at_prune. unfold fare_at.
           rewrite !get_set_eq, get_del_eq. discriminate.
        -- simpl. rewrite fare_at_prune. auto.
      * apply eqb_neq in E. rewrite cancelFare_other in Hf' by exact E. exact Hf'.
  - unfold fareBid.
    destruct (contains tx (_taxis s)) eqn:C; [|exact V].
    destruct (Dict.get o (_fareBoard s)) as [bd|]; [|exact V].
    destruct (first_open bd (Dict.keys bd)) as [[d t]|]; [|exact V].
    destruct (contains_index _ _ C) as [i [Hi [Hr Hg]]]. rewrite Hi. simpl.
    intros o' d' t' f' Hf'. simpl in Hf'.
    destruct (fare_at_update_inv _ _ _ _ _ _ _ _ Hf') as [f [Hf [->| ->]]].
    + exact (V o' d' t' f Hf).
    + simpl. intros b Hb. apply in_app_or in Hb. destruct Hb as [Hb|[<-|[]]].
      * exact (V o' d' t' f Hf b Hb).
      * split; [lia | eauto].
  - unfold recvPayment. destruct (eqb (_parent s) parent); exact V.
  - unfold clockTick. destruct (eqb (_parent s) parent); [|exact V].
    apply tick_loop_bids_valid; exact V.
  - destruct (eqb (_parent s) parent) eqn:E.
    + apply eqb_eq in E; subst parent.
      destruct (handover_bound s o d t tx p) as [i [_ ->]].
      apply (@bids_valid_step s); [| | exact V].
      * simpl. destruct (contains tx (_taxis s)); eauto.
      * intros o' d' t' f' Hf'. simpl in Hf'.
        destruct (fare_at_update_inv _ _ _ _ _ _ _ _ Hf') as [f1 [Hf1 E1]].
        destruct (fare_at_update_inv _ _ _ _ _ _ _ _ Hf1) as [f2 [Hf2 E2]].
        assert (Eb : bidders f' = bidders f2)
          by (destruct E1 as [->| ->], E2 as [->| ->]; reflexivity).
        destruct (fare_at_insert_inv _ _ _ _ _ _ _ _ Hf2) as [->|Hf]; [left; exact Eb|].
        right. exists f2. auto.
    + apply eqb_neq in E. rewrite (handover_unbound s o d t tx p E). exact V.
  - unfold addTaxi. destruct (contains tx (_taxis s)); [exact V|].
    apply (@bids_valid_step s); [right; exists tx; reflexivity | | exact V].
    intros o' d' t' f' Hf'. right. exists f'. auto.
Qed.

(** In every state a new dispatcher can reach, the bids on the board are
    indices of known taxis: the premise [valid_bidders] of the allocation
    lemmas holds there. *)
Lemma run_bids_valid parent taxis es :
  bids_valid (run (Dispatcher_init parent taxis) es).
Proof.
  assert (G : forall es s, bids_valid s -> bids_valid (run s es)).
  { clear es. induction es as [|e es IH]; intros s V; simpl; [exact V|].
    apply IH, handle_bids_valid; exact V. }
  apply G. intros o d t f Hf. discriminate.
Qed.

(** ** The stuck-taxi test never defers a fare *)

Lemma mem_bidders_dec (c : Dict.t Z Z) (bs : list Z) :
  (exists b, In b bs /\ Dict.mem b c = false)
  \/ (forall b, In b bs -> Dict.mem b c = true).
Proof.
  induction bs as [|b bs IH]; [right; intros ? []|].
  destruct (Dict.mem b c) eqn:M.
  - destruct IH as [[b' [I M']]|All].
    + left. exists b'. split; [right; exact I | exact M'].
    + right. intros x [<-|I]; auto.
  - left. exists b. split; [left; reflexivity | exact M].
Qed.

(** What the allocation step does in every case.  Called on a fare that is
    on the board, whose origin is on the map and whose bidders (at least one)
    are indices of known taxis, [_allocateFare] returns normally and has
    assigned the fare to one of its bidders and told the world, whatever the
    planned paths of the taxis are. *)
Lemma allocateFare_always_allocates W s o d t fare n :
  fare_at (_fareBoard s) o d t = Some fare ->
  getNode W (fst o) (snd o) = Some n ->
  bidders fare <> [] ->
  valid_bidders s (bidders fare) ->
  exists w tx,
    In w (bidders fare)
    /\ _allocateFare W s o d t =
       returns
         (mkDispatcher (_parent s) (_revenue s) (_taxis s)
            (update_fare (set_taxi w) o d t (_fareBoard s))
            (count_fare w (fareAmountConstraint s)))
         [Parent.allocateFare o tx].
Proof.
  intros Hf Hn Hne Hv.
  destruct (bidders fare) as [|b [|b' bs]] eqn:Eb; [congruence| |].
  - destruct (Hv b (or_introl eq_refl)) as [H0 [tx Hg]].
    exists b, tx. split; [left; reflexivity|].
    exact (@allocateFare_single_bidder W s o d t fare b tx n Hf Eb H0 Hg Hn).
  - rewrite <- Eb in *.
    assert (Hlen : 1 < Z.of_nat (length (bidders fare)))
      by (rewrite Eb; simpl length; lia).
    destruct (mem_bidders_dec (fareAmountConstraint s) (bidders fare))
      as [[b0 [I0 M0]]|All].
    + destruct (@allocateFare_first_timer_wins W s o d t fare n b0 Hf Hn Hlen Hv I0 M0)
        as [fn [w [tx [vw [_ [Iw [_ [_ [_ Ha]]]]]]]]].
      exists w, tx. auto.
    + destruct (@allocateFare_veterans_choice W s o d t fare n Hf Hn Hlen Hv All)
        as [fn [w [tx [vw [_ [Iw [_ [_ [_ Ha]]]]]]]]].
      exists w, tx. auto.
Qed.

(** * Further properties of the registry, the ledgers and the tick *)

(** ** Registering and cancelling *)

Section DictRoundTrip.
Context {K V : Type} `{EqDecLaws K}.
Implicit Types (k : K) (v : V) (m : Dict.t K V).

Lemma set_set k v v' m : Dict.set k v (Dict.set k v' m) = Dict.set k v m.
Proof.
  induction m as [|[k0 v0] m IH]; simpl.
  - rewrite eqb_refl. reflexivity.
  - destruct (eqb k k0) eqn:E; simpl.
    + rewrite eqb_refl. reflexivity.
    + rewrite E, IH. reflexivity.
Qed.

Lemma del_set_absent k v m : Dict.get k m = None -> Dict.del k (Dict.set k v m) = m.
Proof.
  induction m as [|[k0 v0] m IH]; simpl.
  - intros _. rewrite eqb_refl. reflexivity.
  - destruct (eqb k k0) eqn:E; [discriminate|].
    intros G. simpl. rewrite E. simpl. rewrite (IH G). reflexivity.
Qed.

End DictRoundTrip.

Lemma getitem_last_nonempty {A} (l : list A) :
  l <> [] -> exists x, getitem l (-1) = Ok x.
Proof.
  intros N. destruct (exists_last N) as [l' [x ->]].
  exists x. apply getitem_last.
Qed.

(** X1. Registering a fare from the bound world puts a fresh entry under its
    key: unpriced, unassigned, without bidders, whether or not the key held
    an entry before (an earlier entry loses its price, its bids and its
    taxi).  No other entry changes, nor do the taxi list, the ledger or the
    revenue, and the world is not called. *)
Theorem newFare_registers_fresh_entry (s : Dispatcher) (o d : Coord) (t : Z) :
  let r := newFare s (_parent s) o d t in
  raised r = None /\ calls r = []
  /\ fare_at (_fareBoard (state r)) o d t = Some (mkFareEntry o d t 0 (-1) [])
  /\ (forall o' d' t', (o', d', t') <> (o, d, t) ->
        fare_at (_fareBoard (state r)) o' d' t' = fare_at (_fareBoard s) o' d' t')
  /\ _taxis (state r) = _taxis s
  /\ fareAmountConstraint (state r) = fareAmountConstraint s
  /\ _revenue (state r) = _revenue s
  /\ _parent (state r) = _parent s.
Proof.
  intros r. subst r. rewrite newFare_bound. simpl.
  repeat split.
  - apply fare_at_insert_same.
  - intros o' d' t' N. apply fare_at_insert_other. exact N.
Qed.

(** Undoing an insertion: deleting the inserted entry and pruning gives the
    board back, entry by entry and in the same order. *)
Lemma board_insert_undo (b : FareBoard) o d t f :
  no_empty_buckets b ->
  fare_at b o d t = None ->
  match Dict.get o (board_insert o d t f b) with
  | Some bd1 =>
      match Dict.get d bd1 with
      | Some bt1 =>
          prune_buckets o d
            (Dict.set o (Dict.set d (Dict.del t bt1) bd1) (board_insert o d t f b)) = b
      | None => False
      end
  | None => False
  end.
Proof.
  intros N Hf. unfold board_insert, fare_at in *.
  destruct (Dict.get o b) as [bd|] eqn:Go.
  - destruct (N o bd Go) as [Nbd Nbt].
    destruct (Dict.get d bd) as [bt|] eqn:Gd.
    + rewrite !get_set_eq.
      rewrite (del_set_absent _ _ _ Hf), !set_set.
      rewrite (set_same _ _ Gd), (set_same _ _ Go).
      apply prune_nothing. exact N.
    + rewrite !get_set_eq, !set_set.
      replace (Dict.del t (Dict.set t f [])) with (@nil (Z * FareEntry))
        by (symmetry; apply del_set_absent; reflexivity).
      unfold prune_buckets. rewrite !get_set_eq.
      cbn [length Z.of_nat Z.eqb]. rewrite set_set, get_set_eq.
      rewrite (del_set_absent _ _ _ Gd), (length_zero_false Nbd).
      apply set_same. exact Go.
  - rewrite !get_set_eq, !set_set.
    replace (Dict.del t (Dict.set t f [])) with (@nil (Z * FareEntry))
      by (symmetry; apply del_set_absent; reflexivity).
    unfold prune_buckets. rewrite !get_set_eq.
    cbn [length Z.of_nat Z.eqb]. rewrite set_set, get_set_eq.
    replace (Dict.del d (Dict.set d [] [])) with (@nil (Coord * Dict.t Z FareEntry))
      by (symmetry; apply del_set_absent; reflexivity).
    cbn [length Z.of_nat Z.eqb].
    apply del_set_absent. exact Go.
Qed.

(** X2. Registering a fare under a key that is not on the board and
    cancelling it again gives back the dispatcher as it was, field by field
    and the board entry by entry in the same order, provided a taxi is known
    (the cancel of an unassigned fare reads [self._taxis[-1]]) and the board
    has no empty bucket. *)
Theorem newFare_then_cancelFare_restores (s : Dispatcher) (o d : Coord) (t : Z) :
  no_empty_buckets (_fareBoard s) ->
  fare_at (_fareBoard s) o d t = None ->
  _taxis s <> [] ->
  raised (cancelFare (state (newFare s (_parent s) o d t)) (_parent s) o d t) = None
  /\ state (cancelFare (state (newFare s (_parent s) o d t)) (_parent s) o d t) = s.
Proof.
  intros N Hf Ht.
  destruct (getitem_last_nonempty Ht) as [tx Hg].
  rewrite newFare_bound. unfold returns. cbn [state].
  pose proof (@board_insert_undo (_fareBoard s) o d t (FareEntry_init o d t) N Hf) as R.
  pose proof (fare_at_insert_same o d t (FareEntry_init o d t) (_fareBoard s)) as F.
  unfold fare_at in F.
  unfold cancelFare. cbn [_parent with_fareBoard _fareBoard _taxis].
  rewrite eqb_refl.
  destruct (Dict.get o (board_insert o d t (FareEntry_init o d t) (_fareBoard s)))
    as [bd1|]; [|contradiction].
  destruct (Dict.get d bd1) as [bt1|]; [|contradiction].
  rewrite F. cbn [taxi FareEntry_init]. rewrite Hg. rewrite R.
  split; [reflexivity | destruct s; reflexivity].
Qed.

Lemma newFare_then_cancelFare_restores_witness :
  raised (cancelFare (state (newFare busy_board 1%nat (4, 0) (9, 0) 7)) 1%nat (4, 0) (9, 0) 7)
  = None
  /\ state (cancelFare (state (newFare busy_board 1%nat (4, 0) (9, 0) 7)) 1%nat (4, 0) (9, 0) 7)
     = busy_board.
Proof.
  apply (@newFare_then_cancelFare_restores busy_board (4, 0) (9, 0) 7).
  - apply run_no_empty. intros o bd G. discriminate.
  - reflexivity.
  - discriminate.
Defined.

(** ** What an event leaves alone *)

(** Case analysis on every test of a method body. *)
Ltac crack :=
  repeat match goal with
         | |- context [match ?x with _ => _ end] => destruct x eqn:?
         end.

Lemma tick_fare_frame W s k :
  _parent (state (tick_fare W s k)) = _parent s
  /\ _taxis (state (tick_fare W s k)) = _taxis s
  /\ _revenue (state (tick_fare W s k)) = _revenue s.
Proof.
  destruct k as [[o d] t].
  unfold tick_fare, _allocateFare, commit_fare. crack; repeat split.
Qed.

Lemma tick_loop_frame W ks : forall s cs,
  _parent (state (tick_loop W ks s cs)) = _parent s
  /\ _taxis (state (tick_loop W ks s cs)) = _taxis s
  /\ _revenue (state (tick_loop W ks s cs)) = _revenue s.
Proof.
  induction ks as [|k ks IH]; intros s cs; simpl; [auto|].
  destruct (tick_fare_frame W s k) as [P [T R]].
  destruct (raised (tick_fare W s k)); simpl; [auto|].
  destruct (IH (state (tick_fare W s k)) (cs ++ calls (tick_fare W s k)))
    as [P' [T' R']].
  rewrite P', T', R'. auto.
Qed.

Lemma clockTick_frame W s parent :
  _parent (state (clockTick W s parent)) = _parent s
  /\ _taxis (state (clockTick W s parent)) = _taxis s
  /\ _revenue (state (clockTick W s parent)) = _revenue s.
Proof.
  unfold clockTick. destruct (eqb (_parent s) parent); [|auto].
  apply tick_loop_frame.
Qed.

(** No event rebinds the dispatcher to another world. *)
Lemma handle_parent s e : _parent (state (handle s e)) = _parent s.
Proof.
  destruct e; simpl; try apply clockTick_frame.
  - unfold newFare; crack; reflexivity.
  - unfold cancelFare; crack; reflexivity.
  - unfold fareBid; crack; reflexivity.
  - unfold recvPayment; crack; reflexivity.
  - unfold handover, newFare; crack; reflexivity.
  - unfold addTaxi; crack; reflexivity.
Qed.

Lemma run_parent es : forall s, _parent (run s es) = _parent s.
Proof.
  induction es as [|e es IH]; intros s; simpl; [reflexivity|].
  rewrite IH. apply handle_parent.
Qed.

(** The taxi list after an event is the list before, or the list before
    with one taxi, not yet on it, added at the end. *)
Lemma handle_taxis s e :
  _taxis (state (handle s e)) = _taxis s
  \/ exists tx, contains tx (_taxis s) = false
                /\ _taxis (state (handle s e)) = _taxis s ++ [tx].
Proof.
  destruct e; simpl; try (left; apply clockTick_frame).
  - left. unfold newFare; crack; reflexivity.
  - left. unfold cancelFare; crack; reflexivity.
  - left. unfold fareBid; crack; reflexivity.
  - left. unfold recvPayment; crack; reflexivity.
  - unfold handover, newFare.
    destruct (eqb (_parent s) parent); [|left; reflexivity].
    destruct (contains tx (_taxis s)) eqn:C.
    + left. crack; reflexivity.
    + right. exists tx. split; [first [exact C | reflexivity]|]. crack; reflexivity.
  - unfold addTaxi. destruct (contains tx (_taxis s)) eqn:C.
    + left; reflexivity.
    + right. exists tx. auto.
Qed.

Lemma contains_In {A} `{EqDecLaws A} (x : A) (l : list A) :
  contains x l = true <-> In x l.
Proof.
  unfold contains. rewrite existsb_exists. split.
  - intros [y [I E]]. apply eqb_eq in E. subst y. exact I.
  - intros I. exists x. split; [exact I | apply eqb_refl].
Qed.

Lemma index_from_app {A} `{EqDecLaws A} (x : A) (l l' : list A) : forall k,
  contains x l = true -> index_from x (l ++ l') k = index_from x l k.
Proof.
  induction l as [|y l IH]; intros k; simpl; [discriminate|].
  destruct (eqb x y); simpl; [reflexivity|]. apply IH.
Qed.

(** X3. Taxis are never removed, replaced or reordered: after any sequence
    of events the taxi list is the old list followed by the taxis that were
    added.  The indices the dispatcher stores in bidder lists, in
    assigned-taxi fields and in the ledger therefore keep denoting the same
    taxi: an index that was valid still yields the same taxi, and a known
    taxi keeps its index. *)
Theorem taxis_only_grow (s : Dispatcher) (es : list Event) :
  exists added,
    _taxis (run s es) = _taxis s ++ added
    /\ (forall i tx, 0 <= i -> getitem (_taxis s) i = Ok tx ->
          getitem (_taxis (run s es)) i = Ok tx)
    /\ (forall tx, contains tx (_taxis s) = true ->
          index tx (_taxis (run s es)) = index tx (_taxis s)).
Proof.
  assert (G : exists added, _taxis (run s es) = _taxis s ++ added).
  { revert s. induction es as [|e es IH]; intros s; simpl.
    - exists []. rewrite app_nil_r. reflexivity.
    - destruct (IH (state (handle s e))) as [l Hl]. rewrite Hl.
      destruct (handle_taxis s e) as [->|[tx [_ ->]]].
      + exists l. reflexivity.
      + exists (tx :: l). rewrite <- app_assoc. reflexivity. }
  destruct G as [added E]. exists added. split; [exact E|]. rewrite E. split.
  - intros i tx H0 Hg. clear E. induction added as [|a added IH] using rev_ind.
    + rewrite app_nil_r. exact Hg.
    + rewrite app_assoc. apply getitem_app; assumption.
  - intros tx C. unfold index. apply index_from_app. exact C.
Qed.

Lemma taxis_only_grow_witness :
  exists added,
    _taxis (run busy_board [AddTaxi 9%nat; Handover 1%nat (7, 0) (8, 0) 2 4%nat 30])
    = _taxis busy_board ++ added
    /\ getitem (_taxis (run busy_board
                          [AddTaxi 9%nat; Handover 1%nat (7, 0) (8, 0) 2 4%nat 30])) 1
       = Ok 6%nat
    /\ index 6%nat (_taxis (run busy_board
                              [AddTaxi 9%nat; Handover 1%nat (7, 0) (8, 0) 2 4%nat 30]))
       = Ok 1.
Proof.
  destruct (taxis_only_grow busy_board
              [AddTaxi 9%nat; Handover 1%nat (7, 0) (8, 0) 2 4%nat 30])
    as [added [E [G I]]].
  exists added. split; [exact E|]. split.
  - apply G; [lia | reflexivity].
  - rewrite I; reflexivity.
Defined.

(** X4. A dispatcher built on a taxi list without repetition never comes to
    know a taxi twice: [addTaxi] and [handover] both look the taxi up before
    they append it. *)
Theorem taxis_stay_distinct (s : Dispatcher) (es : list Event) :
  NoDup (_taxis s) -> NoDup (_taxis (run s es)).
Proof.
  revert s. induction es as [|e es IH]; intros s N; simpl; [exact N|].
  apply IH. destruct (handle_taxis s e) as [->|[tx [C ->]]]; [exact N|].
  apply NoDup_app; [exact N | repeat constructor; intros [] |].
  intros x Hx [<-|[]].
  apply contains_In in Hx. congruence.
Qed.

Lemma taxis_stay_distinct_witness :
  NoDup (_taxis (run (Dispatcher_init 1%nat [5%nat; 6%nat])
                   [AddTaxi 6%nat; Handover 1%nat (7, 0) (8, 0) 2 5%nat 30;
                    AddTaxi 9%nat; AddTaxi 9%nat])).
Proof.
  apply (@taxis_stay_distinct (Dispatcher_init 1%nat [5%nat; 6%nat])).
  simpl. repeat constructor; simpl; intuition discriminate.
Defined.

Lemma displayRevenues_prints W s : Forall is_print (displayRevenues W s).
Proof.
  unfold displayRevenues.
  apply Forall_app; split; [constructor; [exact I | constructor]|].
  apply Forall_app; split; [|constructor; [exact I | constructor]].
  apply Forall_forall. intros c Hc. apply in_map_iff in Hc.
  destruct Hc as [tx [<- _]]. exact I.
Qed.

(** X5. A dispatcher serves one world only.  Fares, cancellations, payments,
    handovers and ticks that carry another world than the one the dispatcher
    was built for change nothing in it, whatever their number and order, and
    the only thing they make it do is print the revenue report of a tick. *)
Theorem foreign_world_is_ignored (s : Dispatcher) (es : list Event) :
  Forall (foreign s) es ->
  run s es = s /\ Forall is_print (run_calls s es).
Proof.
  induction 1 as [|e es F _ IH]; simpl; [split; [reflexivity | constructor]|].
  assert (E : state (handle s e) = s /\ Forall is_print (calls (handle s e))).
  { destruct e; simpl in F; try contradiction;
      assert (N : eqb (_parent s) parent = false)
        by (apply eqb_neq; intros Q; apply F; symmetry; exact Q);
      assert (N' : eqb parent (_parent s) = false) by (apply eqb_neq; exact F);
      cbn [handle].
    - unfold newFare. rewrite N'. split; [reflexivity | constructor].
    - unfold cancelFare. rewrite N'. split; [reflexivity | constructor].
    - unfold recvPayment. rewrite N. split; [reflexivity | constructor].
    - unfold clockTick. rewrite N. split; [reflexivity|].
      apply displayRevenues_prints.
    - unfold handover. rewrite N. split; [reflexivity | constructor]. }
  destruct E as [E C]. rewrite E. destruct IH as [R P]. split; [exact R|].
  apply Forall_app; split; assumption.
Qed.

Lemma foreign_world_is_ignored_witness :
  run busy_board
    [NewFare 2%nat (4, 0) (9, 0) 7; RecvPayment 2%nat 50;
     CancelFare 3%nat (0, 0) (3, 0) 1; ClockTick idle_world 2%nat;
     Handover 2%nat (4, 0) (9, 0) 7 44%nat 30] = busy_board
  /\ Forall is_print
       (run_calls busy_board
          [NewFare 2%nat (4, 0) (9, 0) 7; RecvPayment 2%nat 50;
           CancelFare 3%nat (0, 0) (3, 0) 1; ClockTick idle_world 2%nat;
           Handover 2%nat (4, 0) (9, 0) 7 44%nat 30]).
Proof.
  apply (@foreign_world_is_ignored busy_board).
  repeat constructor; simpl; discriminate.
Defined.

Lemma handle_revenue s e :
  _revenue (state (handle s e))
  = match e with
    | RecvPayment parent amount =>
        if eqb (_parent s) parent then (_revenue s + amount)%Q else _revenue s
    | _ => _revenue s
    end.
Proof.
  destruct e; cbn [handle]; try apply clockTick_frame.
  - unfold newFare; crack; reflexivity.
  - unfold cancelFare; crack; reflexivity.
  - unfold fareBid; crack; reflexivity.
  - unfold recvPayment. destruct (eqb (_parent s) parent); reflexivity.
  - unfold handover, newFare; crack; reflexivity.
  - unfold addTaxi; crack; reflexivity.
Qed.

(** X6. The dispatcher's revenue is the sum of what its own world has paid
    it.  After any sequence of events the revenue is the revenue at the start
    plus the amounts of the payments that came from the dispatcher's world;
    no other method, and no payment from another world, moves it. *)
Theorem revenue_is_sum_of_payments (s : Dispatcher) (es : list Event) :
  (_revenue (run s es) == _revenue s + Qsum (payments_from (_parent s) es))%Q.
Proof.
  revert s. induction es as [|e es IH]; intros s; simpl.
  - unfold Qsum; simpl. ring.
  - eapply Qeq_trans; [exact (IH (state (handle s e)))|].
    rewrite handle_parent, handle_revenue.
    unfold Qsum. rewrite fold_right_app.
    destruct e; cbn [fold_right]; try ring.
    change (eqb (_parent s) parent) with (Nat.eqb (_parent s) parent).
    destruct (Nat.eqb (_parent s) parent); cbn [fold_right]; ring.
Qed.

(** ** The price of a fare *)

Local Open Scope Q_scope.








Local Close Scope Q_scope.

(** ** What a tick does to the board *)

Lemma update_fare_id o d t (b : FareBoard) : update_fare (fun f => f) o d t b = b.
Proof.
  unfold update_fare.
  destruct (Dict.get o b) as [bd|] eqn:Go; [|reflexivity].
  destruct (Dict.get d bd) as [bt|] eqn:Gd; [|reflexivity].
  destruct (Dict.get t bt) as [f|] eqn:Gt; [|reflexivity].
  rewrite (set_same _ _ Gt), (set_same _ _ Gd), (set_same _ _ Go). reflexivity.
Qed.

(** [_costFare] never returns the price 0 that marks an unpriced entry, and
    the only exception it raises is the [TypeError] of its [while] test. *)
Lemma cost_of_time_positive (T p : Q) : cost_of_time T = Ok p -> (0 < p)%Q.
Proof.
  unfold cost_of_time.
  destruct (if Qlt_bool 0 T then _ else _) as [[c|]|e]; cbn [bind];
    [| intros [= <-]; reflexivity | discriminate].
  destruct (Qlt_bool 0 c) eqn:E; intros [= <-]; [|reflexivity].
  apply Qlt_bool_iff; exact E.
Qed.

Lemma cost_samples_raise (T M : Q) : forall js c e,
  cost_samples js T M c = Raise e -> e = TypeError.
Proof.
  induction js as [|i js IH]; intros c e; cbn [cost_samples]; [discriminate|].
  destruct (Qlt_bool _ _); [apply IH|].
  destruct c; [discriminate|]. intros [= <-]; reflexivity.
Qed.

Lemma cost_of_time_raise (T : Q) e : cost_of_time T = Raise e -> e = TypeError.
Proof.
  unfold cost_of_time. destruct (Qlt_bool 0 T).
  - destruct (cost_samples _ _ _ _) as [[c|]|e'] eqn:E; cbn [bind].
    + destruct (Qlt_bool 0 c); discriminate.
    + discriminate.
    + intros [= <-]. exact (cost_samples_raise _ _ _ _ E).
  - cbn [bind]. discriminate.
Qed.

Lemma Qeq_bool_false (a b : Q) : Qeq_bool a b = false -> ~ Qeq a b.
Proof. intros E Q. apply Qeq_bool_iff in Q. congruence. Qed.

(** One visit rewrites the visited entry and nothing else; what it leaves
    there is a [tick_step] of what it found, priced unless the visit
    raised. *)
Lemma tick_fare_board W s o d t :
  exists g,
    _fareBoard (state (tick_fare W s (o, d, t)))
    = update_fare g o d t (_fareBoard s)
    /\ forall f, fare_at (_fareBoard s) o d t = Some f ->
         tick_step W f (g f)
         /\ (raised (tick_fare W s (o, d, t)) = None -> ~ Qeq (price (g f)) 0).
Proof.
  unfold tick_fare.
  destruct (fare_at (_fareBoard s) o d t) as [fare|] eqn:Hf.
  2:{ exists (fun f => f). rewrite update_fare_id. split; [reflexivity|].
      discriminate. }
  destruct (Qeq_bool (price fare) 0) eqn:P.
  - apply Qeq_bool_iff in P.
    destruct (_costFare W fare) as [p|e] eqn:C.
    + exists (set_price p). split; [reflexivity|].
      intros f [= <-]. split; [constructor; assumption|].
      intros _. apply cost_of_time_positive in C. simpl. lra.
    + exists (fun f => f). rewrite update_fare_id. split; [reflexivity|].
      intros f [= <-]. split; [constructor | discriminate].
  - apply Qeq_bool_false in P.
    destruct ((taxi fare <? 0) && _) eqn:A.
    2:{ exists (fun f => f). rewrite update_fare_id. split; [reflexivity|].
        intros f [= <-]. split; [constructor | auto]. }
    apply andb_true_iff in A. destruct A as [A _]. apply Z.ltb_lt in A.
    assert (K : forall r, state r = s ->
              exists g, _fareBoard (state r) = update_fare g o d t (_fareBoard s)
                /\ forall f, Some fare = Some f ->
                     tick_step W f (g f) /\ (raised r = None -> ~ Qeq (price (g f)) 0)).
    { intros r ->. exists (fun f => f). rewrite update_fare_id.
      split; [reflexivity|]. intros f [= <-]. split; [constructor | auto]. }
    unfold _allocateFare. rewrite Hf.
    destruct (_ && _); [|apply K; reflexivity].
    destruct (getNode W (fst o) (snd o)); [|apply K; reflexivity].
    destruct (bind _ _) as [a|e]; [|apply K; reflexivity].
    unfold commit_fare. destruct (0 <=? a); [|apply K; reflexivity].
    exists (set_taxi a). split.
    + destruct (getitem _ a); reflexivity.
    + intros f [= <-]. split; [constructor; assumption | auto].
Qed.

Lemma tick_fare_other W s k k' :
  k' <> k ->
  fare_of (_fareBoard (state (tick_fare W s k))) k' = fare_of (_fareBoard s) k'.
Proof.
  destruct k as [[o d] t], k' as [[o' d'] t']. intros N.
  destruct (tick_fare_board W s o d t) as [g [-> _]].
  apply fare_at_update_other; exact N.
Qed.

Lemma tick_fare_same W s k f :
  fare_of (_fareBoard s) k = Some f ->
  exists f', fare_of (_fareBoard (state (tick_fare W s k))) k = Some f'
             /\ tick_step W f f'
             /\ (raised (tick_fare W s k) = None -> ~ Qeq (price f') 0).
Proof.
  destruct k as [[o d] t]. intros Hf.
  destruct (tick_fare_board W s o d t) as [g [E H]].
  exists (g f). cbn [fare_of]. rewrite E. split.
  - apply fare_at_update_same; exact Hf.
  - apply H; exact Hf.
Qed.

(** A visit neither adds nor removes an entry. *)
Lemma tick_fare_domain W s k k' :
  (exists f', fare_of (_fareBoard (state (tick_fare W s k))) k' = Some f')
  <-> (exists f, fare_of (_fareBoard s) k' = Some f).
Proof.
  destruct (eqb k' k) eqn:E.
  - apply eqb_eq in E; subst k'. split.
    + destruct k as [[o d] t]. intros [f' Hf'].
      destruct (tick_fare_board W s o d t) as [g [Eg _]].
      cbn [fare_of] in Hf'. rewrite Eg in Hf'.
      destruct (fare_at_update_inv _ _ _ _ _ _ _ _ Hf') as [f [Hf _]].
      exists f; exact Hf.
    + intros [f Hf]. destruct (tick_fare_same W s k Hf) as [f' [H _]].
      exists f'; exact H.
  - apply eqb_neq in E. rewrite (tick_fare_other W s E). reflexivity.
Qed.

Lemma tick_loop_raised W ks : forall s cs k,
  raised (tick_loop W (k :: ks) s cs) = None ->
  raised (tick_fare W s k) = None
  /\ tick_loop W (k :: ks) s cs
     = tick_loop W ks (state (tick_fare W s k)) (cs ++ calls (tick_fare W s k)).
Proof.
  intros s cs k. cbn [tick_loop].
  destruct (raised (tick_fare W s k)); [discriminate | auto].
Qed.

Lemma tick_loop_domain W ks : forall s cs k,
  (exists f', fare_of (_fareBoard (state (tick_loop W ks s cs))) k = Some f')
  <-> (exists f, fare_of (_fareBoard s) k = Some f).
Proof.
  induction ks as [|k0 ks IH]; intros s cs k; cbn [tick_loop]; [reflexivity|].
  destruct (raised (tick_fare W s k0)); cbn [state raises].
  - apply tick_fare_domain.
  - rewrite IH. apply tick_fare_domain.
Qed.

(** Every entry of the board is on the list of keys the tick walks. *)
Lemma tick_keys_complete (b : FareBoard) o d t f :
  fare_at b o d t = Some f -> In (o, d, t) (tick_keys b).
Proof.
  intros Hf. destruct (fare_at_inv _ _ _ _ Hf) as [bd [bt [Go [Gd Gt]]]].
  unfold tick_keys. apply in_flat_map. exists o. split.
  - exact (get_in_keys _ _ Go).
  - rewrite Go. apply in_flat_map. exists d. split.
    + exact (get_in_keys _ _ Gd).
    + rewrite Gd. apply in_map. apply sorted_In. exact (get_in_keys _ _ Gt).
Qed.

Lemma tick_step_priced W f f' :
  tick_step W f f' -> ~ Qeq (price f) 0 -> price f' = price f.
Proof. intros [| p Hz _ | w _ _] N; [reflexivity | contradiction | reflexivity]. Qed.

Lemma tick_loop_prices W ks : forall s cs k f',
  raised (tick_loop W ks s cs) = None ->
  fare_of (_fareBoard (state (tick_loop W ks s cs))) k = Some f' ->
  In k ks \/ (exists f, fare_of (_fareBoard s) k = Some f /\ ~ Qeq (price f) 0) ->
  ~ Qeq (price f') 0.
Proof.
  induction ks as [|k0 ks IH]; intros s cs k f' R Hf' H.
  - cbn [tick_loop state returns] in Hf'.
    destruct H as [[]|[f [Hf P]]]. congruence.
  - destruct (@tick_loop_raised W ks s cs k0 R) as [R0 E]. rewrite E in R, Hf'.
    apply (IH _ _ k f' R Hf').
    destruct (eqb k k0) eqn:K.
    + apply eqb_eq in K; subst k0. right.
      assert (D : exists f, fare_of (_fareBoard s) k = Some f).
      { apply (tick_fare_domain W s k k). eapply tick_loop_domain. eauto. }
      destruct D as [f Hf].
      destruct (tick_fare_same W s k Hf) as [f1 [H1 [_ P1]]].
      exists f1. auto.
    + apply eqb_neq in K. destruct H as [[->|I]|[f [Hf P]]];
        [contradiction K; reflexivity | left; exact I |].
      right. exists f. rewrite (tick_fare_other W s K). auto.
Qed.

(** A priced entry keeps its price through the rest of the walk. *)
Lemma tick_loop_price_kept W ks k : forall s cs f,
  fare_of (_fareBoard s) k = Some f ->
  ~ Qeq (price f) 0 ->
  forall f1, fare_of (_fareBoard (state (tick_loop W ks s cs))) k = Some f1 ->
             price f1 = price f.
Proof.
  induction ks as [|k0 ks IH]; intros s cs f H0 P0 f1 H1.
  - cbn [tick_loop state returns] in H1. congruence.
  - cbn [tick_loop] in H1.
    assert (S1 : exists f2, fare_of (_fareBoard (state (tick_fare W s k0))) k
                            = Some f2 /\ price f2 = price f).
    { destruct (eqb k k0) eqn:K.
      - apply eqb_eq in K; subst k0.
        destruct (tick_fare_same W s k H0) as [f2 [H2 [T2 _]]].
        exists f2. split; [exact H2 | exact (tick_step_priced T2 P0)].
      - apply eqb_neq in K. exists f.
        rewrite (tick_fare_other W s K). auto. }
    destruct S1 as [f2 [H2 E2]].
    destruct (raised (tick_fare W s k0)); cbn [state raises] in H1.
    + congruence.
    + rewrite <- E2.
      apply (IH (state (tick_fare W s k0)) (cs ++ calls (tick_fare W s k0)) f2 H2);
        [rewrite E2; exact P0 | exact H1].
Qed.

(** X9. A tick that runs to its end leaves no fare unpriced: every entry on
    the board then carries a non-zero price, the one it had if it had one,
    and the tick has neither added nor removed an entry. *)
Theorem clockTick_prices_every_fare (W : World) (s : Dispatcher) :
  raised (clockTick W s (_parent s)) = None ->
  forall o d t f,
    fare_at (_fareBoard s) o d t = Some f ->
    exists f',
      fare_at (_fareBoard (state (clockTick W s (_parent s)))) o d t = Some f'
      /\ ~ Qeq (price f') 0
      /\ (~ Qeq (price f) 0 -> price f' = price f).
Proof.
  unfold clockTick. rewrite eqb_refl. intros R o d t f Hf.
  set (r := tick_loop W (tick_keys (_fareBoard s)) s (displayRevenues W s)) in *.
  assert (D : exists f', fare_of (_fareBoard (state r)) (o, d, t) = Some f').
  { apply tick_loop_domain. exists f. exact Hf. }
  destruct D as [f' Hf']. exists f'. split; [exact Hf'|]. split.
  - apply (@tick_loop_prices W (tick_keys (_fareBoard s)) s (displayRevenues W s)
             (o, d, t) f' R Hf').
    left. exact (tick_keys_complete _ _ _ _ Hf).
  - intros P. exact (@tick_loop_price_kept W _ (o, d, t) s _ f Hf P f' Hf').
Qed.

Lemma clockTick_prices_every_fare_witness :
  exists f',
    fare_at (_fareBoard (state (clockTick idle_world two_taxis_one_fare 1%nat)))
      (0, 0) (3, 3) 1 = Some f'
    /\ ~ Qeq (price f') 0
    /\ (~ Qeq (price (FareEntry_init (0, 0) (3, 3) 1)) 0 ->
        price f' = price (FareEntry_init (0, 0) (3, 3) 1)).
Proof.
  apply (@clockTick_prices_every_fare idle_world two_taxis_one_fare);
    reflexivity.
Defined.

(** The call [_allocateFare] makes on the world names the taxi whose index
    it has written into the entry. *)
Lemma allocateFare_told W s o d t s' o' tx :
  _allocateFare W s o d t = returns s' [Parent.allocateFare o' tx] ->
  exists a, 0 <= a /\ getitem (_taxis s) a = Ok tx
            /\ _fareBoard s' = update_fare (set_taxi a) o d t (_fareBoard s).
Proof.
  unfold _allocateFare, commit_fare, returns, raises.
  crack; intros E; try discriminate.
  injection E as <- <- <-.
  match goal with H : (0 <=? ?a) = true |- _ =>
    exists a; apply Z.leb_le in H; repeat split; assumption end.
Qed.

(** What one visit of the tick does, case by case, on a board whose bids are
    indices of known taxis. *)
Lemma tick_fare_cases W s o d t f :
  bids_valid s ->
  fare_at (_fareBoard s) o d t = Some f ->
  (Qeq (price f) 0
   /\ ((exists p, _costFare W f = Ok p
          /\ tick_fare W s (o, d, t)
             = returns (with_fareBoard
                          (update_fare (set_price p) o d t (_fareBoard s)) s)
                 [Parent.broadcastFare o d p])
       \/ (_costFare W f = Raise TypeError
           /\ tick_fare W s (o, d, t) = raises s [] TypeError)))
  \/ (~ Qeq (price f) 0 /\ taxi f < 0 /\ bidders f <> []
      /\ exists n w tx,
           getNode W (fst o) (snd o) = Some n
           /\ In w (bidders f) /\ 0 <= w /\ getitem (_taxis s) w = Ok tx
           /\ tick_fare W s (o, d, t)
              = returns
                  (mkDispatcher (_parent s) (_revenue s) (_taxis s)
                     (update_fare (set_taxi w) o d t (_fareBoard s))
                     (count_fare w (fareAmountConstraint s)))
                  [Parent.allocateFare o tx])
  \/ (~ Qeq (price f) 0
      /\ (0 <= taxi f \/ bidders f = [] \/ getNode W (fst o) (snd o) = None)
      /\ tick_fare W s (o, d, t) = returns s []).
Proof.
  intros V Hf. unfold tick_fare. rewrite Hf.
  destruct (Qeq_bool (price f) 0) eqn:P.
  - left. split; [apply Qeq_bool_iff; exact P|].
    destruct (_costFare W f) as [p|e] eqn:C.
    + left. exists p. auto.
    + right. assert (e = TypeError) as -> by (exact (cost_of_time_raise _ C)).
      auto.
  - apply Qeq_bool_false in P. right.
    destruct ((taxi f <? 0) && (0 <? Z.of_nat (length (bidders f)))) eqn:A.
    + apply andb_true_iff in A. destruct A as [A B].
      apply Z.ltb_lt in A. apply Z.ltb_lt in B.
      assert (Hne : bidders f <> []) by (intros E; rewrite E in B; simpl in B; lia).
      destruct (getNode W (fst o) (snd o)) as [n|] eqn:N.
      * left. split; [exact P|]. split; [exact A|]. split; [exact Hne|].
        destruct (@allocateFare_always_allocates W s o d t f n Hf N Hne (V o d t f Hf))
          as [w [tx [Hw E]]].
        destruct (@allocateFare_told W s o d t _ o tx E) as [a [Ha [Hg Hb]]].
        cbn [_fareBoard] in Hb.
        assert (a = w) as ->.
        { pose proof (fare_at_update_same (set_taxi w) o d t (_fareBoard s) Hf) as H1.
          rewrite Hb in H1. rewrite (fare_at_update_same (set_taxi a) _ _ _ _ Hf) in H1.
          injection H1 as H1. exact H1. }
        exists n, w, tx. auto 10.
      * right. split; [exact P|]. split; [auto|].
        unfold _allocateFare. rewrite Hf. cbv zeta. rewrite N.
        destruct (_ && _); reflexivity.
    + right. split; [exact P|]. split; [|reflexivity].
      apply andb_false_iff in A. destruct A as [A|B].
      * left. apply Z.ltb_ge in A. exact A.
      * right; left. apply Z.ltb_ge in B. destruct (bidders f); [reflexivity|].
        simpl in B. lia.
Qed.

(** A priced and assigned entry is left alone by every visit. *)
Lemma tick_fare_settled W s k0 k f :
  fare_of (_fareBoard s) k = Some f ->
  ~ Qeq (price f) 0 -> 0 <= taxi f ->
  fare_of (_fareBoard (state (tick_fare W s k0))) k = Some f.
Proof.
  intros Hf P A. destruct (eqb k k0) eqn:K.
  - apply eqb_eq in K; subst k0.
    destruct (tick_fare_same W s k Hf) as [f' [H [T _]]].
    destruct T as [| p Hz _ | w _ L]; [exact H | contradiction | lia].
  - apply eqb_neq in K. rewrite (tick_fare_other W s K). exact Hf.
Qed.

Lemma tick_loop_settled W ks k f : forall s cs,
  fare_of (_fareBoard s) k = Some f ->
  ~ Qeq (price f) 0 -> 0 <= taxi f ->
  fare_of (_fareBoard (state (tick_loop W ks s cs))) k = Some f.
Proof.
  induction ks as [|k0 ks IH]; intros s cs Hf P A; cbn [tick_loop]; [exact Hf|].
  pose proof (@tick_fare_settled W s k0 k f Hf P A) as H1.
  destruct (raised (tick_fare W s k0)); cbn [state raises]; [exact H1|].
  apply IH; assumption.
Qed.

Lemma tick_loop_calls W ks : forall s cs,
  exists l, calls (tick_loop W ks s cs) = cs ++ l.
Proof.
  induction ks as [|k0 ks IH]; intros s cs; cbn [tick_loop].
  - exists []. rewrite app_nil_r. reflexivity.
  - destruct (raised (tick_fare W s k0)); cbn [calls raises].
    + eexists; reflexivity.
    + destruct (IH (state (tick_fare W s k0)) (cs ++ calls (tick_fare W s k0)))
        as [l ->].
      rewrite <- app_assoc. eexists; reflexivity.
Qed.

Lemma tick_loop_allocates W o d t f n ks : forall s cs,
  bids_valid s ->
  raised (tick_loop W ks s cs) = None ->
  In (o, d, t) ks ->
  fare_at (_fareBoard s) o d t = Some f ->
  ~ Qeq (price f) 0 -> taxi f < 0 -> bidders f <> [] ->
  getNode W (fst o) (snd o) = Some n ->
  exists w tx,
    In w (bidders f) /\ getitem (_taxis s) w = Ok tx
    /\ fare_at (_fareBoard (state (tick_loop W ks s cs))) o d t = Some (set_taxi w f)
    /\ In (Parent.allocateFare o tx) (calls (tick_loop W ks s cs)).
Proof.
  induction ks as [|k0 ks IH]; intros s cs V R I Hf P A B N; [destruct I|].
  destruct (@tick_loop_raised W ks s cs k0 R) as [R0 E]. rewrite E in *.
  destruct (eqb (o, d, t) k0) eqn:K.
  - apply eqb_eq in K; subst k0. clear IH I.
    destruct (@tick_fare_cases W s o d t f V Hf)
      as [[Hz _]|[[_ [_ [_ [n' [w [tx [_ [Hw [W0 [Hg T]]]]]]]]]]|[_ [[L|[L|L]] _]]]];
      [contradiction | | lia | contradiction | congruence].
    exists w, tx. split; [exact Hw|]. split; [exact Hg|].
    rewrite T in *. cbn [state calls returns] in *. split.
    + apply (@tick_loop_settled W ks (o, d, t) (set_taxi w f));
        [| exact P | exact W0].
      cbn [fare_of _fareBoard]. apply fare_at_update_same. exact Hf.
    + match goal with |- In _ (calls (tick_loop W ks ?s1 ?cs1)) =>
        destruct (tick_loop_calls W ks s1 cs1) as [l ->] end.
      apply in_or_app. left. apply in_or_app. right. left. reflexivity.
  - apply eqb_neq in K. destruct I as [I|I]; [symmetry in I; contradiction|].
    destruct (tick_fare_frame W s k0) as [_ [T _]]. rewrite <- T.
    apply IH; try assumption.
    + apply tick_fare_bids_valid; exact V.
    + pose proof (tick_fare_other W s K) as O. cbn [fare_of] in O.
      rewrite O. exact Hf.
Qed.

(** X10. A tick that runs to its end allocates every fare that is ready for
    it.  If the board's bids are indices of known taxis, each entry that was
    priced, unassigned, had at least one bid and has its origin on the map
    comes out of the tick assigned to one of its own bidders, otherwise
    untouched, and the world has been told which taxi got it: the stuck-taxi
    test never makes the tick put a fare off. *)
Theorem clockTick_allocates_open_fares (W : World) (s : Dispatcher)
  (o d : Coord) (t : Z) (f : FareEntry) (n : Node) :
  bids_valid s ->
  raised (clockTick W s (_parent s)) = None ->
  fare_at (_fareBoard s) o d t = Some f ->
  ~ Qeq (price f) 0 -> taxi f < 0 -> bidders f <> [] ->
  getNode W (fst o) (snd o) = Some n ->
  exists w tx,
    In w (bidders f) /\ getitem (_taxis s) w = Ok tx
    /\ fare_at (_fareBoard (state (clockTick W s (_parent s)))) o d t
       = Some (set_taxi w f)
    /\ In (Parent.allocateFare o tx) (calls (clockTick W s (_parent s))).
Proof.
  unfold clockTick. rewrite eqb_refl. intros V R Hf P A B N.
  apply (@tick_loop_allocates W o d t f n); try assumption.
  exact (tick_keys_complete _ _ _ _ Hf).
Qed.

Lemma clockTick_allocates_open_fares_witness :
  exists w tx,
    In w [0; 1; 2] /\ getitem (_taxis three_bids) w = Ok tx
    /\ fare_at (_fareBoard (state (clockTick three_bids_moving three_bids 1%nat)))
         (10, 0) (13, 0) 1
       = Some (set_taxi w (mkFareEntry (10, 0) (13, 0) 1 (264 # 9) (-1) [0; 1; 2]))
    /\ In (Parent.allocateFare (10, 0) tx)
         (calls (clockTick three_bids_moving three_bids 1%nat)).
Proof.
  apply (@clockTick_allocates_open_fares three_bids_moving three_bids
           (10, 0) (13, 0) 1
           (mkFareEntry (10, 0) (13, 0) 1 (264 # 9) (-1) [0; 1; 2]) 10%nat).
  - apply (run_bids_valid 1%nat [5%nat; 6%nat; 7%nat]).
  - reflexivity.
  - reflexivity.
  - discriminate.
  - reflexivity.
  - discriminate.
  - reflexivity.
Defined.

(** ** When a tick fails *)

Lemma costFare_set_taxi W w f : _costFare W (set_taxi w f) = _costFare W f.
Proof. reflexivity. Qed.

Lemma tick_fare_computable W s k :
  prices_computable W s -> prices_computable W (state (tick_fare W s k)).
Proof.
  intros C o d t f' Hf' Hz. destruct k as [[o0 d0] t0].
  destruct (tick_fare_board W s o0 d0 t0) as [g [E H]]. rewrite E in Hf'.
  destruct (fare_at_update_inv _ _ _ _ _ _ _ _ Hf') as [f [Hf [->| ->]]].
  - exact (C o d t f Hf Hz).
  - destruct (eqb (o, d, t) (o0, d0, t0)) eqn:K.
    + apply eqb_eq in K. injection K as -> -> ->.
      destruct (H f Hf) as [T _]. revert Hz.
      destruct T as [| p Hz0 C0 | w P0 A0]; intros Hz.
      * exact (C _ _ _ f Hf Hz).
      * apply cost_of_time_positive in C0. simpl in Hz. lra.
      * rewrite costFare_set_taxi. exact (C _ _ _ f Hf Hz).
    + apply eqb_neq in K.
      rewrite (fare_at_update_other g (_fareBoard s) K) in Hf'.
      assert (Eg : g f = f) by congruence. rewrite Eg in *.
      exact (C o d t f Hf Hz).
Qed.

(** With valid bids, a visit can only fail in [_costFare], and then with a
    [TypeError] and without having changed anything. *)
Lemma tick_fare_raise W s k f e :
  bids_valid s ->
  fare_of (_fareBoard s) k = Some f ->
  raised (tick_fare W s k) = Some e ->
  e = TypeError /\ Qeq (price f) 0 /\ _costFare W f = Raise TypeError.
Proof.
  destruct k as [[o d] t]. intros V Hf.
  destruct (@tick_fare_cases W s o d t f V Hf)
    as [[Hz [[p [_ ->]]|[C ->]]]|[[_ [_ [_ [n [w [tx [_ [_ [_ [_ ->]]]]]]]]]]|[_ [_ ->]]]];
    cbn [raised returns raises]; try discriminate.
  intros [= <-]. auto.
Qed.

Lemma tick_loop_raise W ks : forall s cs e,
  bids_valid s ->
  (forall k, In k ks -> exists f, fare_of (_fareBoard s) k = Some f) ->
  raised (tick_loop W ks s cs) = Some e ->
  e = TypeError /\ ~ prices_computable W s.
Proof.
  induction ks as [|k0 ks IH]; intros s cs e V D; cbn [tick_loop]; [discriminate|].
  destruct (D k0 (or_introl eq_refl)) as [f0 H0].
  destruct (raised (tick_fare W s k0)) as [e0|] eqn:R0; cbn [raised raises].
  - intros [= <-].
    destruct (@tick_fare_raise W s k0 f0 e0 V H0 R0) as [-> [Hz C]].
    split; [reflexivity|]. intros PC. destruct k0 as [[o d] t].
    destruct (PC o d t f0 H0 Hz) as [p Hp]. congruence.
  - intros R.
    destruct (IH (state (tick_fare W s k0)) (cs ++ calls (tick_fare W s k0)) e)
      as [-> N]; try assumption.
    + apply tick_fare_bids_valid; exact V.
    + intros k I. apply tick_fare_domain. apply D. right; exact I.
    + split; [reflexivity|]. intros PC. apply N.
      apply tick_fare_computable; exact PC.
Qed.

Lemma clockTick_raise W s parent e :
  bids_valid s ->
  raised (clockTick W s parent) = Some e ->
  e = TypeError /\ ~ prices_computable W s.
Proof.
  intros V. unfold clockTick. destruct (eqb (_parent s) parent); [|discriminate].
  apply tick_loop_raise; [exact V|].
  intros [[o d] t] I. apply tick_keys_on_board. exact I.
Qed.

(** X11. A tick runs to its end whenever the prices it has to compute can be
    computed.  On a board whose bids are indices of known taxis, if
    [_costFare] returns a price for every unpriced entry, which it does
    unless the estimated travel time lies between 0 and 9/80, then
    [clockTick] raises nothing, whatever the world, the bids and the planned
    paths. *)
Theorem clockTick_completes (W : World) (s : Dispatcher) (parent : WorldRef) :
  bids_valid s -> prices_computable W s ->
  raised (clockTick W s parent) = None.
Proof.
  intros V PC. destruct (raised (clockTick W s parent)) as [e|] eqn:R;
    [|reflexivity].
  destruct (@clockTick_raise W s parent e V R) as [_ N]. contradiction.
Qed.

Lemma clockTick_completes_witness :
  raised (clockTick idle_world two_taxis_one_fare 1%nat) = None.
Proof.
  apply (@clockTick_completes idle_world two_taxis_one_fare 1%nat).
  - apply (run_bids_valid 1%nat [5%nat; 6%nat]).
  - intros o d t f Hf _.
    destruct (fare_at_inv _ _ _ _ Hf) as [bd [bt [Go [Gd Gt]]]].
    apply get_In in Go. destruct Go as [[= <- <-]|[]].
    apply get_In in Gd. destruct Gd as [[= <- <-]|[]].
    apply get_In in Gt. destruct Gt as [[= <- <-]|[]].
    exists 150%Q. reflexivity.
Defined.

(** ** Indices stored in entries denote known taxis *)

Lemma cancelFare_sub s parent o d t o' d' t' f' :
  fare_at (_fareBoard (state (cancelFare s parent o d t))) o' d' t' = Some f' ->
  fare_at (_fareBoard s) o' d' t' = Some f'.
Proof.
  intros Hf'. destruct (eqb (o', d', t') (o, d, t)) eqn:E.
  - apply eqb_eq in E. injection E as -> -> ->.
    revert Hf'. unfold cancelFare.
    destruct (eqb parent (_parent s)); [|auto].
    destruct (Dict.get o (_fareBoard s)) as [bd|] eqn:Go; [|auto].
    destruct (Dict.get d bd) as [bt|] eqn:Gd; [|auto].
    destruct (Dict.get t bt) as [fare|] eqn:Gt.
    + destruct (getitem (_taxis s) (taxi fare)) as [tx|e]; [|auto].
      simpl. rewrite fare_at_prune. unfold fare_at.
      rewrite !get_set_eq, get_del_eq. discriminate.
    + simpl. rewrite fare_at_prune. auto.
  - apply eqb_neq in E. rewrite cancelFare_other in Hf' by exact E. exact Hf'.
Qed.

Lemma taxi_valid_grow (l : list TaxiRef) (x : TaxiRef) (z : Z) :
  z = -1 \/ (0 <= z /\ exists tx, getitem l z = Ok tx) ->
  z = -1 \/ (0 <= z /\ exists tx, getitem (l ++ [x]) z = Ok tx).
Proof.
  intros [E|[H0 [tx Hg]]]; [left; exact E|].
  right. split; [exact H0|]. exists tx. apply getitem_app; assumption.
Qed.

(** A step whose board holds old entries, entries with the old taxi field or
    entries whose taxi field is valid, and whose taxi list has at most grown,
    keeps the property. *)
Lemma taxi_valid_step s s' :
  (_taxis s' = _taxis s \/ exists x, _taxis s' = _taxis s ++ [x]) ->
  (forall o d t f', fare_at (_fareBoard s') o d t = Some f' ->
     (taxi f' = -1 \/ (0 <= taxi f' /\ exists tx, getitem (_taxis s') (taxi f') = Ok tx))
     \/ exists f, fare_at (_fareBoard s) o d t = Some f /\ taxi f' = taxi f) ->
  taxi_fields_valid s -> taxi_fields_valid s'.
Proof.
  intros Et Hb V o d t f' Hf'.
  destruct (Hb o d t f' Hf') as [H|[f [Hf E]]]; [exact H|].
  rewrite E. destruct Et as [->|[x ->]].
  - exact (V o d t f Hf).
  - apply taxi_valid_grow. exact (V o d t f Hf).
Qed.

Lemma tick_fare_taxi_valid W s k :
  bids_valid s -> taxi_fields_valid s ->
  taxi_fields_valid (state (tick_fare W s k)).
Proof.
  intros V TV. destruct k as [[o d] t].
  destruct (fare_at (_fareBoard s) o d t) as [f|] eqn:Hf.
  2:{ unfold tick_fare. rewrite Hf. exact TV. }
  apply (@taxi_valid_step s); [left; apply tick_fare_frame | | exact TV].
  intros o' d' t' f' Hf'.
  destruct (@tick_fare_cases W s o d t f V Hf)
    as [[_ [[p [_ E]]|[_ E]]]|[[_ [_ [_ [n [w [tx [_ [Hw [W0 [Hg E]]]]]]]]]]|[_ [_ E]]]];
    rewrite E in *; cbn [state returns raises _fareBoard _taxis] in *.
  - destruct (fare_at_update_inv _ _ _ _ _ _ _ _ Hf') as [f0 [Hf0 [->| ->]]];
      right; exists f0; auto.
  - right; exists f'; auto.
  - destruct (fare_at_update_inv _ _ _ _ _ _ _ _ Hf') as [f0 [Hf0 [->| ->]]].
    + right; exists f0; auto.
    + left. right. simpl. split; [exact W0|]. exists tx. exact Hg.
  - right; exists f'; auto.
Qed.

Lemma tick_loop_taxi_valid W ks : forall s cs,
  bids_valid s -> taxi_fields_valid s ->
  taxi_fields_valid (state (tick_loop W ks s cs)).
Proof.
  induction ks as [|k ks IH]; intros s cs V TV; cbn [tick_loop]; [exact TV|].
  pose proof (@tick_fare_taxi_valid W s k V TV) as TV1.
  pose proof (@tick_fare_bids_valid W s k V) as V1.
  destruct (raised (tick_fare W s k)); cbn [state raises]; [exact TV1|].
  apply IH; assumption.
Qed.

Lemma handle_taxi_valid s e :
  bids_valid s -> taxi_fields_valid s -> taxi_fields_valid (state (handle s e)).
Proof.
  intros V TV. destruct e; cbn [handle].
  - unfold newFare. destruct (eqb parent (_parent s)); [|exact TV].
    apply (@taxi_valid_step s); [left; reflexivity | | exact TV].
    intros o' d' t' f' Hf'. cbn [state returns _fareBoard with_fareBoard] in Hf'.
    destruct (fare_at_insert_inv _ _ _ _ _ _ _ _ Hf') as [->|Hf];
      [left; left; reflexivity|].
    right. exists f'. auto.
  - apply (@taxi_valid_step s); [| | exact TV].
    + destruct (handle_taxis s (CancelFare parent o d t)) as [E|[x [_ E]]];
        [left; exact E | right; exists x; exact E].
    + intros o' d' t' f' Hf'. right. exists f'. split; [|reflexivity].
      exact (cancelFare_sub _ _ _ _ _ _ _ _ Hf').
  - apply (@taxi_valid_step s); [| | exact TV].
    + destruct (handle_taxis s (FareBid o tx)) as [E|[x [_ E]]];
        [left; exact E | right; exists x; exact E].
    + intros o' d' t' f' Hf'. right. revert Hf'. cbn [handle]. unfold fareBid.
      destruct (contains tx (_taxis s)); [|eauto].
      destruct (Dict.get o (_fareBoard s)) as [bd|]; [|eauto].
      destruct (first_open bd (Dict.keys bd)) as [[d t]|]; [|eauto].
      destruct (index tx (_taxis s)); [|eauto].
      cbn [state returns _fareBoard with_fareBoard]. intros Hf'.
      destruct (fare_at_update_inv _ _ _ _ _ _ _ _ Hf') as [f [Hf [->| ->]]];
        exists f; auto.
  - unfold recvPayment. destruct (eqb (_parent s) parent); exact TV.
  - unfold clockTick. destruct (eqb (_parent s) parent); [|exact TV].
    apply tick_loop_taxi_valid; assumption.
  - destruct (eqb (_parent s) parent) eqn:E.
    + apply eqb_eq in E; subst parent.
      destruct (handover_bound s o d t tx p) as [i [Hi ->]].
      set (l := if contains tx (_taxis s) then _taxis s else _taxis s ++ [tx]) in *.
      assert (C : contains tx l = true).
      { unfold l. destruct (contains tx (_taxis s)) eqn:C0;
          [exact C0 | apply contains_app_r]. }
      destruct (contains_index _ _ C) as [i' [Hi' [Hr Hg]]].
      assert (i' = i) as -> by congruence.
      apply (@taxi_valid_step s); [| | exact TV].
      * cbn [state returns _taxis]. unfold l.
        destruct (contains tx (_taxis s)); eauto.
      * intros o' d' t' f' Hf'. cbn [state returns _fareBoard _taxis] in *.
        destruct (fare_at_update_inv _ _ _ _ _ _ _ _ Hf') as [f1 [Hf1 E1]].
        destruct (fare_at_update_inv _ _ _ _ _ _ _ _ Hf1) as [f2 [Hf2 E2]].
        assert (Et : taxi f' = taxi f2 \/ taxi f' = i)
          by (destruct E1 as [->| ->], E2 as [->| ->]; auto).
        destruct Et as [Et|Et].
        -- destruct (fare_at_insert_inv _ _ _ _ _ _ _ _ Hf2) as [->|Hf].
           ++ left; left. exact Et.
           ++ right. exists f2. auto.
        -- left; right. rewrite Et. split; [lia|]. exists tx. exact Hg.
    + apply eqb_neq in E. rewrite (handover_unbound s o d t tx p E). exact TV.
  - unfold addTaxi. destruct (contains tx (_taxis s)); [exact TV|].
    apply (@taxi_valid_step s); [right; exists tx; reflexivity | | exact TV].
    intros o' d' t' f' Hf'. right. exists f'. auto.
Qed.

Lemma run_indices_valid es : forall s,
  bids_valid s -> taxi_fields_valid s ->
  bids_valid (run s es) /\ taxi_fields_valid (run s es).
Proof.
  induction es as [|e es IH]; intros s V TV; simpl; [auto|].
  apply IH; [apply handle_bids_valid | apply handle_taxi_valid]; assumption.
Qed.

Lemma init_indices_valid parent taxis es :
  bids_valid (run (Dispatcher_init parent taxis) es)
  /\ taxi_fields_valid (run (Dispatcher_init parent taxis) es).
Proof.
  apply run_indices_valid; intros o d t f Hf; discriminate.
Qed.

Lemma getitem_raise {A} (l : list A) (i : Z) e : getitem l i = Raise e -> e = IndexError.
Proof.
  unfold getitem. destruct (_ && _); [destruct (nth_error _ _)|];
    [discriminate | |]; intros [= <-]; reflexivity.
Qed.

(** X12. What can go wrong in a state a new dispatcher can reach.  Of all
    the calls the world makes, two can end in an exception, each in one way:
    a tick, with the [TypeError] of [_costFare], when some unpriced fare has
    a price that cannot be computed; and the cancellation of an unassigned
    fare by a dispatcher that knows no taxi at all, with the [IndexError] of
    the lookup [self._taxis[-1]].  New fares, bids, payments, handovers and
    [addTaxi] never raise, and no index stored in an entry is ever out of
    range. *)
Theorem reachable_failures (parent : WorldRef) (taxis : list TaxiRef)
  (es : list Event) (e : Event) (x : exn) :
  raised (handle (run (Dispatcher_init parent taxis) es) e) = Some x ->
  (exists W p, e = ClockTick W p /\ x = TypeError
               /\ ~ prices_computable W (run (Dispatcher_init parent taxis) es))
  \/ (exists p o d t f,
        e = CancelFare p o d t /\ x = IndexError
        /\ _taxis (run (Dispatcher_init parent taxis) es) = []
        /\ fare_at (_fareBoard (run (Dispatcher_init parent taxis) es)) o d t = Some f
        /\ taxi f = -1).
Proof.
  destruct (init_indices_valid parent taxis es) as [V TV].
  set (s := run (Dispatcher_init parent taxis) es) in *.
  destruct e; cbn [handle].
  - unfold newFare. destruct (eqb parent0 (_parent s)); discriminate.
  - unfold cancelFare. destruct (eqb parent0 (_parent s)); [|discriminate].
    destruct (Dict.get o (_fareBoard s)) as [bd|] eqn:Go; [|discriminate].
    destruct (Dict.get d bd) as [bt|] eqn:Gd; [|discriminate].
    destruct (Dict.get t bt) as [fare|] eqn:Gt; [|discriminate].
    assert (Hf : fare_at (_fareBoard s) o d t = Some fare)
      by (rewrite (@fare_at_intro (_fareBoard s) o d t bd bt Go Gd); exact Gt).
    destruct (getitem (_taxis s) (taxi fare)) as [tx|e0] eqn:Hg; [discriminate|].
    cbn [raised raises]. intros [= <-]. right.
    exists parent0, o, d, t, fare.
    split; [reflexivity|]. split; [exact (getitem_raise _ _ Hg)|].
    destruct (TV o d t fare Hf) as [E|[_ [tx Hg']]]; [|congruence].
    split; [|auto].
    destruct (_taxis s) as [|a l] eqn:El; [reflexivity|]. exfalso.
    assert (N : a :: l <> []) by discriminate.
    destruct (getitem_last_nonempty N) as [y Hy]. rewrite E in Hg. congruence.
  - unfold fareBid. destruct (contains tx (_taxis s)) eqn:C; [|discriminate].
    destruct (Dict.get o (_fareBoard s)) as [bd|]; [|discriminate].
    destruct (first_open bd (Dict.keys bd)) as [[d t]|]; [|discriminate].
    destruct (contains_index _ _ C) as [i [-> _]]. discriminate.
  - unfold recvPayment. destruct (eqb (_parent s) parent0); discriminate.
  - intros R. left. exists W, parent0.
    destruct (@clockTick_raise W s parent0 x V R) as [-> N]. auto.
  - destruct (eqb (_parent s) parent0) eqn:E.
    + apply eqb_eq in E; subst parent0.
      destruct (handover_bound s o d t tx p) as [i [_ ->]]. discriminate.
    + apply eqb_neq in E. rewrite (handover_unbound s o d t tx p E). discriminate.
  - unfold addTaxi. destruct (contains tx (_taxis s)); discriminate.
Qed.

Lemma reachable_failures_witness :
  (exists W p, CancelFare 1%nat (0, 0) (3, 3) 1 = ClockTick W p /\ IndexError = TypeError
               /\ ~ prices_computable W
                      (run (Dispatcher_init 1%nat []) [NewFare 1%nat (0, 0) (3, 3) 1]))
  \/ (exists p o d t f,
        CancelFare 1%nat (0, 0) (3, 3) 1 = CancelFare p o d t /\ IndexError = IndexError
        /\ _taxis (run (Dispatcher_init 1%nat []) [NewFare 1%nat (0, 0) (3, 3) 1]) = []
        /\ fare_at (_fareBoard (run (Dispatcher_init 1%nat [])
                                  [NewFare 1%nat (0, 0) (3, 3) 1])) o d t = Some f
        /\ taxi f = -1).
Proof.
  apply (@reachable_failures 1%nat [] [NewFare 1%nat (0, 0) (3, 3) 1]
           (CancelFare 1%nat (0, 0) (3, 3) 1) IndexError).
  reflexivity.
Defined.

(** ** The ledger of awards *)

Lemma ledger_total_set (i v : Z) (c : Dict.t Z Z) :
  ledger_total (Dict.set i v c)
  = ledger_total c + v - match Dict.get i c with Some n => n | None => 0 end.
Proof.
  unfold ledger_total, Dict.values.
  induction c as [|[k n] c IH]; cbn [Dict.set Dict.get map fold_right snd]; [lia|].
  destruct (eqb i k); cbn [map fold_right snd]; lia.
Qed.

Lemma count_fare_total (i : Z) (c : Dict.t Z Z) :
  ledger_total (count_fare i c) = ledger_total c + 1.
Proof.
  unfold count_fare. destruct (Dict.get i c) as [n|] eqn:G;
    rewrite ledger_total_set, G; lia.
Qed.

Lemma count_fare_get (w i : Z) (c : Dict.t Z Z) n :
  Dict.get i c = Some n ->
  exists n', Dict.get i (count_fare w c) = Some n' /\ n <= n'.
Proof.
  intros G. unfold count_fare. destruct (eqb i w) eqn:E.
  - apply eqb_eq in E; subst w. rewrite G. rewrite get_set_eq.
    exists (n + 1). split; [reflexivity | lia].
  - apply eqb_neq in E. exists n.
    destruct (Dict.get w c); rewrite (get_set_neq _ _ E); split; auto; lia.
Qed.

Lemma awards_app l1 l2 : awards (l1 ++ l2) = awards l1 + awards l2.
Proof. unfold awards. rewrite filter_app, length_app. lia. Qed.

Lemma awards_prints l : Forall is_print l -> awards l = 0.
Proof.
  unfold awards. induction 1 as [|c l P _ IH]; [reflexivity|].
  destruct c; try contradiction. exact IH.
Qed.

(** A visit leaves the ledger alone and reports no allocation, or counts one
    more fare for one index and reports one allocation. *)
Lemma tick_fare_ledger W s k :
  (fareAmountConstraint (state (tick_fare W s k)) = fareAmountConstraint s
   /\ awards (calls (tick_fare W s k)) = 0)
  \/ (exists w, fareAmountConstraint (state (tick_fare W s k))
                = count_fare w (fareAmountConstraint s)
                /\ awards (calls (tick_fare W s k)) = 1).
Proof.
  destruct k as [[o d] t].
  unfold tick_fare, _allocateFare, commit_fare.
  crack; try (left; split; reflexivity).
  right. eexists. split; reflexivity.
Qed.

(** Outside the tick no method writes the ledger or reports an allocation. *)
Lemma handle_ledger_quiet s e :
  (forall W p, e <> ClockTick W p) ->
  fareAmountConstraint (state (handle s e)) = fareAmountConstraint s
  /\ awards (calls (handle s e)) = 0.
Proof.
  intros N. destruct e; cbn [handle].
  - unfold newFare; crack; split; reflexivity.
  - unfold cancelFare; crack; split; reflexivity.
  - unfold fareBid; crack; split; reflexivity.
  - unfold recvPayment; crack; split; reflexivity.
  - contradiction (N W parent). reflexivity.
  - unfold handover, newFare; crack; split; reflexivity.
  - unfold addTaxi; crack; split; reflexivity.
Qed.

Lemma tick_loop_ledger_total W ks : forall s cs,
  ledger_total (fareAmountConstraint (state (tick_loop W ks s cs))) + awards cs
  = ledger_total (fareAmountConstraint s) + awards (calls (tick_loop W ks s cs)).
Proof.
  induction ks as [|k ks IH]; intros s cs; cbn [tick_loop]; [reflexivity|].
  assert (T : ledger_total (fareAmountConstraint (state (tick_fare W s k)))
              = ledger_total (fareAmountConstraint s)
                + awards (calls (tick_fare W s k))).
  { destruct (tick_fare_ledger W s k) as [[-> ->]|[w [-> ->]]];
      [lia | apply count_fare_total]. }
  destruct (raised (tick_fare W s k)); cbn [state calls raises].
  - rewrite awards_app. lia.
  - pose proof (IH (state (tick_fare W s k)) (cs ++ calls (tick_fare W s k))) as H.
    rewrite awards_app in H. lia.
Qed.

Lemma handle_ledger_total s e :
  ledger_total (fareAmountConstraint (state (handle s e)))
  = ledger_total (fareAmountConstraint s) + awards (calls (handle s e)).
Proof.
  destruct e;
    try (match goal with |- context [handle s ?e] =>
           destruct (@handle_ledger_quiet s e) as [-> ->]; [discriminate | lia] end).
  cbn [handle]. unfold clockTick.
  pose proof (awards_prints (displayRevenues_prints W s)) as P.
  destruct (eqb (_parent s) parent); cbn [state calls returns]; [|lia].
  pose proof (tick_loop_ledger_total W (tick_keys (_fareBoard s)) s
                (displayRevenues W s)) as H.
  lia.
Qed.

(** X13. The ledger counts the allocations, all of them and nothing else.
    After any sequence of events the counts of the ledger add up to what
    they added up to at the start plus the number of allocations the
    dispatcher has reported to the world in between; for a new dispatcher,
    that is the number of allocations it has ever reported. *)
Theorem ledger_counts_allocations (s : Dispatcher) (es : list Event) :
  ledger_total (fareAmountConstraint (run s es))
  = ledger_total (fareAmountConstraint s) + awards (run_calls s es).
Proof.
  revert s. induction es as [|e es IH]; intros s; cbn [run_calls].
  - unfold awards; simpl. lia.
  - change (run s (e :: es)) with (run (state (handle s e)) es).
    rewrite IH, handle_ledger_total, awards_app. lia.
Qed.

Lemma handle_ledger_get s e i n :
  Dict.get i (fareAmountConstraint s) = Some n ->
  exists n', Dict.get i (fareAmountConstraint (state (handle s e))) = Some n'
             /\ n <= n'.
Proof.
  intros G.
  assert (Q0 : exists n', Dict.get i (fareAmountConstraint s) = Some n' /\ n <= n')
    by (exists n; split; [exact G | lia]).
  destruct e;
    try (match goal with |- context [handle s ?e] =>
           destruct (@handle_ledger_quiet s e) as [-> _]; [discriminate | exact Q0] end).
  cbn [handle]. unfold clockTick.
  destruct (eqb (_parent s) parent); [|exact Q0].
  clear Q0. revert G. generalize (displayRevenues W s).
  generalize (tick_keys (_fareBoard s)). intros ks. revert s n.
  induction ks as [|k ks IH]; intros s n cs G;
    cbn [tick_loop]; [exists n; split; [exact G | lia]|].
  assert (T : exists n1, Dict.get i (fareAmountConstraint (state (tick_fare W s k)))
                         = Some n1 /\ n <= n1).
  { destruct (tick_fare_ledger W s k) as [[-> _]|[w [-> _]]].
    - exists n; split; [exact G | lia].
    - apply count_fare_get; exact G. }
  destruct T as [n1 [G1 L1]].
  destruct (raised (tick_fare W s k)); cbn [state raises].
  - exists n1; auto.
  - destruct (IH (state (tick_fare W s k)) n1 (cs ++ calls (tick_fare W s k)) G1)
      as [n' [G' L']].
    exists n'. split; [exact G' | lia].
Qed.

(** X14. An award is never taken back.  A taxi index that has a count in
    the ledger keeps one for ever, and the count never goes down: a taxi that
    has once been allocated a fare is never again treated as a first-timer by
    the allocation, which tests exactly the presence of its index in the
    ledger. *)
Theorem ledger_never_shrinks (s : Dispatcher) (es : list Event) (i n : Z) :
  Dict.get i (fareAmountConstraint s) = Some n ->
  exists n', Dict.get i (fareAmountConstraint (run s es)) = Some n'
             /\ n <= n'
             /\ Dict.mem i (fareAmountConstraint (run s es)) = true.
Proof.
  revert s n. induction es as [|e es IH]; intros s n G.
  - exists n. split; [exact G|]. split; [lia|].
    unfold Dict.mem. simpl. rewrite G. reflexivity.
  - destruct (@handle_ledger_get s e i n G) as [n1 [G1 L1]].
    destruct (IH (state (handle s e)) n1 G1) as [n' [G' [L' M']]].
    exists n'. split; [exact G'|]. split; [lia | exact M'].
Qed.

Lemma ledger_never_shrinks_witness :
  exists n', Dict.get 0 (fareAmountConstraint
                           (run one_award (award_round 7 5%nat))) = Some n'
             /\ 1 <= n'
             /\ Dict.mem 0 (fareAmountConstraint
                              (run one_award (award_round 7 5%nat))) = true.
Proof.
  apply (@ledger_never_shrinks one_award (award_round 7 5%nat) 0 1).
  reflexivity.
Defined.

(** ** The life of an entry *)

Lemma evolves_refl f : evolves f f.
Proof.
  repeat split; auto. exists []. rewrite app_nil_r. reflexivity.
Qed.

Lemma evolves_trans f f1 f2 : evolves f f1 -> evolves f1 f2 -> evolves f f2.
Proof.
  intros [O1 [D1 [C1 [P1 [T1 [l1 B1]]]]]] [O2 [D2 [C2 [P2 [T2 [l2 B2]]]]]].
  split; [congruence|]. split; [congruence|]. split; [congruence|].
  split; [|split].
  - intros N. rewrite <- (P1 N). apply P2. rewrite (P1 N). exact N.
  - intros A. destruct (T1 A) as [E1 E1']. rewrite <- E1 in A.
    destruct (T2 A) as [E2 E2']. split; congruence.
  - exists (l1 ++ l2). rewrite B2, B1, app_assoc. reflexivity.
Qed.

Lemma tick_step_evolves W f f' : tick_step W f f' -> evolves f f'.
Proof.
  intros [| p Hz _ | w N A]; [apply evolves_refl | |];
    (repeat split; cbn [set_price set_taxi origin destination calltime price
                        taxi bidders]; auto;
     try contradiction; try lia;
     try (exists []; rewrite app_nil_r; reflexivity)).
Qed.

Lemma tick_fare_evolves W s k0 k f :
  fare_of (_fareBoard s) k = Some f ->
  exists f', fare_of (_fareBoard (state (tick_fare W s k0))) k = Some f'
             /\ evolves f f'.
Proof.
  intros Hf. destruct (eqb k k0) eqn:K.
  - apply eqb_eq in K; subst k0.
    destruct (tick_fare_same W s k Hf) as [f' [H [T _]]].
    exists f'. split; [exact H | exact (tick_step_evolves T)].
  - apply eqb_neq in K. exists f. rewrite (tick_fare_other W s K).
    split; [exact Hf | apply evolves_refl].
Qed.

Lemma tick_loop_evolves W ks k : forall s cs f,
  fare_of (_fareBoard s) k = Some f ->
  exists f', fare_of (_fareBoard (state (tick_loop W ks s cs))) k = Some f'
             /\ evolves f f'.
Proof.
  induction ks as [|k0 ks IH]; intros s cs f Hf; cbn [tick_loop].
  - exists f. split; [exact Hf | apply evolves_refl].
  - destruct (@tick_fare_evolves W s k0 k f Hf) as [f1 [H1 E1]].
    destruct (raised (tick_fare W s k0)); cbn [state raises].
    + exists f1; auto.
    + destruct (IH (state (tick_fare W s k0)) (cs ++ calls (tick_fare W s k0)) f1 H1)
        as [f' [H' E']].
      exists f'. split; [exact H' | exact (evolves_trans E1 E')].
Qed.

Lemma handle_evolves s e o d t f :
  spares o d t e ->
  fare_at (_fareBoard s) o d t = Some f ->
  exists f', fare_at (_fareBoard (state (handle s e))) o d t = Some f'
             /\ evolves f f'.
Proof.
  intros S Hf.
  assert (Same : forall s', _fareBoard s' = _fareBoard s ->
            exists f', fare_at (_fareBoard s') o d t = Some f' /\ evolves f f').
  { intros s' ->. exists f. split; [exact Hf | apply evolves_refl]. }
  destruct e as [p0 o0 d0 t0 | p0 o0 d0 t0 | o0 tx | p0 a | W p0
                | p0 o0 d0 t0 tx pr | tx]; cbn [handle]; cbn [spares] in S.
  - unfold newFare. destruct (eqb p0 (_parent s)); [|apply Same; reflexivity].
    exists f. cbn [state returns _fareBoard with_fareBoard].
    rewrite (fare_at_insert_other _ _ S). split; [exact Hf | apply evolves_refl].
  - exists f. rewrite (cancelFare_other s p0 S).
    split; [exact Hf | apply evolves_refl].
  - unfold fareBid.
    destruct (contains tx (_taxis s)) eqn:C; [|apply Same; reflexivity].
    destruct (Dict.get o0 (_fareBoard s)) as [bd|] eqn:Go; [|apply Same; reflexivity].
    destruct (first_open bd (Dict.keys bd)) as [[d1 t1]|] eqn:F;
      [|apply Same; reflexivity].
    destruct (contains_index _ _ C) as [i [-> _]].
    cbn [state returns _fareBoard with_fareBoard].
    destruct (eqb (o, d, t) (o0, d1, t1)) eqn:K.
    + apply eqb_eq in K. injection K as -> -> ->.
      exists (append_bidder i f). split; [apply fare_at_update_same; exact Hf|].
      destruct (first_open_some _ _ F) as [_ [_ [bt [f0 [_ [Gd [Gt [Ht _]]]]]]]].
      assert (f0 = f) as ->.
      { rewrite (@fare_at_intro (_fareBoard s) o0 d1 t1 bd bt Go Gd) in Hf.
        congruence. }
      repeat split; cbn [append_bidder origin destination calltime price taxi bidders];
        auto; try lia.
      exists [i]. reflexivity.
    + apply eqb_neq in K. exists f.
      rewrite (fare_at_update_other _ _ K). split; [exact Hf | apply evolves_refl].
  - unfold recvPayment. destruct (eqb (_parent s) p0); apply Same; reflexivity.
  - unfold clockTick. destruct (eqb (_parent s) p0); [|apply Same; reflexivity].
    apply (@tick_loop_evolves W _ (o, d, t)). exact Hf.
  - destruct (eqb (_parent s) p0) eqn:E.
    + apply eqb_eq in E; subst p0.
      destruct (handover_bound s o0 d0 t0 tx pr) as [i [_ ->]].
      cbn [state returns _fareBoard]. exists f.
      rewrite !(fare_at_update_other _ _ S), (fare_at_insert_other _ _ S).
      split; [exact Hf | apply evolves_refl].
    + apply eqb_neq in E. rewrite (handover_unbound s o0 d0 t0 tx pr E).
      apply Same; reflexivity.
  - unfold addTaxi. destruct (contains tx (_taxis s)); apply Same; reflexivity.
Qed.

(** X15. The life of an entry.  As long as no event registers or cancels
    its key, an entry stays on the board, and under bids, ticks, payments,
    other fares coming and going, handovers and new taxis its origin,
    destination and call time never change; its price, once it is not 0, is
    never computed again; its bidder list only ever grows at the end; and
    once a taxi is assigned, the taxi and the bidder list are fixed. *)
Theorem fare_entry_lifetime (s : Dispatcher) (es : list Event)
  (o d : Coord) (t : Z) (f : FareEntry) :
  Forall (spares o d t) es ->
  fare_at (_fareBoard s) o d t = Some f ->
  exists f',
    fare_at (_fareBoard (run s es)) o d t = Some f'
    /\ origin f' = origin f /\ destination f' = destination f
    /\ calltime f' = calltime f
    /\ (~ Qeq (price f) 0 -> price f' = price f)
    /\ (0 <= taxi f -> taxi f' = taxi f /\ bidders f' = bidders f)
    /\ exists l, bidders f' = bidders f ++ l.
Proof.
  intros S. revert s f.
  induction S as [|e es Se _ IH]; intros s f Hf.
  - exists f. split; [exact Hf | apply evolves_refl].
  - destruct (@handle_evolves s e o d t f Se Hf) as [f1 [H1 E1]].
    destruct (IH (state (handle s e)) f1 H1) as [f' [H' E']].
    exists f'. split; [exact H' | exact (evolves_trans E1 E')].
Qed.

Lemma fare_entry_lifetime_witness :
  exists f',
    fare_at (_fareBoard (run two_taxis_one_fare
                           [ClockTick idle_world 1%nat; FareBid (0, 0) 6%nat;
                            NewFare 1%nat (1, 0) (2, 0) 4; FareBid (0, 0) 5%nat;
                            ClockTick idle_world 1%nat; FareBid (0, 0) 5%nat;
                            RecvPayment 1%nat 150]))
      (0, 0) (3, 3) 1 = Some f'
    /\ origin f' = (0, 0) /\ destination f' = (3, 3) /\ calltime f' = 1
    /\ (~ Qeq 0 0 -> price f' = 0%Q)
    /\ (0 <= -1 -> taxi f' = -1 /\ bidders f' = [])
    /\ exists l, bidders f' = [] ++ l.
Proof.
  apply (@fare_entry_lifetime two_taxis_one_fare
           [ClockTick idle_world 1%nat; FareBid (0, 0) 6%nat;
            NewFare 1%nat (1, 0) (2, 0) 4; FareBid (0, 0) 5%nat;
            ClockTick idle_world 1%nat; FareBid (0, 0) 5%nat;
            RecvPayment 1%nat 150]
           (0, 0) (3, 3) 1 (FareEntry_init (0, 0) (3, 3) 1)).
  - repeat constructor; simpl; discriminate.
  - reflexivity.
Defined.

Lemma tick_loop_back W ks s cs k f' :
  fare_of (_fareBoard (state (tick_loop W ks s cs))) k = Some f' ->
  exists f, fare_of (_fareBoard s) k = Some f /\ evolves f f'.
Proof.
  intros Hf'.
  assert (D : exists f, fare_of (_fareBoard s) k = Some f)
    by (apply (tick_loop_domain W ks s cs k); eauto).
  destruct D as [f Hf]. exists f. split; [exact Hf|].
  destruct (@tick_loop_evolves W ks k s cs f Hf) as [f'' [H'' E]].
  congruence.
Qed.

Lemma filed_step s s' :
  (forall o d t f', fare_at (_fareBoard s') o d t = Some f' ->
     (origin f' = o /\ destination f' = d /\ calltime f' = t)
     \/ exists f, fare_at (_fareBoard s) o d t = Some f
                  /\ origin f' = origin f /\ destination f' = destination f
                  /\ calltime f' = calltime f) ->
  filed_under_own_key s -> filed_under_own_key s'.
Proof.
  intros H F o d t f' Hf'.
  destruct (H o d t f' Hf') as [E|[f [Hf [-> [-> ->]]]]]; [exact E|].
  exact (F o d t f Hf).
Qed.

Lemma fare_at_insert_cases o d t f (b : FareBoard) o' d' t' f' :
  fare_at (board_insert o d t f b) o' d' t' = Some f' ->
  ((o', d', t') = (o, d, t) /\ f' = f) \/ fare_at b o' d' t' = Some f'.
Proof.
  intros H. destruct (eqb (o', d', t') (o, d, t)) eqn:E.
  - apply eqb_eq in E. left. split; [exact E|].
    injection E as -> -> ->. rewrite fare_at_insert_same in H. congruence.
  - apply eqb_neq in E. rewrite (fare_at_insert_other f b E) in H. auto.
Qed.

Lemma handle_filed s e :
  filed_under_own_key s -> filed_under_own_key (state (handle s e)).
Proof.
  intros F.
  destruct e as [p0 o0 d0 t0 | p0 o0 d0 t0 | o0 tx | p0 a | W p0
                | p0 o0 d0 t0 tx pr | tx]; cbn [handle].
  - unfold newFare. destruct (eqb p0 (_parent s)); [|exact F].
    apply (@filed_step s); [|exact F]. intros o d t f' Hf'.
    cbn [state returns _fareBoard with_fareBoard] in Hf'.
    destruct (fare_at_insert_cases _ _ _ _ _ _ _ _ Hf') as [[[= -> -> ->] ->]|Hf].
    + left. repeat split.
    + right. exists f'. auto.
  - apply (@filed_step s); [|exact F]. intros o d t f' Hf'.
    right. exists f'. split; [exact (cancelFare_sub _ _ _ _ _ _ _ _ Hf') | auto].
  - apply (@filed_step s); [|exact F]. intros o d t f'. unfold fareBid.
    destruct (contains tx (_taxis s)); [|right; eauto].
    destruct (Dict.get o0 (_fareBoard s)) as [bd|]; [|right; eauto].
    destruct (first_open bd (Dict.keys bd)) as [[d1 t1]|]; [|right; eauto].
    destruct (index tx (_taxis s)); [|right; eauto].
    cbn [state returns _fareBoard with_fareBoard]. intros Hf'. right.
    destruct (fare_at_update_inv _ _ _ _ _ _ _ _ Hf') as [f [Hf [->| ->]]];
      exists f; auto.
  - unfold recvPayment. destruct (eqb (_parent s) p0); exact F.
  - unfold clockTick. destruct (eqb (_parent s) p0); [|exact F].
    apply (@filed_step s); [|exact F]. intros o d t f' Hf'. right.
    destruct (@tick_loop_back W _ s _ (o, d, t) f' Hf') as [f [Hf [O [D [C _]]]]].
    exists f. auto.
  - destruct (eqb (_parent s) p0) eqn:E.
    + apply eqb_eq in E; subst p0.
      destruct (handover_bound s o0 d0 t0 tx pr) as [i [_ ->]].
      apply (@filed_step s); [|exact F]. intros o d t f' Hf'.
      cbn [state returns _fareBoard] in Hf'.
      destruct (fare_at_update_inv _ _ _ _ _ _ _ _ Hf') as [f1 [Hf1 E1]].
      destruct (fare_at_update_inv _ _ _ _ _ _ _ _ Hf1) as [f2 [Hf2 E2]].
      assert (E3 : origin f' = origin f2 /\ destination f' = destination f2
                   /\ calltime f' = calltime f2)
        by (destruct E1 as [->| ->], E2 as [->| ->]; repeat split).
      destruct (fare_at_insert_cases _ _ _ _ _ _ _ _ Hf2) as [[[= -> -> ->] ->]|Hf].
      * left. exact E3.
      * right. exists f2. split; [exact Hf | exact E3].
    + apply eqb_neq in E. rewrite (handover_unbound s o0 d0 t0 tx pr E). exact F.
  - unfold addTaxi. destruct (contains tx (_taxis s)); exact F.
Qed.

(** X16. In every state a new dispatcher can reach, an entry is filed under
    its own origin, destination and call time.  [_costFare] reads the origin
    and the destination from the entry while the tick and the allocation
    address it by its key; the two always agree, so the price computed for
    an entry is the price of the ride its key names. *)
Theorem entries_filed_under_own_key (parent : WorldRef) (taxis : list TaxiRef)
  (es : list Event) (W : World) (o d : Coord) (t : Z) (f : FareEntry) :
  fare_at (_fareBoard (run (Dispatcher_init parent taxis) es)) o d t = Some f ->
  origin f = o /\ destination f = d /\ calltime f = t
  /\ _costFare W f
     = cost_of_time (travelTime W (getNode W (fst o) (snd o))
                                  (getNode W (fst d) (snd d))).
Proof.
  assert (G : forall es s, filed_under_own_key s -> filed_under_own_key (run s es)).
  { clear. induction es as [|e es IH]; intros s F; simpl; [exact F|].
    apply IH, handle_filed; exact F. }
  intros Hf.
  assert (F0 : filed_under_own_key (Dispatcher_init parent taxis))
    by (intros o' d' t' f' H; discriminate H).
  destruct (G es _ F0 o d t f Hf) as [O [D C]].
  repeat split; try assumption.
  unfold _costFare. rewrite O, D. reflexivity.
Qed.

Lemma entries_filed_under_own_key_witness :
  origin (mkFareEntry (10, 0) (13, 0) 1 (264 # 9) (-1) [0; 1; 2]) = (10, 0)
  /\ destination (mkFareEntry (10, 0) (13, 0) 1 (264 # 9) (-1) [0; 1; 2]) = (13, 0)
  /\ calltime (mkFareEntry (10, 0) (13, 0) 1 (264 # 9) (-1) [0; 1; 2]) = 1
  /\ _costFare idle_world (mkFareEntry (10, 0) (13, 0) 1 (264 # 9) (-1) [0; 1; 2])
     = cost_of_time (travelTime idle_world (getNode idle_world 10 0)
                                           (getNode idle_world 13 0)).
Proof.
  apply (@entries_filed_under_own_key 1%nat [5%nat; 6%nat; 7%nat]
           (award_round 20 7%nat ++
            [NewFare 1%nat (10, 0) (13, 0) 1; ClockTick idle_world 1%nat;
             FareBid (10, 0) 5%nat; FareBid (10, 0) 6%nat; FareBid (10, 0) 7%nat])
           idle_world (10, 0) (13, 0) 1).
  reflexivity.
Defined.

(** X17. What a handover leaves on the board.  Called by the dispatcher's
    own world, [handover] never raises and tells the world nothing; the taxi
    is known afterwards, at most appended to the end of the list; the key
    holds an entry with the price handed over, the index of that taxi as
    assigned taxi and no bids, whatever was filed under the key before; every
    other entry and the revenue are as they were. *)
Theorem handover_installs_assigned_fare (s : Dispatcher) (o d : Coord) (t : Z)
  (tx : TaxiRef) (p : Q) :
  raised (handover s (_parent s) o d t tx p) = None
  /\ calls (handover s (_parent s) o d t tx p) = []
  /\ exists i,
       index tx (_taxis (state (handover s (_parent s) o d t tx p))) = Ok i
       /\ getitem (_taxis (state (handover s (_parent s) o d t tx p))) i = Ok tx
       /\ fare_at (_fareBoard (state (handover s (_parent s) o d t tx p))) o d t
          = Some (mkFareEntry o d t p i [])
       /\ (forall o' d' t', (o', d', t') <> (o, d, t) ->
             fare_at (_fareBoard (state (handover s (_parent s) o d t tx p))) o' d' t'
             = fare_at (_fareBoard s) o' d' t')
       /\ (_taxis (state (handover s (_parent s) o d t tx p)) = _taxis s
           \/ (contains tx (_taxis s) = false
               /\ _taxis (state (handover s (_parent s) o d t tx p))
                  = _taxis s ++ [tx]))
       /\ _revenue (state (handover s (_parent s) o d t tx p)) = _revenue s.
Proof.
  destruct (handover_bound s o d t tx p) as [i [Hi ->]].
  cbn [raised calls state returns _taxis _fareBoard _revenue].
  split; [reflexivity|]. split; [reflexivity|]. exists i.
  set (l := if contains tx (_taxis s) then _taxis s else _taxis s ++ [tx]) in *.
  assert (C : contains tx l = true).
  { unfold l. destruct (contains tx (_taxis s)) eqn:C0;
      [exact C0 | apply contains_app_r]. }
  destruct (contains_index _ _ C) as [i' [Hi' [_ Hg]]].
  assert (i' = i) as -> by congruence.
  split; [exact Hi|]. split; [exact Hg|]. split; [|split; [|split]].
  - rewrite (fare_at_update_same (set_price p) o d t _
               (fare_at_update_same (set_taxi i) o d t _
                  (fare_at_insert_same o d t (FareEntry_init o d t) (_fareBoard s)))).
    reflexivity.
  - intros o' d' t' N.
    rewrite !(fare_at_update_other _ _ N). apply fare_at_insert_other; exact N.
  - unfold l. destruct (contains tx (_taxis s)); auto.
  - reflexivity.
Qed.

(** ** The revenue report *)

Lemma fold_left_Qplus (g : TaxiRef -> Q) (l : list TaxiRef) : forall a : Q,
  Qeq (fold_left (fun acc tx => (acc + g tx)%Q) l a)
      (a + Qsum (map g l))%Q.
Proof.
  induction l as [|x l IH]; intros a; cbn [fold_left map].
  - unfold Qsum; simpl. ring.
  - rewrite IH. unfold Qsum. cbn [fold_right]. ring.
Qed.

(** X18. Every tick starts with the revenue report, whichever world sent it
    and whether or not it then fails: one line for the dispatcher, one line
    per known taxi in the order of the taxi list, and a total, which is the
    dispatcher's revenue plus the revenues of all its taxis. *)
Theorem clockTick_reports_revenues (W : World) (s : Dispatcher) (parent : WorldRef) :
  exists total rest,
    calls (clockTick W s parent)
    = Parent.printed (DispatcherRevenueMsg (_revenue s))
      :: map (fun tx => Parent.printed (TaxiRevenueMsg (number W tx) (taxi_revenue W tx)))
           (_taxis s)
      ++ Parent.printed (TotalRevenueMsg total) :: rest
    /\ Qeq total (_revenue s + Qsum (map (taxi_revenue W) (_taxis s)))%Q.
Proof.
  exists (fold_left (fun acc tx => (acc + taxi_revenue W tx)%Q) (_taxis s)
            (0 + _revenue s)%Q).
  assert (P : exists rest, calls (clockTick W s parent) = displayRevenues W s ++ rest).
  { unfold clockTick. destruct (eqb (_parent s) parent).
    - apply tick_loop_calls.
    - exists []. rewrite app_nil_r. reflexivity. }
  destruct P as [rest ->]. exists rest. split.
  - unfold displayRevenues. cbn [app]. rewrite <- app_assoc. reflexivity.
  - rewrite fold_left_Qplus. ring.
Qed.

(** * The service map *)

Lemma neighbour_dict_spec P coords node : forall ns acc,
  Forall (on_map P) ns ->
  exists nd,
    neighbour_dict P coords node ns acc = inr nd
    /\ forall c,
         match last_neighbour c ns with
         | Some l =>
             exists nc, getNode (atlas_world P) (fst c) (snd c) = Some nc
                        /\ Dict.get c nd = Some (l, distance2Node P node nc)
         | None => Dict.get c nd = Dict.get c acc
         end.
Proof.
  induction ns as [|n ns IH]; intros acc F.
  - exists acc. split; [reflexivity|]. intros c. reflexivity.
  - inversion F as [|n' ns' Hn Hns]; subst. unfold on_map in Hn.
    cbn [neighbour_dict].
    destruct (getNode (atlas_world P) (snd (fst n)) (snd n)) as [nn|] eqn:G;
      [|contradiction].
    destruct (IH (Dict.set (snd (fst n), snd n)
                    (fst (fst n), distance2Node P node nn) acc) Hns)
      as [nd [E H]].
    exists nd. split; [exact E|]. intros c. specialize (H c).
    cbn [last_neighbour]. destruct (last_neighbour c ns) as [l|]; [exact H|].
    destruct (eqb c (snd (fst n), snd n)) eqn:K.
    + apply eqb_eq in K; subst c. exists nn. split; [exact G|].
      rewrite H. apply get_set_eq.
    + apply eqb_neq in K. rewrite H. apply get_set_neq. exact K.
Qed.

Lemma neighbour_dict_fail P coords node : forall ns acc e,
  neighbour_dict P coords node ns acc = inl e ->
  exists pre n post,
    ns = pre ++ n :: post /\ e = NoSuchNeighbour coords n
    /\ getNode (atlas_world P) (snd (fst n)) (snd n) = None
    /\ Forall (on_map P) pre.
Proof.
  induction ns as [|n ns IH]; intros acc e; cbn [neighbour_dict]; [discriminate|].
  destruct (getNode (atlas_world P) (snd (fst n)) (snd n)) as [nn|] eqn:G.
  - intros H. destruct (IH _ _ H) as [pre [n' [post [-> [-> [G' F]]]]]].
    exists (n :: pre), n', post. repeat split; try assumption.
    constructor; [unfold on_map; congruence | exact F].
  - intros [= <-]. exists [], n, ns. repeat split; [exact G | constructor].
Qed.

Lemma neighbour_dict_inr P coords node : forall ns acc nd,
  neighbour_dict P coords node ns acc = inr nd -> Forall (on_map P) ns.
Proof.
  induction ns as [|n ns IH]; intros acc nd; cbn [neighbour_dict]; [constructor|].
  destruct (getNode (atlas_world P) (snd (fst n)) (snd n)) as [nn|] eqn:G;
    [|discriminate].
  intros H. constructor; [unfold on_map; congruence | exact (IH _ _ H)].
Qed.

(** X19. [addMapNode] returns its errors instead of raising them, and a
    rejected node changes nothing.  Whenever the call returns an error value
    the map is what it was and nothing has been raised; the value is an
    [AttributeError] exactly when the dispatcher has no world, the
    [KeyError] of the node when the world has no node at the coordinates,
    and otherwise the [KeyError] of the first neighbour in the list that the
    world does not have. *)
Theorem addMapNode_rejects (parent : option Atlas) (_map : option ServiceMap)
  (coords : Coord) (neighbours : list (Z * Z * Z)) (e : ErrorValue) :
  map_returned (addMapNode parent _map coords neighbours) = Some e ->
  map_after (addMapNode parent _map coords neighbours) = _map
  /\ map_raised (addMapNode parent _map coords neighbours) = None
  /\ ((parent = None /\ e = AttributeErrorValue)
      \/ exists P, parent = Some P
           /\ ((getNode (atlas_world P) (fst coords) (snd coords) = None
                /\ e = NoSuchNode coords)
               \/ exists node pre n post,
                    getNode (atlas_world P) (fst coords) (snd coords) = Some node
                    /\ neighbours = pre ++ n :: post
                    /\ Forall (on_map P) pre
                    /\ getNode (atlas_world P) (snd (fst n)) (snd n) = None
                    /\ e = NoSuchNeighbour coords n)).
Proof.
  unfold addMapNode. destruct parent as [P|].
  2:{ intros [= <-]. auto. }
  destruct (getNode (atlas_world P) (fst coords) (snd coords)) as [node|] eqn:G.
  2:{ intros [= <-]. split; [reflexivity|]. split; [reflexivity|].
      right. exists P. auto. }
  destruct (neighbour_dict P coords node neighbours []) as [e'|nd] eqn:N.
  - intros [= <-]. split; [reflexivity|]. split; [reflexivity|].
    right. exists P. split; [reflexivity|]. right.
    destruct (neighbour_dict_fail _ _ _ _ _ N) as [pre [n [post [E [-> [Gn F]]]]]].
    exists node, pre, n, post. auto.
  - destruct _map; discriminate.
Qed.

Lemma addMapNode_rejects_witness :
  map_after (addMapNode (Some line_atlas) (Some two_stops) (2, 0)
               [(8, 0, 0); (3, 2, 2); (9, 4, 0)]) = Some two_stops
  /\ map_raised (addMapNode (Some line_atlas) (Some two_stops) (2, 0)
                   [(8, 0, 0); (3, 2, 2); (9, 4, 0)]) = None
  /\ ((Some line_atlas = None /\ NoSuchNeighbour (2, 0) (3, 2, 2) = AttributeErrorValue)
      \/ exists P, Some line_atlas = Some P
           /\ ((getNode (atlas_world P) (fst (2, 0)) (snd (2, 0)) = None
                /\ NoSuchNeighbour (2, 0) (3, 2, 2) = NoSuchNode (2, 0))
               \/ exists node pre n post,
                    getNode (atlas_world P) (fst (2, 0)) (snd (2, 0)) = Some node
                    /\ [(8, 0, 0); (3, 2, 2); (9, 4, 0)] = pre ++ n :: post
                    /\ Forall (on_map P) pre
                    /\ getNode (atlas_world P) (snd (fst n)) (snd n) = None
                    /\ NoSuchNeighbour (2, 0) (3, 2, 2) = NoSuchNeighbour (2, 0) n)).
Proof.
  apply (@addMapNode_rejects (Some line_atlas) (Some two_stops) (2, 0)
           [(8, 0, 0); (3, 2, 2); (9, 4, 0)] (NoSuchNeighbour (2, 0) (3, 2, 2))).
  reflexivity.
Defined.

(** X20. What an accepted node looks like.  When the world has the node and
    every neighbour named, [addMapNode] on an existing map returns [None],
    raises nothing and files under the node a dictionary built from scratch:
    it holds the coordinates named in the list and no others, each with the
    label given last for it and with the distance the world measures from the
    node; what the map held for the node before is gone, every other node is
    as it was.  On a dispatcher that has no map yet the same call ends in a
    [TypeError] and leaves it without a map. *)
Theorem addMapNode_stores (P : Atlas) (m : ServiceMap) (coords : Coord)
  (neighbours : list (Z * Z * Z)) (node : Node) :
  getNode (atlas_world P) (fst coords) (snd coords) = Some node ->
  Forall (on_map P) neighbours ->
  (exists nd m',
     addMapNode (Some P) (Some m) coords neighbours
     = mkMapOutcome (Some m') None None
     /\ Dict.get coords m' = Some nd
     /\ measured P node neighbours nd
     /\ forall c, c <> coords -> Dict.get c m' = Dict.get c m)
  /\ addMapNode (Some P) None coords neighbours
     = mkMapOutcome None None (Some TypeError).
Proof.
  intros G F. unfold addMapNode. rewrite G.
  destruct (@neighbour_dict_spec P coords node neighbours [] F) as [nd [-> H]].
  split; [|reflexivity].
  exists nd, (Dict.set coords nd m). split; [reflexivity|].
  split; [apply get_set_eq|]. split.
  - intros c. specialize (H c). destruct (last_neighbour c neighbours); exact H.
  - intros c N. apply get_set_neq. exact N.
Qed.

Lemma addMapNode_stores_witness :
  (exists nd m',
     addMapNode (Some line_atlas) (Some two_stops) (2, 0)
       [(8, 0, 0); (9, 4, 0); (5, 0, 0)]
     = mkMapOutcome (Some m') None None
     /\ Dict.get (2, 0) m' = Some nd
     /\ measured line_atlas 2%nat [(8, 0, 0); (9, 4, 0); (5, 0, 0)] nd
     /\ forall c, c <> (2, 0) -> Dict.get c m' = Dict.get c two_stops)
  /\ addMapNode (Some line_atlas) None (2, 0) [(8, 0, 0); (9, 4, 0); (5, 0, 0)]
     = mkMapOutcome None None (Some TypeError).
Proof.
  apply (@addMapNode_stores line_atlas two_stops (2, 0)
           [(8, 0, 0); (9, 4, 0); (5, 0, 0)] 2%nat).
  - reflexivity.
  - repeat constructor; discriminate.
Defined.

(** One node of an import: skipped without a trace, or filed with measured
    distances. *)
Lemma addMapNode_cases P m coords neighbours :
  (map_after (addMapNode (Some P) (Some m) coords neighbours) = Some m
   /\ map_raised (addMapNode (Some P) (Some m) coords neighbours) = None)
  \/ exists node nd,
       getNode (atlas_world P) (fst coords) (snd coords) = Some node
       /\ Forall (on_map P) neighbours
       /\ measured P node neighbours nd
       /\ addMapNode (Some P) (Some m) coords neighbours
          = mkMapOutcome (Some (Dict.set coords nd m)) None None.
Proof.
  unfold addMapNode.
  destruct (getNode (atlas_world P) (fst coords) (snd coords)) as [node|] eqn:G;
    [|left; auto].
  destruct (neighbour_dict P coords node neighbours []) as [e|nd] eqn:N;
    [left; auto|].
  right. exists node, nd. split; [reflexivity|].
  pose proof (neighbour_dict_inr _ _ _ _ _ N) as F. split; [exact F|].
  split; [|reflexivity].
  destruct (@neighbour_dict_spec P coords node neighbours [] F) as [nd' [E H]].
  assert (nd' = nd) as -> by congruence.
  intros c. specialize (H c). destruct (last_neighbour c neighbours); exact H.
Qed.

Lemma keys_set_grow {V} (k : Coord) (v : V) (m : Dict.t Coord V) :
  exists added, Dict.keys (Dict.set k v m) = Dict.keys m ++ added.
Proof.
  induction m as [|[k' v'] m [added IH]]; cbn [Dict.set Dict.keys map].
  - exists [k]. reflexivity.
  - destruct (eqb k k') eqn:E; cbn [map fst].
    + apply eqb_eq in E; subst k'. exists []. rewrite app_nil_r. reflexivity.
    + exists added. unfold Dict.keys in IH. rewrite IH. reflexivity.
Qed.

Lemma import_nodes_spec P : forall nodes m,
  exists m',
    import_nodes (Some P) nodes (Some m) = mkMapOutcome (Some m') None None
    /\ (exists added, Dict.keys m' = Dict.keys m ++ added)
    /\ (forall c, ~ In c (Dict.keys nodes) -> Dict.get c m' = Dict.get c m)
    /\ (forall c nd, Dict.get c m' = Some nd ->
          Dict.get c m = Some nd
          \/ exists ns node,
               In (c, ns) nodes
               /\ getNode (atlas_world P) (fst c) (snd c) = Some node
               /\ Forall (on_map P) (neighbour_triples ns)
               /\ measured P node (neighbour_triples ns) nd).
Proof.
  induction nodes as [|[c0 ns0] nodes IH]; intros m.
  - exists m. split; [reflexivity|].
    split; [exists []; symmetry; apply app_nil_r|].
    split; auto.
  - cbn [import_nodes fst snd].
    destruct (addMapNode_cases P m c0 (neighbour_triples ns0))
      as [[E R]|[node [nd0 [G [F [M E]]]]]].
    + rewrite R, E. destruct (IH m) as [m' [Ei [K [O B]]]].
      exists m'. split; [exact Ei|]. split; [exact K|]. split.
      * intros c N. apply O. intros I. apply N. right; exact I.
      * intros c nd H. destruct (B c nd H) as [L|[ns [nd' [I Rest]]]];
          [left; exact L|].
        right. exists ns, nd'. split; [right; exact I | exact Rest].
    + rewrite E. cbn [map_raised map_after].
      destruct (IH (Dict.set c0 nd0 m)) as [m' [Ei [[a1 K] [O B]]]].
      exists m'. split; [exact Ei|]. split; [|split].
      * destruct (keys_set_grow c0 nd0 m) as [a0 K0].
        exists (a0 ++ a1). rewrite K, K0, app_assoc. reflexivity.
      * intros c N. rewrite O by (intros I; apply N; right; exact I).
        apply get_set_neq. intros ->. apply N. left; reflexivity.
      * intros c nd H. destruct (B c nd H) as [L|[ns [nd' [I Rest]]]].
        -- destruct (eqb c c0) eqn:K1.
           ++ apply eqb_eq in K1; subst c0. rewrite get_set_eq in L.
              injection L as <-. right. exists ns0, node.
              split; [left; reflexivity | auto].
           ++ apply eqb_neq in K1. rewrite (get_set_neq _ _ K1) in L.
              left; exact L.
        -- right. exists ns, nd'. split; [right; exact I | exact Rest].
Qed.

Lemma addMapNode_accepts P m coords neighbours node :
  getNode (atlas_world P) (fst coords) (snd coords) = Some node ->
  Forall (on_map P) neighbours ->
  exists nd,
    measured P node neighbours nd
    /\ addMapNode (Some P) (Some m) coords neighbours
       = mkMapOutcome (Some (Dict.set coords nd m)) None None.
Proof.
  intros G F. unfold addMapNode. rewrite G.
  destruct (@neighbour_dict_spec P coords node neighbours [] F) as [nd [-> H]].
  exists nd. split; [|reflexivity].
  intros c. specialize (H c). destruct (last_neighbour c neighbours); exact H.
Qed.

(** X21. Importing into an existing map.  [importMap] on a dispatcher that
    has a world and a map never raises; it keeps every node the map had, in
    place, and adds new ones after them; a node the imported map does not
    mention is as it was; and whatever else the map holds for a node
    afterwards was filed by [addMapNode] from an imported node that the
    world has, with all its neighbours: the labels are the imported ones,
    the distances are measured by the world, the imported distances are
    never read.  An imported node the world lacks, or with a neighbour it
    lacks, is dropped without a word. *)
Theorem importMap_merges (P : Atlas) (m newMap : ServiceMap) :
  exists m',
    importMap (Some P) (Some m) newMap = mkMapOutcome (Some m') None None
    /\ (exists added, Dict.keys m' = Dict.keys m ++ added)
    /\ (forall c, ~ In c (Dict.keys newMap) -> Dict.get c m' = Dict.get c m)
    /\ (forall c nd, Dict.get c m' = Some nd ->
          Dict.get c m = Some nd
          \/ exists ns node,
               In (c, ns) newMap
               /\ getNode (atlas_world P) (fst c) (snd c) = Some node
               /\ Forall (on_map P) (neighbour_triples ns)
               /\ measured P node (neighbour_triples ns) nd).
Proof. unfold importMap. apply import_nodes_spec. Qed.

(** X22. A node of the imported map that the world has, with all its
    neighbours, does get into an existing map: afterwards the map has an
    entry for it, filed from such a node of the import. *)
Theorem importMap_takes_valid_nodes (P : Atlas) (m newMap : ServiceMap)
  (c : Coord) (ns : Neighbours) (node : Node) :
  In (c, ns) newMap ->
  getNode (atlas_world P) (fst c) (snd c) = Some node ->
  Forall (on_map P) (neighbour_triples ns) ->
  exists m' nd ns',
    map_after (importMap (Some P) (Some m) newMap) = Some m'
    /\ Dict.get c m' = Some nd
    /\ In (c, ns') newMap
    /\ Forall (on_map P) (neighbour_triples ns')
    /\ measured P node (neighbour_triples ns') nd.
Proof.
  unfold importMap. revert m.
  induction newMap as [|[c0 ns0] nodes IH]; intros m I G F; [destruct I|].
  cbn [import_nodes fst snd].
  destruct I as [[= -> ->]|I].
  - destruct (@addMapNode_accepts P m c (neighbour_triples ns) node G F)
      as [nd0 [M E]].
    rewrite E. cbn [map_raised map_after].
    destruct (import_nodes_spec P nodes (Dict.set c nd0 m))
        as [m' [Ei [[a K] [_ B]]]].
    apply (f_equal map_after) in Ei. cbn [map_after] in Ei.
    assert (Ik : In c (Dict.keys m')).
    { rewrite K. apply in_or_app. left.
      eapply get_in_keys. apply get_set_eq. }
    destruct (in_keys_get _ _ Ik) as [nd Hnd].
    exists m', nd.
    destruct (B c nd Hnd) as [L|[ns' [node' [I' [G2 [F2 M2]]]]]].
    + rewrite get_set_eq in L. injection L as <-.
      exists ns. split; [exact Ei|]. split; [exact Hnd|].
      split; [left; reflexivity | auto].
    + assert (node' = node) as -> by congruence.
      exists ns'. split; [exact Ei|]. split; [exact Hnd|].
      split; [right; exact I' | auto].
  - destruct (addMapNode_cases P m c0 (neighbour_triples ns0))
      as [[E R]|[node' [nd0 [_ [_ [_ E]]]]]].
    + rewrite R, E. destruct (IH m I G F) as [m' [nd [ns' [H1 [H2 [H3 H4]]]]]].
      exists m', nd, ns'. split; [exact H1|]. split; [exact H2|].
      split; [right; exact H3 | exact H4].
    + rewrite E. cbn [map_raised map_after].
      destruct (IH (Dict.set c0 nd0 m) I G F) as [m' [nd [ns' [H1 [H2 [H3 H4]]]]]].
      exists m', nd, ns'. split; [exact H1|]. split; [exact H2|].
      split; [right; exact H3 | exact H4].
Qed.

Lemma importMap_takes_valid_nodes_witness :
  exists m' nd ns',
    map_after (importMap (Some line_atlas) (Some two_stops) more_stops) = Some m'
    /\ Dict.get (2, 0) m' = Some nd
    /\ In ((2, 0), ns') more_stops
    /\ Forall (on_map line_atlas) (neighbour_triples ns')
    /\ measured line_atlas 2%nat (neighbour_triples ns') nd.
Proof.
  apply (@importMap_takes_valid_nodes line_atlas two_stops more_stops (2, 0)
           [((0, 0), (8, 10%Q)); ((4, 0), (9, 10%Q))] 2%nat).
  - left; reflexivity.
  - reflexivity.
  - repeat constructor; discriminate.
Defined.

(** X23. The two ways [importMap] does not look at the world.  A dispatcher
    without a map takes the first map as it is, nodes and distances
    unchecked, whether or not it has a world.  A dispatcher that has a map
    but no world ignores every later import: each node is refused by
    [addMapNode] with an [AttributeError] that [importMap] discards, and the
    map is what it was. *)
Theorem importMap_without_checks (parent : option Atlas) (m newMap : ServiceMap) :
  importMap parent None newMap = mkMapOutcome (Some newMap) None None
  /\ importMap None (Some m) newMap = mkMapOutcome (Some m) None None.
Proof.
  split; [reflexivity|]. unfold importMap.
  induction newMap as [|node nodes IH]; [reflexivity|].
  cbn [import_nodes addMapNode map_raised map_after]. exact IH.
Qed.

(** ** Bids that are dropped *)

Lemma first_open_time_found (bt : TimeBucket) : forall ts t,
  first_open_time bt ts = Some t ->
  exists f, Dict.get t bt = Some f /\ taxi f = -1.
Proof.
  induction ts as [|t0 ts IH]; intros t; cbn [first_open_time]; [discriminate|].
  destruct (Dict.get t0 bt) as [f|] eqn:G; [|apply IH].
  destruct (taxi f =? -1) eqn:E; [|apply IH].
  intros [= <-]. exists f. split; [exact G | apply Z.eqb_eq; exact E].
Qed.

Lemma first_open_found (bd : DestBucket) : forall ds d t,
  first_open bd ds = Some (d, t) ->
  exists (bt : TimeBucket) f,
    Dict.get d bd = Some bt /\ Dict.get t bt = Some f /\ taxi f = -1.
Proof.
  induction ds as [|d0 ds IH]; intros d t; cbn [first_open]; [discriminate|].
  destruct (Dict.get d0 bd) as [bt|] eqn:G; [|apply IH].
  destruct (first_open_time bt (Dict.keys bt)) as [t0|] eqn:F; [|apply IH].
  intros [= <- <-]. destruct (first_open_time_found _ _ F) as [f [Gt Ht]].
  exists bt, f. auto.
Qed.

(** X24. Bids that are dropped.  A bid by a taxi the dispatcher does not
    know, or at an origin where every fare on the board already has a taxi
    (or where there is no fare at all), is ignored: the call returns without
    an exception, tells the world nothing and leaves the dispatcher exactly as
    it was. *)
Theorem fareBid_dropped (s : Dispatcher) (o : Coord) (tx : TaxiRef) :
  contains tx (_taxis s) = false
  \/ (forall d t f, fare_at (_fareBoard s) o d t = Some f -> taxi f <> -1) ->
  fareBid s o tx = returns s [].
Proof.
  intros H. unfold fareBid.
  destruct (contains tx (_taxis s)) eqn:C; [|reflexivity].
  destruct H as [H|H]; [discriminate|].
  destruct (Dict.get o (_fareBoard s)) as [bd|] eqn:Go; [|reflexivity].
  destruct (first_open bd (Dict.keys bd)) as [[d t]|] eqn:F; [|reflexivity].
  exfalso. destruct (first_open_found _ _ F) as [bt [f [Gd [Gt Ht]]]].
  apply (H d t f); [|exact Ht].
  rewrite (@fare_at_intro (_fareBoard s) o d t bd bt Go Gd). exact Gt.
Qed.

Lemma fareBid_dropped_witness :
  fareBid handed_over (0, 0) 7%nat = returns handed_over [].
Proof.
  apply (@fareBid_dropped handed_over (0, 0) 7%nat).
  right. intros d t f Hf.
  destruct (fare_at_inv _ _ _ _ Hf) as [bd [bt [Go [Gd Gt]]]].
  apply get_In in Go. destruct Go as [[= <-]|[]].
  apply get_In in Gd. destruct Gd as [[= <- <-]|[]].
  apply get_In in Gt. destruct Gt as [[= <- <-]|[]].
  discriminate.
Defined.

(** ** Buckets of the board *)

(** X25. In every state a new dispatcher can reach, an origin that is a key
    of the board has a fare: [cancelFare] removes the buckets it empties, so
    the test [origin in self._fareBoard] that [fareBid] and [cancelFare] start
    with succeeds only where some fare is waiting or under way. *)
Theorem known_origin_has_a_fare (parent : WorldRef) (taxis : list TaxiRef)
  (es : list Event) (o : Coord) :
  Dict.mem o (_fareBoard (run (Dispatcher_init parent taxis) es)) = true ->
  exists d t f,
    fare_at (_fareBoard (run (Dispatcher_init parent taxis) es)) o d t = Some f.
Proof.
  intros M. apply mem_true in M. destruct M as [bd Go].
  assert (N : no_empty_buckets (_fareBoard (run (Dispatcher_init parent taxis) es))).
  { apply run_no_empty. intros o' bd' H. discriminate H. }
  destruct (N o bd Go) as [Nd Nt].
  destruct bd as [|[d bt] bd']; [contradiction Nd; reflexivity|].
  assert (Gd : Dict.get d ((d, bt) :: bd') = Some bt)
    by (cbn [Dict.get]; rewrite eqb_refl; reflexivity).
  pose proof (Nt d bt Gd) as Nb.
  destruct bt as [|[t f] bt']; [contradiction Nb; reflexivity|].
  exists d, t, f.
  rewrite (@fare_at_intro _ o d t _ _ Go Gd).
  cbn [Dict.get]. rewrite eqb_refl. reflexivity.
Qed.

Lemma known_origin_has_a_fare_witness :
  exists d t f,
    fare_at (_fareBoard (run (Dispatcher_init 1%nat [5%nat])
                           [NewFare 1%nat (0, 0) (3, 3) 5; NewFare 1%nat (0, 0) (3, 3) 3;
                            CancelFare 1%nat (0, 0) (3, 3) 5]))
      (0, 0) d t = Some f.
Proof.
  apply (@known_origin_has_a_fare 1%nat [5%nat]
           [NewFare 1%nat (0, 0) (3, 3) 5; NewFare 1%nat (0, 0) (3, 3) 3;
            CancelFare 1%nat (0, 0) (3, 3) 5] (0, 0)).
  reflexivity.
Defined.

(** ** The walk of the tick *)

Section EveryValue.
Context {K V : Type} `{EqDecLaws K}.
Variable Pv : V -> Prop.

Lemma every_value_nil : every_value Pv (@nil (K * V)).
Proof. intros k v G. discriminate G. Qed.

Lemma every_value_set k v (m : Dict.t K V) :
  every_value Pv m -> Pv v -> every_value Pv (Dict.set k v m).
Proof.
  intros A Hv k' v' G. destruct (eqb k' k) eqn:E.
  - apply eqb_eq in E; subst k'. rewrite get_set_eq in G. congruence.
  - apply eqb_neq in E. rewrite (get_set_neq _ _ E) in G. exact (A k' v' G).
Qed.

Lemma every_value_del k (m : Dict.t K V) :
  every_value Pv m -> every_value Pv (Dict.del k m).
Proof.
  intros A k' v' G. destruct (eqb k' k) eqn:E.
  - apply eqb_eq in E; subst k'. rewrite get_del_eq in G. discriminate.
  - apply eqb_neq in E. rewrite (get_del_neq _ E) in G. exact (A k' v' G).
Qed.

Lemma keys_del k (m : Dict.t K V) :
  Dict.keys (Dict.del k m) = filter (fun k' => negb (eqb k k')) (Dict.keys m).
Proof.
  unfold Dict.keys, Dict.del.
  induction m as [|[k0 v0] m IH]; cbn [filter map fst]; [reflexivity|].
  destruct (eqb k k0); cbn [negb map fst]; rewrite IH; reflexivity.
Qed.

Lemma keys_del_NoDup k (m : Dict.t K V) :
  NoDup (Dict.keys m) -> NoDup (Dict.keys (Dict.del k m)).
Proof. intros N. rewrite keys_del. apply NoDup_filter. exact N. Qed.

End EveryValue.

Lemma well_keyed_set o (bd : DestBucket) (b : FareBoard) :
  well_keyed b ->
  NoDup (Dict.keys bd) ->
  every_value (fun bt : TimeBucket => NoDup (Dict.keys bt)) bd ->
  well_keyed (Dict.set o bd b).
Proof.
  intros [N A] Nd Ad. split; [apply keys_set_NoDup; exact N|].
  apply every_value_set; [exact A | split; assumption].
Qed.

Lemma well_keyed_del o (b : FareBoard) : well_keyed b -> well_keyed (Dict.del o b).
Proof.
  intros [N A]. split; [apply keys_del_NoDup; exact N|].
  apply every_value_del; exact A.
Qed.

(** The bucket of [o], or an empty one, is well keyed. *)
Lemma well_keyed_bucket (b : FareBoard) o :
  well_keyed b ->
  let bd := match Dict.get o b with Some bd => bd | None => [] end in
  NoDup (Dict.keys bd)
  /\ every_value (fun bt : TimeBucket => NoDup (Dict.keys bt)) bd.
Proof.
  intros [_ A]. destruct (Dict.get o b) as [bd|] eqn:G.
  - exact (A o bd G).
  - split; [constructor | apply every_value_nil].
Qed.

Lemma well_keyed_insert o d t f (b : FareBoard) :
  well_keyed b -> well_keyed (board_insert o d t f b).
Proof.
  intros WK. pose proof (@well_keyed_bucket b o WK) as B.
  unfold board_insert.
  destruct (Dict.get o b) as [bd|] eqn:Go; cbv zeta in B; destruct B as [Nd Ad].
  - destruct (Dict.get d bd) as [bt|] eqn:Gd.
    + apply well_keyed_set; [exact WK | apply keys_set_NoDup; exact Nd|].
      apply every_value_set; [exact Ad|].
      apply keys_set_NoDup. exact (Ad d bt Gd).
    + apply well_keyed_set; [exact WK | apply keys_set_NoDup; exact Nd|].
      apply every_value_set; [exact Ad|].
      apply keys_set_NoDup. constructor.
  - apply well_keyed_set; [exact WK | apply keys_set_NoDup; exact Nd|].
    apply every_value_set; [exact Ad|].
    apply keys_set_NoDup. constructor.
Qed.

Lemma well_keyed_update g o d t (b : FareBoard) :
  well_keyed b -> well_keyed (update_fare g o d t b).
Proof.
  intros WK. unfold update_fare.
  destruct (Dict.get o b) as [bd|] eqn:Go; [|exact WK].
  destruct (Dict.get d bd) as [bt|] eqn:Gd; [|exact WK].
  destruct (Dict.get t bt) as [f|] eqn:Gt; [|exact WK].
  destruct WK as [N A]. destruct (A o bd Go) as [Nd Ad].
  apply well_keyed_set; [split; assumption | apply keys_set_NoDup; exact Nd|].
  apply every_value_set; [exact Ad|].
  apply keys_set_NoDup. exact (Ad d bt Gd).
Qed.

Lemma well_keyed_prune o d (b : FareBoard) :
  well_keyed b -> well_keyed (prune_buckets o d b).
Proof.
  intros WK. unfold prune_buckets.
  set (b1 := match Dict.get o b with
             | Some bd => match Dict.get d bd with
                          | Some bt => if Z.of_nat (length bt) =? 0
                                       then Dict.set o (Dict.del d bd) b else b
                          | None => b
                          end
             | None => b
             end).
  assert (W1 : well_keyed b1).
  { unfold b1. destruct (Dict.get o b) as [bd|] eqn:Go; [|exact WK].
    destruct (Dict.get d bd) as [bt|]; [|exact WK].
    destruct (Z.of_nat (length bt) =? 0); [|exact WK].
    destruct WK as [N A]. destruct (A o bd Go) as [Nd Ad].
    apply well_keyed_set; [split; assumption | apply keys_del_NoDup; exact Nd|].
    apply every_value_del; exact Ad. }
  destruct (Dict.get o b1) as [bd|]; [|exact W1].
  destruct (Z.of_nat (length bd) =? 0); [apply well_keyed_del|]; exact W1.
Qed.

Lemma well_keyed_cancel s parent o d t :
  well_keyed (_fareBoard s) ->
  well_keyed (_fareBoard (state (cancelFare s parent o d t))).
Proof.
  intros WK. unfold cancelFare.
  destruct (eqb parent (_parent s)); [|exact WK].
  destruct (Dict.get o (_fareBoard s)) as [bd|] eqn:Go; [|exact WK].
  destruct (Dict.get d bd) as [bt|] eqn:Gd; [|exact WK].
  destruct (Dict.get t bt) as [fare|].
  - destruct (getitem (_taxis s) (taxi fare)); [|exact WK].
    cbn [state returns _fareBoard with_fareBoard]. apply well_keyed_prune.
    destruct WK as [N A]. destruct (A o bd Go) as [Nd Ad].
    apply well_keyed_set; [split; assumption | apply keys_set_NoDup; exact Nd|].
    apply every_value_set; [exact Ad|].
    apply keys_del_NoDup. exact (Ad d bt Gd).
  - cbn [state returns _fareBoard with_fareBoard]. apply well_keyed_prune. exact WK.
Qed.

Lemma well_keyed_tick_loop W ks : forall s cs,
  well_keyed (_fareBoard s) ->
  well_keyed (_fareBoard (state (tick_loop W ks s cs))).
Proof.
  induction ks as [|k ks IH]; intros s cs WK; cbn [tick_loop]; [exact WK|].
  assert (W1 : well_keyed (_fareBoard (state (tick_fare W s k)))).
  { destruct k as [[o d] t]. destruct (tick_fare_board W s o d t) as [g [-> _]].
    apply well_keyed_update; exact WK. }
  destruct (raised (tick_fare W s k)); cbn [state raises]; [exact W1|].
  apply IH; exact W1.
Qed.

Lemma handle_well_keyed s e :
  well_keyed (_fareBoard s) -> well_keyed (_fareBoard (state (handle s e))).
Proof.
  intros WK.
  destruct e as [p0 o0 d0 t0 | p0 o0 d0 t0 | o0 tx | p0 a | W p0
                | p0 o0 d0 t0 tx pr | tx]; cbn [handle].
  - unfold newFare. destruct (eqb p0 (_parent s)); [|exact WK].
    apply well_keyed_insert; exact WK.
  - apply well_keyed_cancel; exact WK.
  - unfold fareBid.
    destruct (contains tx (_taxis s)); [|exact WK].
    destruct (Dict.get o0 (_fareBoard s)) as [bd|]; [|exact WK].
    destruct (first_open bd (Dict.keys bd)) as [[d1 t1]|]; [|exact WK].
    destruct (index tx (_taxis s)); [|exact WK].
    apply well_keyed_update; exact WK.
  - unfold recvPayment. destruct (eqb (_parent s) p0); exact WK.
  - unfold clockTick. destruct (eqb (_parent s) p0); [|exact WK].
    apply well_keyed_tick_loop; exact WK.
  - destruct (eqb (_parent s) p0) eqn:E.
    + apply eqb_eq in E; subst p0.
      destruct (handover_bound s o0 d0 t0 tx pr) as [i [_ ->]].
      cbn [state returns _fareBoard].
      apply well_keyed_update, well_keyed_update, well_keyed_insert; exact WK.
    + apply eqb_neq in E. rewrite (handover_unbound s o0 d0 t0 tx pr E). exact WK.
  - unfold addTaxi. destruct (contains tx (_taxis s)); exact WK.
Qed.

Lemma run_well_keyed es : forall s,
  well_keyed (_fareBoard s) -> well_keyed (_fareBoard (run s es)).
Proof.
  induction es as [|e es IH]; intros s WK; simpl; [exact WK|].
  apply IH, handle_well_keyed; exact WK.
Qed.

Lemma init_well_keyed parent taxis es :
  well_keyed (_fareBoard (run (Dispatcher_init parent taxis) es)).
Proof.
  apply run_well_keyed. split; [constructor | apply every_value_nil].
Qed.

Lemma NoDup_flat_map {A B} (f : A -> list B) (l : list A) :
  NoDup l ->
  (forall x, In x l -> NoDup (f x)) ->
  (forall x y z, In x l -> In y l -> In z (f x) -> In z (f y) -> x = y) ->
  NoDup (flat_map f l).
Proof.
  induction 1 as [|x l Nx N IH]; intros Hf Hd; cbn [flat_map]; [constructor|].
  apply NoDup_app.
  - apply Hf. left; reflexivity.
  - apply IH.
    + intros y Hy. apply Hf. right; exact Hy.
    + intros y z w Hy Hz. apply Hd; right; assumption.
  - intros z Hz Hz'. apply in_flat_map in Hz'. destruct Hz' as [y [Hy Hzy]].
    apply Nx. rewrite (Hd x y z); auto; [left; reflexivity | right; exact Hy].
Qed.

Lemma insert_sorted_NoDup x l : ~ In x l -> NoDup l -> NoDup (insert_sorted x l).
Proof.
  induction l as [|y l IH]; intros Nx N; cbn [insert_sorted].
  - constructor; [exact Nx | constructor].
  - destruct (x <=? y); [constructor; assumption|].
    inversion N as [|y' l' Ny Nl]; subst. constructor.
    + intros I. apply insert_sorted_In in I. destruct I as [->|I].
      * apply Nx. left; reflexivity.
      * exact (Ny I).
    + apply IH; [intros I; apply Nx; right; exact I | exact Nl].
Qed.

Lemma sorted_NoDup l : NoDup l -> NoDup (sorted l).
Proof.
  induction 1 as [|x l Nx N IH]; cbn [sorted fold_right]; [constructor|].
  apply insert_sorted_NoDup; [|exact IH].
  intros I. apply Nx. apply (proj1 (sorted_In _ _)) in I. exact I.
Qed.

Lemma NoDup_map_injective {A B} (f : A -> B) (l : list A) :
  (forall x y, f x = f y -> x = y) -> NoDup l -> NoDup (map f l).
Proof.
  intros Inj. induction 1 as [|x l Nx N IH]; cbn [map]; constructor; [|exact IH].
  intros I. apply in_map_iff in I. destruct I as [y [E Hy]].
  apply Inj in E. subst y. exact (Nx Hy).
Qed.

Lemma tick_keys_NoDup (b : FareBoard) : well_keyed b -> NoDup (tick_keys b).
Proof.
  intros [N A]. unfold tick_keys. apply NoDup_flat_map; [exact N| |].
  - intros o Ho. destruct (Dict.get o b) as [bd|] eqn:Go; [|constructor].
    destruct (A o bd Go) as [Nd Ad].
    apply NoDup_flat_map; [exact Nd| |].
    + intros d Hd. destruct (Dict.get d bd) as [bt|] eqn:Gd; [|constructor].
      apply NoDup_map_injective.
      * intros t1 t2 E. congruence.
      * apply sorted_NoDup. exact (Ad d bt Gd).
    + intros d1 d2 z _ _ H1 H2.
      destruct (Dict.get d1 bd); [|destruct H1].
      destruct (Dict.get d2 bd); [|destruct H2].
      apply in_map_iff in H1. destruct H1 as [t1 [<- _]].
      apply in_map_iff in H2. destruct H2 as [t2 [E _]]. congruence.
  - intros o1 o2 z _ _ H1 H2.
    destruct (Dict.get o1 b) as [bd1|]; [|destruct H1].
    destruct (Dict.get o2 b) as [bd2|]; [|destruct H2].
    apply in_flat_map in H1. destruct H1 as [d1 [_ H1]].
    apply in_flat_map in H2. destruct H2 as [d2 [_ H2]].
    destruct (Dict.get d1 bd1); [|destruct H1].
    destruct (Dict.get d2 bd2); [|destruct H2].
    apply in_map_iff in H1. destruct H1 as [t1 [<- _]].
    apply in_map_iff in H2. destruct H2 as [t2 [E _]]. congruence.
Qed.

(** X26. A tick visits every fare exactly once.  In every state a new
    dispatcher can reach, the list of keys the three nested loops of
    [clockTick] walk has no repetition and holds exactly the keys of the
    entries on the board. *)
Theorem tick_visits_each_fare_once (parent : WorldRef) (taxis : list TaxiRef)
  (es : list Event) :
  NoDup (tick_keys (_fareBoard (run (Dispatcher_init parent taxis) es)))
  /\ forall o d t,
       In (o, d, t) (tick_keys (_fareBoard (run (Dispatcher_init parent taxis) es)))
       <-> exists f,
             fare_at (_fareBoard (run (Dispatcher_init parent taxis) es)) o d t
             = Some f.
Proof.
  split.
  - apply tick_keys_NoDup, init_well_keyed.
  - intros o d t. split.
    + apply tick_keys_on_board.
    + intros [f Hf]. exact (tick_keys_complete _ _ _ _ Hf).
Qed.

Lemma tick_loop_untouched W ks k : forall s cs,
  ~ In k ks ->
  fare_of (_fareBoard (state (tick_loop W ks s cs))) k = fare_of (_fareBoard s) k.
Proof.
  induction ks as [|k0 ks IH]; intros s cs N; cbn [tick_loop]; [reflexivity|].
  assert (K : k <> k0) by (intros ->; apply N; left; reflexivity).
  destruct (raised (tick_fare W s k0)); cbn [state raises].
  - apply tick_fare_other; exact K.
  - rewrite IH by (intros I; apply N; right; exact I).
    apply tick_fare_other; exact K.
Qed.

Lemma tick_loop_one_step W ks k f : forall s cs,
  NoDup ks ->
  fare_of (_fareBoard s) k = Some f ->
  exists f', fare_of (_fareBoard (state (tick_loop W ks s cs))) k = Some f'
             /\ tick_step W f f'.
Proof.
  induction ks as [|k0 ks IH]; intros s cs N Hf; cbn [tick_loop].
  - exists f. split; [exact Hf | constructor].
  - inversion N as [|k0' ks' N0 N1]; subst.
    destruct (eqb k k0) eqn:K.
    + apply eqb_eq in K; subst k0.
      destruct (tick_fare_same W s k Hf) as [f1 [H1 [T1 _]]].
      exists f1. split; [|exact T1].
      destruct (raised (tick_fare W s k)); cbn [state raises]; [exact H1|].
      rewrite (@tick_loop_untouched W ks k _ _ N0). exact H1.
    + apply eqb_neq in K.
      pose proof (tick_fare_other W s K) as O.
      destruct (raised (tick_fare W s k0)); cbn [state raises].
      * exists f. split; [rewrite O; exact Hf | constructor].
      * apply IH; [exact N1 | rewrite O; exact Hf].
Qed.

(** X27. One step per fare and tick.  In a state a new dispatcher can
    reach, a tick does at most one thing to an entry: it leaves it as it is,
    or sets the price of an entry that had none to what [_costFare] returns,
    or sets the taxi of an entry that was priced and unassigned.  So a fare
    is never allocated by the tick that prices it: the taxis get a tick's
    time to bid on the price that was broadcast. *)
Theorem tick_takes_one_step_per_fare (parent : WorldRef) (taxis : list TaxiRef)
  (es : list Event) (W : World) (p0 : WorldRef) (o d : Coord) (t : Z)
  (f : FareEntry) :
  fare_at (_fareBoard (run (Dispatcher_init parent taxis) es)) o d t = Some f ->
  exists f',
    fare_at (_fareBoard (state (clockTick W (run (Dispatcher_init parent taxis) es) p0)))
      o d t = Some f'
    /\ (f' = f
        \/ (Qeq (price f) 0
            /\ exists p, _costFare W f = Ok p /\ f' = set_price p f)
        \/ (~ Qeq (price f) 0 /\ taxi f < 0
            /\ exists w, f' = set_taxi w f)).
Proof.
  intros Hf. set (s := run (Dispatcher_init parent taxis) es) in *.
  assert (G : exists f', fare_of (_fareBoard (state (clockTick W s p0))) (o, d, t)
                         = Some f' /\ tick_step W f f').
  { unfold clockTick. destruct (eqb (_parent s) p0).
    - apply tick_loop_one_step; [|exact Hf].
      apply tick_keys_NoDup, init_well_keyed.
    - exists f. split; [exact Hf | constructor]. }
  destruct G as [f' [H' T]]. exists f'. split; [exact H'|].
  destruct T as [| p Hz C | w N A]; [left; reflexivity | right; left | right; right].
  - split; [exact Hz|]. exists p. auto.
  - split; [exact N|]. split; [exact A|]. exists w. reflexivity.
Qed.

Lemma tick_takes_one_step_per_fare_witness :
  exists f',
    fare_at (_fareBoard (state (clockTick idle_world
                                  (run (Dispatcher_init 1%nat [5%nat; 6%nat])
                                     [NewFare 1%nat (0, 0) (3, 0) 1;
                                      FareBid (0, 0) 5%nat]) 1%nat)))
      (0, 0) (3, 0) 1 = Some f'
    /\ (f' = mkFareEntry (0, 0) (3, 0) 1 0 (-1) [0]
        \/ (Qeq (price (mkFareEntry (0, 0) (3, 0) 1 0 (-1) [0])) 0
            /\ exists p, _costFare idle_world (mkFareEntry (0, 0) (3, 0) 1 0 (-1) [0])
                         = Ok p
                         /\ f' = set_price p (mkFareEntry (0, 0) (3, 0) 1 0 (-1) [0]))
        \/ (~ Qeq (price (mkFareEntry (0, 0) (3, 0) 1 0 (-1) [0])) 0
            /\ taxi (mkFareEntry (0, 0) (3, 0) 1 0 (-1) [0]) < 0
            /\ exists w, f' = set_taxi w (mkFareEntry (0, 0) (3, 0) 1 0 (-1) [0]))).
Proof.
  apply (@tick_takes_one_step_per_fare 1%nat [5%nat; 6%nat]
           [NewFare 1%nat (0, 0) (3, 0) 1; FareBid (0, 0) 5%nat]
           idle_world 1%nat (0, 0) (3, 0) 1).
  reflexivity.
Defined.
